(** * world-sim: the simulation core, embedded and verified

    A shallow embedding of the framework-agnostic core of the generative
    agents simulation (planner, clock, memory stream, conversations, tile
    map, world snapshot), followed by the properties that its specification
    states about it.

    Conventions of the embedding.
    - A JavaScript [number] that the core only ever uses as an integer
      (clock fields, plan durations, grid coordinates) is a [Z]; a number
      that is stored and compared (importance, sentiment) is a [Q]. The
      scores of [retrieve] are computed, as in the code, in IEEE 754
      doubles: the weights, the elapsed hours and every intermediate
      score are primitive floats, and a stored importance enters the
      computation as the double nearest to it.
    - [Date.now()] and the random suffixes of generated ids are inputs of
      the functions that read them: a clock reading [now], an id supply
      [gen : nat -> string] whose [k]-th element is the result of the
      [k]-th call of the generator.
    - A string is the sequence of its code units, each below 256 (the
      Latin-1 range); on these [toLowerCase] and the white space of [\s]
      are those of JavaScript.
    - A [while] loop is a structurally recursive function on an explicit
      fuel; for each of them a lemma shows that the fuel the model passes
      is never exhausted. *)

From Stdlib Require Import ZArith List String Ascii QArith Qround Lia Lqa Bool DecimalString Floats.
From stdpp Require Import gmap strings list fin_maps.
Import ListNotations.

Open Scope string_scope.
Open Scope list_scope.
Open Scope Z_scope.

(* ===================================================================== *)
(** * Part I: the embedding *)
(* ===================================================================== *)

(** ** JavaScript primitives used by the core *)

Module JS.

(** [String.prototype.toLowerCase] on the code units below 256: the
    letters [A-Z], and the accented capitals U+00C0-U+00DE apart from the
    multiplication sign U+00D7, move up by 32; the other code units have no
    other lower case. *)
Definition lowerChar (c : ascii) : ascii :=
  let n := nat_of_ascii c in
  if ((65 <=? n) && (n <=? 90) || (192 <=? n) && (n <=? 222) && negb (n =? 215))%nat
  then ascii_of_nat (n + 32) else c.

Fixpoint toLowerCase (s : string) : string :=
  match s with
  | EmptyString => EmptyString
  | String c s' => String (lowerChar c) (toLowerCase s')
  end.

(** [String.prototype.includes]. *)
Fixpoint includes (s sub : string) : bool :=
  String.prefix sub s
  || match s with
     | EmptyString => false
     | String _ s' => includes s' sub
     end.

(** [Array.prototype.some] over a keyword list. *)
Definition includesAny (s : string) (kws : list string) : bool :=
  existsb (includes s) kws.

(** The code units below 256 matched by [\s]: the space, U+0009-U+000D
    and the no-break space U+00A0. *)
Definition isSpace (c : ascii) : bool :=
  let n := nat_of_ascii c in
  ((n =? 32) || ((9 <=? n) && (n <=? 13)) || (n =? 160))%nat.

(** [s.split(/\s+/)]: the pieces between maximal runs of white space; a
    leading or trailing run leaves an empty first or last piece. *)
Fixpoint splitAux (s : string) (cur : string) (inRun : bool) : list string :=
  match s with
  | EmptyString => [cur]
  | String c s' =>
      if isSpace c then
        if inRun then splitAux s' EmptyString true
        else cur :: splitAux s' EmptyString true
      else splitAux s' (cur +:+ String c EmptyString) false
  end.

Definition splitWhitespace (s : string) : list string := splitAux s EmptyString false.

(** [s.replace(/\s+/g, r)]. *)
Fixpoint replaceAux (s r : string) (inRun : bool) : string :=
  match s with
  | EmptyString => EmptyString
  | String c s' =>
      if isSpace c then
        if inRun then replaceAux s' r true else r +:+ replaceAux s' r true
      else String c (replaceAux s' r false)
  end.

Definition replaceWhitespace (s r : string) : string := replaceAux s r false.

(** The decimal rendering of an integer inside a template literal. *)
Definition numberToString (n : Z) : string := NilZero.string_of_int (Z.to_int n).

(** [Math.ceil (n / d)] and [Math.floor (n / d)] on integers, [d > 0]. *)
Definition floorDiv (n d : Z) : Z := n / d.
Definition ceilDiv (n d : Z) : Z := - ((- n) / d).

(** [Math.round] on a rational: the nearest integer, halves towards
    positive infinity. *)
Definition round (q : Q) : Z := Qfloor (q + (1 # 2))%Q.



(** [Array.prototype.sort], which is stable: [before x y] says that the
    comparator does not put [y] before [x], that is [compare (x, y) <= 0].
    Each element is inserted in front of the sorted elements that followed
    it in the array, before the first one it may precede. *)
Fixpoint insertSorted {A} (before : A -> A -> bool) (x : A) (sorted : list A) : list A :=
  match sorted with
  | [] => [x]
  | y :: rest =>
      if before x y then x :: y :: rest else y :: insertSorted before x rest
  end.

Definition sort {A} (before : A -> A -> bool) (l : list A) : list A :=
  fold_right (insertSorted before) [] l.

(** [l.slice (0, e)] for an integer [e]; a negative [e] counts from the
    end. *)
Definition slice0 {A} (l : list A) (e : Z) : list A :=
  firstn (Z.to_nat (if e <? 0 then Z.of_nat (length l) + e else e)) l.

(** A [Map] with string keys: the entries in insertion order. [set] on a
    key that is present replaces the value where it stands. *)
Fixpoint mapGet {V} (key : string) (m : list (string * V)) : option V :=
  match m with
  | [] => None
  | (k, v) :: rest => if String.eqb k key then Some v else mapGet key rest
  end.

Fixpoint mapSet {V} (key : string) (value : V) (m : list (string * V)) : list (string * V) :=
  match m with
  | [] => [(key, value)]
  | (k, v) :: rest =>
      if String.eqb k key then (k, value) :: rest else (k, v) :: mapSet key value rest
  end.

Definition mapValues {V} (m : list (string * V)) : list V := map snd m.

(** [Array.prototype.findIndex]; [None] stands for -1. *)
Fixpoint findIndex {A} (p : A -> bool) (l : list A) : option nat :=
  match l with
  | [] => None
  | a :: rest => if p a then Some O else option_map S (findIndex p rest)
  end.

(** [s.padStart (width, pad)] for a one-character [pad]. *)
Definition padStart (s : string) (width : nat) (pad : ascii) : string :=
  string_of_list_ascii (repeat pad (width - String.length s)) +:+ s.

(** [l.slice (s)] for an integer [s]; a negative [s] counts from the
    end, and [-0] is [0]. *)
Definition sliceFrom {A} (l : list A) (s : Z) : list A :=
  skipn (Z.to_nat (if s <? 0 then Z.max (Z.of_nat (length l) + s) 0 else s)) l.

(** [s.slice (0, n)] on a string, [n] not negative. *)
Definition stringPrefix (s : string) (n : nat) : string := String.substring 0 n s.

(** *** Plain objects *)

(** The properties of [Object.prototype], which every plain object
    inherits. Each of them is truthy. *)
Definition objectPrototype : list string :=
  [ "constructor"; "__defineGetter__"; "__defineSetter__"; "hasOwnProperty";
    "__lookupGetter__"; "__lookupSetter__"; "isPrototypeOf"; "propertyIsEnumerable";
    "toString"; "valueOf"; "__proto__"; "toLocaleString" ].

(** [o[key]] on a plain object whose own properties are [o]: the own
    property of that name, else the one inherited from [Object.prototype],
    else [undefined]. *)
Inductive Property (V : Type) :=
| own (value : V)
| inherited (name : string)
| undefined.
Arguments own {V} value.
Arguments inherited {V} name.
Arguments undefined {V}.

Definition objectGet {V} (key : string) (o : list (string * V)) : Property V :=
  match mapGet key o with
  | Some value => own value
  | None => if existsb (String.eqb key) objectPrototype then inherited key else undefined
  end.

(** *** Doubles *)

(** The double nearest to an integer (ties to even), and the double of a
    stored rational: the quotient, in doubles, of its numerator and its
    denominator, which is the number itself whenever that is a whole
    number below 2^53 in absolute value. *)
Definition ofZ (z : Z) : float := SF2Prim (binary_normalize prec emax z 0 false).

Definition toDouble (q : Q) : float := (ofZ (Qnum q) / ofZ (Z.pos (Qden q)))%float.

Definition isNegZero (x : float) : bool :=
  match classify x with NZero => true | _ => false end.

(** [Math.min] and [Math.max] of two doubles: [NaN] when either is [NaN],
    and [-0] counts as less than [+0]. *)
Definition min2 (a b : float) : float :=
  if is_nan a || is_nan b then nan
  else if (b <? a)%float then b
  else if (a <? b)%float then a
  else if isNegZero b then b else a.

Definition max2 (a b : float) : float :=
  if is_nan a || is_nan b then nan
  else if (a <? b)%float then b
  else if (b <? a)%float then a
  else if isNegZero a then b else a.

(** [Math.min (...scores)] and [Math.max (...scores)] of a list of doubles
    with first element [first]. *)
Definition mathMin (first : float) (rest : list float) : float := fold_left min2 rest first.

Definition mathMax (first : float) (rest : list float) : float := fold_left max2 rest first.

End JS.

(** ** Basic types *)

Module Types.

Record Position := { x : Z; y : Z }.

Inductive Direction := up | down | left | right.

End Types.

(** ** Planner *)

Module Planner.

Inductive PlanStatus := pending | in_progress | completed | cancelled.

Record TimeOfDayStamp := { hour : Z; minute : Z }.

(** [Plan]; the optional [subPlans] field is never written by the core
    and is left out. *)
Record Plan := {
  id : string;
  description : string;
  startTime : TimeOfDayStamp;
  duration : Z;
  location : option string;
  status : PlanStatus
}.

Record DailyPlan := {
  day : Z;
  broadStrokes : list Plan;
  hourlyPlans : list Plan;
  detailedPlans : list Plan
}.

(** The part of [GameTime] that the planner reads. *)
Record ClockTime := { clockHour : Z; clockMinute : Z }.

Definition createPlan (newId : string) (description : string)
    (startHour startMinute duration : Z) (location : option string) : Plan :=
  {| id := newId;
     description := description;
     startTime := {| hour := startHour; minute := startMinute |};
     duration := duration;
     location := location;
     status := pending |}.

(** *** decomposePlanToHourly *)

Definition chunkLabel (plan : Plan) (totalMinutes currentMinute : Z) : string :=
  description plan +:+ " (" +:+ JS.numberToString (JS.floorDiv currentMinute 60 + 1)
    +:+ "/" +:+ JS.numberToString (JS.ceilDiv totalMinutes 60) +:+ ")".

(** The [while (currentMinute < totalMinutes)] loop. [k] counts the chunks
    pushed so far; the result lists the chunks pushed from here on, [None]
    when the fuel runs out first. *)
Fixpoint hourlyLoop (fuel : nat) (gen : nat -> string) (plan : Plan) (k : nat)
    (totalMinutes currentMinute currentHour currentMin : Z) : option (list Plan) :=
  if currentMinute <? totalMinutes then
    match fuel with
    | O => None
    | S fuel' =>
        let remainingInHour := 60 - currentMin in
        let remainingInPlan := totalMinutes - currentMinute in
        let chunkDuration := Z.min (Z.min remainingInHour remainingInPlan) 60 in
        let chunk :=
          {| id := gen k;
             description := chunkLabel plan totalMinutes currentMinute;
             startTime := {| hour := currentHour; minute := currentMin |};
             duration := chunkDuration;
             location := location plan;
             status := pending |} in
        let currentMinute' := currentMinute + chunkDuration in
        let currentMin' := currentMin + chunkDuration in
        option_map (cons chunk)
          (if currentMin' >=? 60
           then hourlyLoop fuel' gen plan (S k) totalMinutes currentMinute'
                  (currentHour + 1) (currentMin' - 60)
           else hourlyLoop fuel' gen plan (S k) totalMinutes currentMinute'
                  currentHour currentMin')
    end
  else Some [].

(** Iterations the loop can need from a state: one to leave a start minute
    of 60 or more, then at least one minute of the plan per iteration. *)
Definition hourlyMeasure (totalMinutes currentMinute currentMin : Z) : nat :=
  Z.to_nat (totalMinutes - currentMinute + Z.max 0 (currentMin - 59)).

Definition decomposePlanToHourly (gen : nat -> string) (plan : Plan) : list Plan :=
  let totalMinutes := duration plan in
  match hourlyLoop (hourlyMeasure totalMinutes 0 (minute (startTime plan)))
          gen plan 0 totalMinutes 0 (hour (startTime plan)) (minute (startTime plan)) with
  | Some hourly => hourly
  | None => []
  end.

(** *** getDetailedActivities *)

Definition getDetailedActivities (planDescription : string) : list string :=
  let lower := JS.toLowerCase planDescription in
  if JS.includes lower "string theory" || JS.includes lower "physics research" then
    [ "Review recent physics papers"; "Work on equations on whiteboard";
      "Argue about theoretical approaches"; "Take a coffee break";
      "Continue working on proofs" ]
  else if JS.includes lower "laser" || JS.includes lower "experimental" then
    [ "Set up experimental apparatus"; "Calibrate laser equipment";
      "Run experiments"; "Record data"; "Analyze results" ]
  else if JS.includes lower "halo" || JS.includes lower "video game" then
    [ "Set up gaming station"; "Play online matches";
      "Complain about other players"; "Take a snack break";
      "Continue gaming session" ]
  else if JS.includes lower "comic" then
    [ "Browse new arrivals"; "Discuss comic storylines";
      "Argue about superhero rankings"; "Make purchases";
      "Head home with new comics" ]
  else if JS.includes lower "cheesecake factory" || JS.includes lower "shift" then
    [ "Clock in and put on uniform"; "Check table assignments";
      "Take customer orders"; "Serve food and drinks";
      "Handle difficult customers"; "Clean tables" ]
  else if JS.includes lower "audition" || JS.includes lower "lines" then
    [ "Read through script"; "Practice emotional delivery"; "Work on accents";
      "Record self for review"; "Take a break" ]
  else if JS.includes lower "morning routine" || JS.includes lower "wake up" then
    [ "Get out of bed"; "Brush teeth"; "Take a shower"; "Get dressed";
      "Check phone for messages" ]
  else if JS.includes lower "breakfast" then
    [ "Prepare breakfast ingredients"; "Cook breakfast"; "Eat breakfast";
      "Clean up dishes" ]
  else if JS.includes lower "lunch" || JS.includes lower "dinner" then
    [ "Decide what to eat"; "Prepare or order food"; "Eat the meal"; "Clean up" ]
  else if JS.includes lower "work" || JS.includes lower "caltech" then
    [ "Review tasks for the session"; "Focus on primary work";
      "Take a short break"; "Continue working"; "Wrap up current task" ]
  else if JS.includes lower "bed" || JS.includes lower "sleep" then
    [ "Change into sleepwear"; "Brush teeth"; "Set alarm for tomorrow";
      "Get into bed" ]
  else
    [ "Start " +:+ lower; "Continue " +:+ lower; "Finish " +:+ lower ].

(** *** decomposePlanToDetailed *)

(** The [activities.forEach] loop: [perActivity] is
    [Math.floor (plan.duration / activities.length)], computed from the
    whole list on every iteration. *)
Fixpoint detailedLoop (gen : nat -> string) (plan : Plan) (perActivity : Z)
    (activities : list string) (k : nat)
    (currentHour currentMin remainingDuration : Z) : list Plan :=
  match activities with
  | [] => []
  | activity :: rest =>
      let d := Z.min (Z.min perActivity remainingDuration) 15 in
      if d >? 0 then
        let item :=
          {| id := gen k;
             description := activity;
             startTime := {| hour := currentHour; minute := currentMin |};
             duration := d;
             location := location plan;
             status := pending |} in
        let currentMin' := currentMin + d in
        if currentMin' >=? 60
        then item :: detailedLoop gen plan perActivity rest (S k)
                       (currentHour + 1) (currentMin' - 60) (remainingDuration - d)
        else item :: detailedLoop gen plan perActivity rest (S k)
                       currentHour currentMin' (remainingDuration - d)
      else detailedLoop gen plan perActivity rest k
             currentHour currentMin remainingDuration
  end.

Definition decomposePlanToDetailed (gen : nat -> string) (plan : Plan) : list Plan :=
  let activities := getDetailedActivities (description plan) in
  detailedLoop gen plan
    (JS.floorDiv (duration plan) (Z.of_nat (length activities)))
    activities 0
    (hour (startTime plan)) (minute (startTime plan)) (duration plan).

(** *** getCurrentPlan *)

Definition planStart (plan : Plan) : Z :=
  hour (startTime plan) * 60 + minute (startTime plan).

Definition planEnd (plan : Plan) : Z := planStart plan + duration plan.

(** One [for (const plan of tier)] scan: the first plan whose half-open
    interval holds [currentMinutes]. *)
Fixpoint scanTier (currentMinutes : Z) (tier : list Plan) : option Plan :=
  match tier with
  | [] => None
  | plan :: rest =>
      if (currentMinutes >=? planStart plan) && (currentMinutes <? planEnd plan)
      then Some plan
      else scanTier currentMinutes rest
  end.

Definition getCurrentPlan (dailyPlan : DailyPlan) (time : ClockTime) : option Plan :=
  let currentMinutes := clockHour time * 60 + clockMinute time in
  match scanTier currentMinutes (detailedPlans dailyPlan) with
  | Some plan => Some plan
  | None =>
      match scanTier currentMinutes (hourlyPlans dailyPlan) with
      | Some plan => Some plan
      | None => scanTier currentMinutes (broadStrokes dailyPlan)
      end
  end.

(** *** The Planner class *)

(** The planner of one character. The injected routine generator draws
    the ids of its plans from the supply it is handed. *)
Record Planner := {
  currentPlan : option DailyPlan;
  routineGenerator : (nat -> string) -> string -> list Plan
}.

Definition newPlanner (routineGenerator : (nat -> string) -> string -> list Plan)
    : Planner :=
  {| currentPlan := None; routineGenerator := routineGenerator |}.

(** [broadStrokes.forEach (plan => hourlyPlans.push (...decomposePlanToHourly (plan)))];
    [k] is the number of ids drawn so far. *)
Fixpoint decomposeAll (gen : nat -> string) (k : nat) (broad : list Plan) : list Plan :=
  match broad with
  | [] => []
  | plan :: rest =>
      let chunks := decomposePlanToHourly (fun i => gen (k + i)%nat) plan in
      chunks ++ decomposeAll gen (k + length chunks)%nat rest
  end.

(** [initializeDailyPlan]; [genRoutine] supplies the ids that the routine
    generator draws, [gen] those of the hourly chunks. *)
Definition initializeDailyPlan (genRoutine gen : nat -> string) (p : Planner)
    (occupation : string) (day : Z) : DailyPlan * Planner :=
  let broad := routineGenerator p genRoutine occupation in
  let plan :=
    {| day := day;
       broadStrokes := broad;
       hourlyPlans := decomposeAll gen 0 broad;
       detailedPlans := [] |} in
  (plan, {| currentPlan := Some plan; routineGenerator := routineGenerator p |}).

Definition getDailyPlan (p : Planner) : option DailyPlan := currentPlan p.

Definition setDailyPlan (p : Planner) (plan : DailyPlan) : Planner :=
  {| currentPlan := Some plan; routineGenerator := routineGenerator p |}.

Definition plannerGetCurrentPlan (p : Planner) (time : ClockTime) : option Plan :=
  match currentPlan p with
  | None => None
  | Some dailyPlan => getCurrentPlan dailyPlan time
  end.

End Planner.

(** ** Occupation routines *)

Module Routines.
Import Planner.

(** A routine is a list of [createPlan (description, hour, minute, duration)]
    calls; the [i]-th call draws the [i]-th id. *)
Definition routine (gen : nat -> string) (entries : list (string * Z * Z * Z)) : list Plan :=
  imap (fun i '(description, startHour, startMinute, duration) =>
          createPlan (gen i) description startHour startMinute duration None) entries.

Definition theoretical_physicist (gen : nat -> string) : list Plan :=
  routine gen [
    ("Wake up at precisely 6:15 AM", 6, 15, 15);
    ("Morning bathroom routine (exactly 11 minutes)", 6, 30, 11);
    ("Eat breakfast - cereal with 1/4 cup of milk on Mondays", 6, 45, 30);
    ("Watch morning cartoons (Doctor Who reruns)", 7, 15, 45);
    ("Walk to Caltech (Leonard drives)", 8, 0, 30);
    ("Work on string theory equations at Caltech", 8, 30, 210);
    ("Lunch at Caltech cafeteria - it's Thai food Thursday!", 12, 0, 45);
    ("Continue physics research at Caltech", 12, 45, 195);
    ("Leave Caltech", 16, 0, 30);
    ("Play Halo 3 or World of Warcraft", 16, 30, 90);
    ("Watch vintage TV shows", 18, 0, 60);
    ("Order dinner - Chinese food on Tuesdays", 19, 0, 60);
    ("Comic book store visit or board game night", 20, 0, 120);
    ("Prepare for bed with exact routine", 22, 0, 30);
    ("Sleep", 22, 30, 480) ].

Definition experimental_physicist (gen : nat -> string) : list Plan :=
  routine gen [
    ("Wake up", 7, 0, 30);
    ("Morning routine and breakfast", 7, 30, 45);
    ("Drive Sheldon to Caltech", 8, 15, 30);
    ("Work on laser experiments at Caltech", 8, 45, 195);
    ("Lunch at Caltech", 12, 0, 45);
    ("Continue experimental work at Caltech", 12, 45, 195);
    ("Drive home from Caltech", 16, 0, 30);
    ("Check on Penny or hang out with friends", 16, 30, 90);
    ("Dinner", 18, 0, 60);
    ("Video games or comic store with the guys", 19, 0, 120);
    ("Watch TV or try to have alone time", 21, 0, 60);
    ("Prepare for bed", 22, 0, 30);
    ("Sleep", 22, 30, 510) ].

Definition waitress (gen : nat -> string) : list Plan :=
  routine gen [
    ("Wake up (usually late)", 9, 0, 30);
    ("Morning routine", 9, 30, 45);
    ("Quick breakfast", 10, 15, 30);
    ("Practice lines for auditions", 10, 45, 75);
    ("Get ready for work", 12, 0, 60);
    ("Work lunch shift at Cheesecake Factory", 13, 0, 180);
    ("Short break at work", 16, 0, 30);
    ("Work dinner shift at Cheesecake Factory", 16, 30, 210);
    ("End shift and clean up", 20, 0, 30);
    ("Hang out with Leonard and the guys", 20, 30, 90);
    ("Watch reality TV or relax", 22, 0, 60);
    ("Sleep", 23, 0, 600) ].

Definition aerospace_engineer (gen : nat -> string) : list Plan :=
  routine gen [
    ("Wake up to mom yelling", 7, 30, 15);
    ("Eat breakfast mom prepared", 7, 45, 30);
    ("Morning routine (using mom's bathroom)", 8, 15, 30);
    ("Drive to Caltech", 8, 45, 30);
    ("Work on NASA projects at Caltech", 9, 15, 165);
    ("Lunch at Caltech cafeteria - hit on women", 12, 0, 60);
    ("Continue engineering work at Caltech", 13, 0, 180);
    ("Leave Caltech", 16, 0, 30);
    ("Hang out with Raj", 16, 30, 90);
    ("Dinner at mom's house", 18, 0, 60);
    ("Comic store or video games with the guys", 19, 0, 120);
    ("Try online dating or work on pickup lines", 21, 0, 60);
    ("Go to sleep at mom's house", 22, 0, 540) ].

Definition astrophysicist (gen : nat -> string) : list Plan :=
  routine gen [
    ("Wake up", 7, 0, 30);
    ("Morning yoga and meditation", 7, 30, 30);
    ("Breakfast", 8, 0, 30);
    ("Drive to Caltech", 8, 30, 30);
    ("Research on planetary formation at Caltech", 9, 0, 180);
    ("Lunch at Caltech with Howard", 12, 0, 60);
    ("Continue astrophysics research at Caltech", 13, 0, 180);
    ("Leave Caltech", 16, 0, 30);
    ("Hang out with Howard", 16, 30, 90);
    ("Dinner", 18, 0, 60);
    ("Video games or comic store with friends", 19, 0, 120);
    ("Watch romantic comedies alone", 21, 0, 60);
    ("Sleep", 22, 0, 540) ].

Definition comic_book_store_owner (gen : nat -> string) : list Plan :=
  routine gen [
    ("Wake up alone in small apartment", 8, 0, 30);
    ("Contemplate existence while eating cereal", 8, 30, 30);
    ("Open the Comic Center of Pasadena", 9, 0, 30);
    ("Wait for customers at the Comic Store", 9, 30, 150);
    ("Eat sad lunch alone at the store", 12, 0, 30);
    ("Organize comics nobody will buy at Comic Store", 12, 30, 180);
    ("Hope someone comes in to the Comic Store", 15, 30, 90);
    ("New comic day prep at Comic Store", 17, 0, 60);
    ("Close store, count meager earnings", 18, 0, 30);
    ("Eat dinner alone", 18, 30, 60);
    ("Draw sketches that will never be sold", 19, 30, 90);
    ("Watch TV alone", 21, 0, 60);
    ("Sleep", 22, 0, 600) ].

Definition artist (gen : nat -> string) : list Plan :=
  routine gen [
    ("Wake up and morning routine", 7, 0, 60);
    ("Have breakfast", 8, 0, 30);
    ("Work on art projects at the gallery", 9, 0, 180);
    ("Take a break and have lunch", 12, 0, 60);
    ("Continue art work or meet with clients", 13, 0, 180);
    ("Take a walk for inspiration", 16, 0, 60);
    ("Have dinner", 18, 0, 60);
    ("Relax and socialize", 19, 0, 120);
    ("Prepare for bed", 21, 0, 60) ].

Definition bookstore_owner (gen : nat -> string) : list Plan :=
  routine gen [
    ("Wake up and morning routine", 6, 30, 60);
    ("Have breakfast and read", 7, 30, 45);
    ("Open the bookstore", 8, 30, 30);
    ("Manage store and help customers", 9, 0, 180);
    ("Have lunch", 12, 0, 60);
    ("Continue store operations", 13, 0, 240);
    ("Close store and inventory", 17, 0, 60);
    ("Have dinner", 18, 0, 60);
    ("Read or socialize", 19, 0, 120);
    ("Prepare for bed", 21, 0, 60) ].

Definition barista (gen : nat -> string) : list Plan :=
  routine gen [
    ("Wake up early", 5, 30, 60);
    ("Have breakfast", 6, 30, 30);
    ("Commute to cafe", 7, 0, 30);
    ("Open cafe and prepare", 7, 30, 30);
    ("Morning rush - serve customers", 8, 0, 180);
    ("Take a break", 11, 0, 30);
    ("Lunch service", 11, 30, 150);
    ("Afternoon shift", 14, 0, 180);
    ("End shift and clean up", 17, 0, 60);
    ("Have dinner and relax", 18, 0, 120);
    ("Socialize or personal time", 20, 0, 90);
    ("Prepare for bed", 21, 30, 60) ].

Definition getGenericRoutine (gen : nat -> string) : list Plan :=
  routine gen [
    ("Wake up and morning routine", 7, 0, 60);
    ("Have breakfast", 8, 0, 30);
    ("Work or activities", 9, 0, 180);
    ("Have lunch", 12, 0, 60);
    ("Continue activities", 13, 0, 240);
    ("Have dinner", 18, 0, 60);
    ("Evening relaxation", 19, 0, 120);
    ("Prepare for bed", 21, 0, 60) ].

(** The own properties of the plain object [DEFAULT_ROUTINES]. *)
Definition DEFAULT_ROUTINES : list (string * ((nat -> string) -> list Plan)) :=
  [ ("artist", artist); ("bookstore_owner", bookstore_owner); ("barista", barista) ].

(** What a call of [getDefaultRoutine] gives: a routine, or no routine at
    all. The second is the case of a key that [DEFAULT_ROUTINES] only
    inherits from [Object.prototype]: the member found there is truthy and
    is called in place of a routine. [DEFAULT_ROUTINES.constructor ()] is
    [Object ()] and returns a new empty object, on which the planner's
    [broadStrokes.forEach] then throws; [DEFAULT_ROUTINES.__proto__] is no
    function, and the call itself throws. [name] is the member called. *)
Inductive Outcome :=
| Routine (plans : list Plan)
| NotARoutine (name : string).

(** The key of the second stage: the lower-cased occupation with every
    run of white space replaced by an underscore. *)
Definition routineKey (occupation : string) : string :=
  JS.replaceWhitespace (JS.toLowerCase occupation) "_".

(** [getDefaultRoutine]: the occupation-keyed lookup. The second stage
    indexes [DEFAULT_ROUTINES] by [routineKey]. *)
Definition getDefaultRoutine (gen : nat -> string) (occupation : string) : Outcome :=
  let lower := JS.toLowerCase occupation in
  if JS.includes lower "theoretical physicist" then Routine (theoretical_physicist gen)
  else if JS.includes lower "experimental physicist" then Routine (experimental_physicist gen)
  else if JS.includes lower "waitress" then Routine (waitress gen)
  else if JS.includes lower "aerospace engineer" then Routine (aerospace_engineer gen)
  else if JS.includes lower "astrophysicist" then Routine (astrophysicist gen)
  else if JS.includes lower "comic" && JS.includes lower "store"
  then Routine (comic_book_store_owner gen)
  else
    let key := JS.replaceWhitespace lower "_" in
    match JS.objectGet key DEFAULT_ROUTINES with
    | JS.own make => Routine (make gen)
    | JS.inherited name => NotARoutine name
    | JS.undefined => Routine (getGenericRoutine gen)
    end.

(** [getDefaultRoutine] at the type [(occupation: string) => Plan[]] at
    which a planner holds it. Where the call gives no routine the planner
    cannot go on: the model of a character runs its planner only after
    [getDefaultRoutine] has given a routine (see
    [Character.initializeDailyPlan]), so that the empty list below is never
    used as a day's broad strokes. *)
Definition generator (gen : nat -> string) (occupation : string) : list Plan :=
  match getDefaultRoutine gen occupation with
  | Routine plans => plans
  | NotARoutine _ => []
  end.

End Routines.

(** ** TimeSystem *)

Module TimeSystem.

(** [GameTime]. The clock fields are integers: the model covers the
    whole-number speeds. *)
Record GameTime := {
  day : Z;
  hour : Z;
  minute : Z;
  speed : Z;
  isPaused : bool
}.

(** The events the clock publishes, with their payloads. *)
Inductive GameEvent :=
| TimeTick (time : GameTime) (delta : Z)
| TimeHourChanged (oldHour newHour day : Z)
| TimeDayChanged (oldDay newDay : Z)
| TimePaused (time : GameTime)
| TimeResumed (time : GameTime).

(** The clock state of the class; the interval timer that drives [tick]
    belongs to the host. Every operation returns the new state and the
    events it published on the bus, in order. *)
Record TimeSystem := { time : GameTime }.

Definition DEFAULT_TIME : GameTime :=
  {| day := 1; hour := 8; minute := 0; speed := 1; isPaused := false |}.

Definition getTime (ts : TimeSystem) : GameTime := time ts.

(** The events of [for (let i = 0; i < hoursToAdd; i++)]. *)
Definition hourEvents (oldTime : GameTime) (hoursToAdd : Z) : list GameEvent :=
  map (fun i =>
         let newHour := Z.rem (hour oldTime + i + 1) 24 in
         TimeHourChanged (Z.rem (newHour - 1 + 24) 24) newHour
           (day oldTime + JS.floorDiv (hour oldTime + i + 1) 24))
      (seqZ 0 hoursToAdd).

(** The events of [for (let i = 0; i < daysToAdd; i++)]. *)
Definition dayEvents (oldTime : GameTime) (daysToAdd : Z) : list GameEvent :=
  map (fun i => TimeDayChanged (day oldTime + i) (day oldTime + i + 1))
      (seqZ 0 daysToAdd).

Definition tick (ts : TimeSystem) : TimeSystem * list GameEvent :=
  if isPaused (time ts) then (ts, [])
  else
    let oldTime := time ts in
    let minute1 := minute oldTime + speed oldTime in
    let '(minute2, hour2, hourChanged) :=
      if minute1 >=? 60 then
        let hoursToAdd := JS.floorDiv minute1 60 in
        (Z.rem minute1 60, hour oldTime + hoursToAdd, hourEvents oldTime hoursToAdd)
      else (minute1, hour oldTime, []) in
    let '(hour3, day3, dayChanged) :=
      if hour2 >=? 24 then
        let daysToAdd := JS.floorDiv hour2 24 in
        (Z.rem hour2 24, day oldTime + daysToAdd, dayEvents oldTime daysToAdd)
      else (hour2, day oldTime, []) in
    let time' :=
      {| day := day3; hour := hour3; minute := minute2;
         speed := speed oldTime; isPaused := isPaused oldTime |} in
    ({| time := time' |},
     hourChanged ++ dayChanged ++ [TimeTick time' (speed time')]).

Definition pause (ts : TimeSystem) : TimeSystem * list GameEvent :=
  if isPaused (time ts) then (ts, [])
  else
    let time' :=
      {| day := day (time ts); hour := hour (time ts); minute := minute (time ts);
         speed := speed (time ts); isPaused := true |} in
    ({| time := time' |}, [TimePaused time']).

Definition resume (ts : TimeSystem) : TimeSystem * list GameEvent :=
  if isPaused (time ts) then
    let time' :=
      {| day := day (time ts); hour := hour (time ts); minute := minute (time ts);
         speed := speed (time ts); isPaused := false |} in
    ({| time := time' |}, [TimeResumed time'])
  else (ts, []).

Definition serialize (ts : TimeSystem) : GameTime := time ts.

Definition deserialize (saved : GameTime) : TimeSystem := {| time := saved |}.

(** [n] consecutive calls of [tick]; the events of all the calls, oldest
    first. *)
Fixpoint ticks (n : nat) (ts : TimeSystem) : TimeSystem * list GameEvent :=
  match n with
  | O => (ts, [])
  | S n' =>
      let '(ts1, events1) := tick ts in
      let '(ts2, events2) := ticks n' ts1 in
      (ts2, events1 ++ events2)
  end.

Definition isTick (e : GameEvent) : bool :=
  match e with TimeTick _ _ => true | _ => false end.
Definition isHourChanged (e : GameEvent) : bool :=
  match e with TimeHourChanged _ _ _ => true | _ => false end.
Definition isDayChanged (e : GameEvent) : bool :=
  match e with TimeDayChanged _ _ => true | _ => false end.

(** [togglePause]. *)
Definition togglePause (ts : TimeSystem) : TimeSystem * list GameEvent :=
  if isPaused (time ts) then resume ts else pause ts.

(** [getTotalMinutes]: the minutes elapsed since day 1, 00:00. *)
Definition getTotalMinutes (ts : TimeSystem) : Z :=
  (day (time ts) - 1) * 24 * 60 + hour (time ts) * 60 + minute (time ts).

Definition isWithinRange (ts : TimeSystem) (other : GameTime) (rangeMinutes : Z) : bool :=
  let thisTotal := getTotalMinutes ts in
  let otherTotal := (day other - 1) * 24 * 60 + hour other * 60 + minute other in
  Z.abs (thisTotal - otherTotal) <=? rangeMinutes.

End TimeSystem.

(** ** MemoryStream *)

Module MemoryStream.

Inductive MemoryType := observation | reflection | plan | conversation | command.

(** [Memory]; the optional [embedding] field is never written by the core
    and is left out. *)
Record Memory := {
  id : string;
  content : string;
  createdAt : Z;
  lastAccessedAt : Z;
  importance : Q;
  type : MemoryType;
  pointers : option (list string);
  sourceCharacterId : option string;
  diffusedTo : option (list string);
  originalMemoryId : option string
}.

Record DiffusionEvent := {
  eventId : string;
  eventOriginalMemoryId : string;
  originalContent : string;
  eventSourceCharacterId : string;
  targetCharacterId : string;
  timestamp : Z;
  context : string
}.

(** The [options] argument of [createMemory]. *)
Record MemoryOptions := {
  optImportance : option Q;
  optPointers : option (list string);
  optSourceCharacterId : option string;
  optOriginalMemoryId : option string
}.

Module Weights.
Record RetrievalWeights := { recency : float; importance : float; relevance : float }.
End Weights.

Definition REFLECTION_THRESHOLD : Q := 150%Q.

#[local] Set Warnings "-inexact-float".
Definition RECENCY_DECAY : float := 0.995%float.
#[local] Set Warnings "inexact-float".

Definition highImportanceKeywords : list string :=
  [ "love"; "hate"; "angry"; "happy"; "sad"; "excited";
    "important"; "decided"; "learned"; "realized"; "discovered";
    "party"; "event"; "meeting"; "election"; "birthday";
    "relationship"; "friend"; "enemy"; "crush" ].

Definition lowImportanceKeywords : list string :=
  [ "walked"; "standing"; "sitting"; "idle"; "waiting";
    "routine"; "usual"; "normal"; "everyday" ].

Definition estimateImportance (content : string) : Q :=
  let lowerContent := JS.toLowerCase content in
  let score0 : Q := 5%Q in
  let score1 :=
    fold_left (fun score keyword =>
                 if JS.includes lowerContent keyword then (score + 1)%Q else score)
              highImportanceKeywords score0 in
  let score2 :=
    fold_left (fun score keyword =>
                 if JS.includes lowerContent keyword then (score - (1 # 2))%Q else score)
              lowImportanceKeywords score1 in
  inject_Z (Z.max 1 (Z.min 10 (JS.round score2))).

(** [options?.importance ?? estimateImportance (content)]: a supplied
    importance is stored as it is. *)
Definition createMemory (now : Z) (newId : string) (content : string)
    (type : MemoryType) (options : option MemoryOptions) : Memory :=
  {| id := newId;
     content := content;
     createdAt := now;
     lastAccessedAt := now;
     importance :=
       match options with
       | Some {| optImportance := Some supplied |} => supplied
       | _ => estimateImportance content
       end;
     type := type;
     pointers := match options with Some o => optPointers o | None => None end;
     sourceCharacterId :=
       match options with Some o => optSourceCharacterId o | None => None end;
     diffusedTo := Some [];
     originalMemoryId :=
       match options with Some o => optOriginalMemoryId o | None => None end |}.

Record MemoryStream := {
  memories : list Memory;
  importanceAccumulator : Q;
  diffusionLog : list DiffusionEvent
}.

Definition newMemoryStream (initialMemories : list Memory) : MemoryStream :=
  {| memories := initialMemories; importanceAccumulator := 0%Q; diffusionLog := [] |}.

Definition add (stream : MemoryStream) (memory : Memory) : MemoryStream :=
  {| memories := memories stream ++ [memory];
     importanceAccumulator := (importanceAccumulator stream + importance memory)%Q;
     diffusionLog := diffusionLog stream |}.

Definition addNew (now : Z) (newId : string) (stream : MemoryStream)
    (content : string) (type : MemoryType) (options : option MemoryOptions)
    : Memory * MemoryStream :=
  let memory := createMemory now newId content type options in
  (memory, add stream memory).

Definition getAll (stream : MemoryStream) : list Memory := memories stream.

Definition shouldReflect (stream : MemoryStream) : bool :=
  Qle_bool REFLECTION_THRESHOLD (importanceAccumulator stream).

Definition resetImportanceAccumulator (stream : MemoryStream) : MemoryStream :=
  {| memories := memories stream;
     importanceAccumulator := 0%Q;
     diffusionLog := diffusionLog stream |}.

(** The words of more than three characters of a text, as a set. *)
Definition longWords (text : string) : gset string :=
  list_to_set
    (List.filter (fun w => (3 <? String.length w)%nat)
       (JS.splitWhitespace (JS.toLowerCase text))).

Section Scoring.

(** [Math.pow] and [Math.sqrt]: any functions on the doubles. *)
Variable Math_pow : float -> float -> float.
Variable Math_sqrt : float -> float.

Definition calculateRecency (memory : Memory) (gameHoursPassed : float) : float :=
  Math_pow RECENCY_DECAY gameHoursPassed.

Definition calculateRelevance (memory : Memory) (query : string) : float :=
  let memoryWords := longWords (content memory) in
  let queryWords := longWords query in
  if ((size memoryWords =? 0) || (size queryWords =? 0))%nat then 0%float
  else
    let overlap := size (filter (fun w => w ∈ memoryWords) queryWords) in
    (JS.ofZ (Z.of_nat overlap)
     / Math_sqrt (JS.ofZ (Z.of_nat (size memoryWords * size queryWords))))%float.

(** [normalizeScores]; the class only calls it on the scores of a
    non-empty stream. [max === min] is the comparison of doubles: it fails
    when the scores are [NaN]. *)
Definition normalizeScores (scores : list float) : list float :=
  match scores with
  | [] => []
  | first :: rest =>
      let min := JS.mathMin first rest in
      let max := JS.mathMax first rest in
      if (max =? min)%float then map (fun _ => 1%float) scores
      else map (fun s => ((s - min) / (max - min))%float) scores
  end.

(** An entry of the [indexed] array: the memory and its score; [slot] is
    the position of that memory object in the stream. *)
Record Scored := { memory : Memory; score : float; slot : nat }.

Definition touch (now : Z) (m : Memory) : Memory :=
  {| id := id m;
     content := content m;
     createdAt := createdAt m;
     lastAccessedAt := now;
     importance := importance m;
     type := type m;
     pointers := pointers m;
     sourceCharacterId := sourceCharacterId m;
     diffusedTo := diffusedTo m;
     originalMemoryId := originalMemoryId m |}.

(** [retrieve]. [clock k] is the clock reading taken for the [k]-th
    returned memory. The returned memories are the stream's own objects:
    the stream holds the refreshed [lastAccessedAt] as well. The comparator
    [b.score - a.score] keeps two entries in their order unless the
    difference is greater than 0: a difference that is [NaN] counts as
    0. *)
Definition retrieve (clock : nat -> Z) (stream : MemoryStream) (query : string)
    (gameHoursPassed : float) (weights : Weights.RetrievalWeights) (topK : Z)
    : list Memory * MemoryStream :=
  match memories stream with
  | [] => ([], stream)
  | _ :: _ =>
      let recencyScores :=
        map (fun m => calculateRecency m gameHoursPassed) (memories stream) in
      let importanceScores :=
        map (fun m => (JS.toDouble (importance m) / 10)%float) (memories stream) in
      let relevanceScores :=
        map (fun m => calculateRelevance m query) (memories stream) in
      let normRecency := normalizeScores recencyScores in
      let normImportance := normalizeScores importanceScores in
      let normRelevance := normalizeScores relevanceScores in
      let finalScores :=
        imap (fun i _ =>
                (Weights.recency weights * nth i normRecency 0
                 + Weights.importance weights * nth i normImportance 0
                 + Weights.relevance weights * nth i normRelevance 0)%float)
             (memories stream) in
      let indexed :=
        imap (fun i m => {| memory := m; score := nth i finalScores 0%float; slot := i |})
             (memories stream) in
      let sorted := JS.sort (fun a b => negb (0 <? score b - score a)%float) indexed in
      let results :=
        imap (fun k item => (slot item, touch (clock k) (memory item)))
             (JS.slice0 sorted topK) in
      (map snd results,
       {| memories :=
            fold_left (fun ms '(i, m) => <[i := m]> ms) results (memories stream);
          importanceAccumulator := importanceAccumulator stream;
          diffusionLog := diffusionLog stream |})
  end.

End Scoring.

Definition serialize (stream : MemoryStream) : MemoryStream := stream.

Definition deserialize (data : MemoryStream) : MemoryStream :=
  {| memories := memories data;
     importanceAccumulator := importanceAccumulator data;
     diffusionLog := diffusionLog data |}.

(** [getRecent]: [this.memories.slice (-count)]. *)
Definition getRecent (stream : MemoryStream) (count : Z) : list Memory :=
  JS.sliceFrom (memories stream) (- count).

Definition getImportanceAccumulator (stream : MemoryStream) : Q :=
  importanceAccumulator stream.

Definition socialKeywords : list string :=
  [ "said"; "told"; "heard"; "party"; "event"; "news";
    "happened"; "discovered"; "learned"; "relationship";
    "dating"; "broke up"; "angry"; "happy"; "excited" ].

(** The filter of [findShareable]. *)
Definition shareable (targetCharacterId : string) (m : Memory) : bool :=
  if negb (Qle_bool 5 (importance m)) then false
  else if match diffusedTo m with
          | Some targets => existsb (String.eqb targetCharacterId) targets
          | None => false
          end then false
  else
    let lowerContent := JS.toLowerCase (content m) in
    let hasSocialContent := JS.includesAny lowerContent socialKeywords in
    hasSocialContent || Qle_bool 7 (importance m).

(** [findShareable]: the filtered copy is sorted, the stream is not. *)
Definition findShareable (stream : MemoryStream) (targetCharacterId : string) (topK : Z)
    : list Memory :=
  JS.slice0
    (JS.sort (fun a b => Qle_bool (importance b - importance a)%Q 0%Q)
       (List.filter (shareable targetCharacterId) (memories stream)))
    topK.

(** [knowsInformation]. *)
Definition knowsInformation (stream : MemoryStream) (informationContent : string) : bool :=
  let lowerContent := JS.toLowerCase informationContent in
  existsb
    (fun m =>
       let memContent := JS.toLowerCase (content m) in
       let contentWords : gset string :=
         list_to_set (List.filter (fun w => (3 <? String.length w)%nat)
                        (JS.splitWhitespace lowerContent)) in
       let memWords :=
         List.filter (fun w => (3 <? String.length w)%nat) (JS.splitWhitespace memContent) in
       let overlap :=
         length (List.filter (fun w => bool_decide (w ∈ contentWords)) memWords) in
       (3 <=? overlap)%nat || JS.includes memContent (JS.stringPrefix lowerContent 30))
    (memories stream).

(** [originalMemory.diffusedTo.push (targetCharacterId)], on an empty list
    when the memory had none. *)
Definition markDiffused (targetCharacterId : string) (m : Memory) : Memory :=
  {| id := id m;
     content := content m;
     createdAt := createdAt m;
     lastAccessedAt := lastAccessedAt m;
     importance := importance m;
     type := type m;
     pointers := pointers m;
     sourceCharacterId := sourceCharacterId m;
     diffusedTo := Some (default [] (diffusedTo m) ++ [targetCharacterId]);
     originalMemoryId := originalMemoryId m |}.

(** [recordDiffusion] of a memory that the stream holds: the object
    passed is the one at [slot], as [getAll], [retrieve] and
    [findShareable] hand it out, and the mark it gets shows in the stream.
    [None] stands for a slot that holds no memory. [newId] is the generated
    id, [now] the clock reading of the time stamp. *)
Definition recordDiffusion (now : Z) (newId : string) (stream : MemoryStream) (slot : nat)
    (sourceCharacterId targetCharacterId context : string)
    : option (DiffusionEvent * MemoryStream) :=
  match memories stream !! slot with
  | None => None
  | Some originalMemory =>
      let event :=
        {| eventId := newId;
           eventOriginalMemoryId := id originalMemory;
           originalContent := content originalMemory;
           eventSourceCharacterId := sourceCharacterId;
           targetCharacterId := targetCharacterId;
           timestamp := now;
           context := context |} in
      Some (event,
            {| memories := alter (markDiffused targetCharacterId) slot (memories stream);
               importanceAccumulator := importanceAccumulator stream;
               diffusionLog := diffusionLog stream ++ [event] |})
  end.

Definition getDiffusionLog (stream : MemoryStream) : list DiffusionEvent :=
  diffusionLog stream.

End MemoryStream.

(** ** ConversationManager *)

Module ConversationManager.

Record ConversationMessage := {
  speakerId : string;
  content : string;
  timestamp : Z
}.

Record Conversation := {
  id : string;
  participants : list string;
  messages : list ConversationMessage;
  startTime : Z;
  endTime : option Z;
  location : Types.Position
}.

Inductive ConversationEvent :=
| ConversationStarted (conversationId : string) (participants : list string)
    (location : Types.Position)
| ConversationMessagePosted (conversationId : string) (message : ConversationMessage)
| ConversationEnded (conversationId : string) (participants : list string)
    (messageCount : nat).

(** The manager. The conversation objects live in [objects], at the address
    that is their position; the registry maps an id to the address of its
    object and [activeConversation] is the address of the active one, so
    that both see one object. *)
Record ConversationManager := {
  objects : list Conversation;
  conversations : list (string * nat);
  activeConversation : option nat
}.

Definition newConversationManager : ConversationManager :=
  {| objects := []; conversations := []; activeConversation := None |}.

Definition start (now : Z) (cm : ConversationManager) (participantIds : list string)
    (location : Types.Position) : Conversation * ConversationManager * list ConversationEvent :=
  let conversation :=
    {| id := "conv-" +:+ JS.numberToString now;
       participants := participantIds;
       messages := [];
       startTime := now;
       endTime := None;
       location := location |} in
  let address := length (objects cm) in
  (conversation,
   {| objects := objects cm ++ [conversation];
      conversations := JS.mapSet (id conversation) address (conversations cm);
      activeConversation := Some address |},
   [ConversationStarted (id conversation) participantIds location]).

Definition pushMessage (message : ConversationMessage) (c : Conversation) : Conversation :=
  {| id := id c;
     participants := participants c;
     messages := messages c ++ [message];
     startTime := startTime c;
     endTime := endTime c;
     location := location c |}.

Definition addMessage (now : Z) (cm : ConversationManager) (conversationId : string)
    (speakerId content : string)
    : option ConversationMessage * ConversationManager * list ConversationEvent :=
  match JS.mapGet conversationId (conversations cm) with
  | None => (None, cm, [])
  | Some address =>
      let message := {| speakerId := speakerId; content := content; timestamp := now |} in
      (Some message,
       {| objects := alter (pushMessage message) address (objects cm);
          conversations := conversations cm;
          activeConversation := activeConversation cm |},
       [ConversationMessagePosted conversationId message])
  end.

Definition stampEnd (now : Z) (c : Conversation) : Conversation :=
  {| id := id c;
     participants := participants c;
     messages := messages c;
     startTime := startTime c;
     endTime := Some now;
     location := location c |}.

(** [end]. *)
Definition end_ (now : Z) (cm : ConversationManager) (conversationId : string)
    : ConversationManager * list ConversationEvent :=
  match JS.mapGet conversationId (conversations cm) with
  | None => (cm, [])
  | Some address =>
      match objects cm !! address with
      | None => (cm, [])
      | Some conversation =>
          ({| objects := alter (stampEnd now) address (objects cm);
              conversations := conversations cm;
              activeConversation :=
                match activeConversation cm with
                | Some active =>
                    match objects cm !! active with
                    | Some a =>
                        if String.eqb (id a) conversationId then None else Some active
                    | None => Some active
                    end
                | None => None
                end |},
           [ConversationEnded conversationId (participants conversation)
              (length (messages conversation))])
      end
  end.

Definition get (cm : ConversationManager) (conversationId : string) : option Conversation :=
  match JS.mapGet conversationId (conversations cm) with
  | None => None
  | Some address => objects cm !! address
  end.

Definition getActive (cm : ConversationManager) : option Conversation :=
  match activeConversation cm with
  | None => None
  | Some address => objects cm !! address
  end.

Definition getAll (cm : ConversationManager) : list Conversation :=
  omap (fun address => objects cm !! address) (JS.mapValues (conversations cm)).

Definition serialize (cm : ConversationManager) : list Conversation := getAll cm.

(** [!conv.endTime]: no end time, or the end time 0. *)
Definition notEnded (c : Conversation) : bool :=
  match endTime c with
  | None => true
  | Some t => t =? 0
  end.

(** [deserialize]: the objects of [data] become the manager's objects. *)
Definition deserialize (data : list Conversation) : ConversationManager :=
  let indexed := imap (fun address conv => (address, conv)) data in
  {| objects := data;
     conversations :=
       fold_left (fun m '(address, conv) => JS.mapSet (id conv) address m) indexed [];
     activeConversation :=
       fold_left (fun active '(address, conv) =>
                    if notEnded conv then Some address else active) indexed None |}.

(** [ids.includes (id)]. *)
Definition includesId (ids : list string) (id : string) : bool :=
  existsb (String.eqb id) ids.

(** [getActiveConversations]: those with no end time. *)
Definition getActiveConversations (cm : ConversationManager) : list Conversation :=
  List.filter notEnded (getAll cm).

Definition areInConversation (cm : ConversationManager) (characterId1 characterId2 : string)
    : bool :=
  existsb (fun c => includesId (participants c) characterId1
                    && includesId (participants c) characterId2)
          (getActiveConversations cm).

Definition getConversationBetween (cm : ConversationManager)
    (characterId1 characterId2 : string) : option Conversation :=
  List.find (fun c => includesId (participants c) characterId1
                      && includesId (participants c) characterId2)
            (getActiveConversations cm).

Definition farewellKeywords : list string :=
  [ "goodbye"; "bye"; "see you"; "take care"; "gotta go";
    "have to go"; "need to go"; "later"; "farewell"; "nice talking" ].

(** [shouldEnd]: an unknown conversation, the turn limit, or a farewell
    in the last message. *)
Definition shouldEnd (cm : ConversationManager) (conversationId : string) : bool :=
  match get cm conversationId with
  | None => true
  | Some conversation =>
      if (10 <=? length (messages conversation))%nat then true
      else
        match last (messages conversation) with
        | Some lastMessage =>
            JS.includesAny (JS.toLowerCase (content lastMessage)) farewellKeywords
        | None => false
        end
  end.

End ConversationManager.

(** ** GameMap *)

Module GameMap.
Import Types.

Inductive TileType :=
| grass | path | water | building | floor | wall | door | tree | furniture.

Definition tileEqb (a b : TileType) : bool :=
  match a, b with
  | grass, grass | path, path | water, water | building, building | floor, floor
  | wall, wall | door, door | tree, tree | furniture, furniture => true
  | _, _ => false
  end.

Record LocationBounds := { minX : Z; maxX : Z; minY : Z; maxY : Z }.

Record GameMap := {
  width : Z;
  height : Z;
  tiles : list (list TileType);
  locationBounds : list (string * LocationBounds)
}.

(** [this.tiles[y]?.[x] ?? null] inside the bounds. *)
Definition getTile (m : GameMap) (x y : Z) : option TileType :=
  if (x <? 0) || (x >=? width m) || (y <? 0) || (y >=? height m) then None
  else
    match tiles m !! Z.to_nat y with
    | Some row => row !! Z.to_nat x
    | None => None
    end.

Definition isValidPosition (m : GameMap) (x y : Z) : bool :=
  (x >=? 0) && (x <? width m) && (y >=? 0) && (y <? height m).

Definition walkableTiles : list TileType := [grass; path; floor; door].

Definition isWalkable (m : GameMap) (x y : Z) : bool :=
  match getTile m x y with
  | None => false
  | Some tile => existsb (tileEqb tile) walkableTiles
  end.

Definition getNewPosition (m : GameMap) (position : Position) (direction : Direction)
    : Position :=
  match direction with
  | up => {| x := x position; y := Z.max 0 (y position - 1) |}
  | down => {| x := x position; y := Z.min (height m - 1) (y position + 1) |}
  | left => {| x := Z.max 0 (x position - 1); y := y position |}
  | right => {| x := Z.min (width m - 1) (x position + 1); y := y position |}
  end.

Definition getDistance (from to : Position) : Z :=
  Z.abs (x to - x from) + Z.abs (y to - y from).

(** *** findPath *)

(** The key of a cell in the closed set and in [cameFrom]. The source
    writes it as the string ["x,y"]; on integer coordinates that string
    and the pair determine each other. *)
Definition key (p : Position) : Z * Z := (x p, y p).

Record Node := {
  position : Position;
  g : Z;
  f : Z;
  parent : option Position
}.

Definition heuristic (a b : Position) : Z :=
  Z.abs (x a - x b) + Z.abs (y a - y b).

Definition samePosition (neighbor : Position) (n : Node) : bool :=
  (x (position n) =? x neighbor) && (y (position n) =? y neighbor).

(** The body of [for (const dir of directions)], on the open set and
    the [cameFrom] map. *)
Definition visitNeighbor (m : GameMap) (occupied : gset (Z * Z)) (to : Position)
    (closedSet : gset (Z * Z)) (current : Node)
    (state : list Node * gmap (Z * Z) Position) (dir : Direction)
    : list Node * gmap (Z * Z) Position :=
  let '(openSet, cameFrom) := state in
  let neighbor := getNewPosition m (position current) dir in
  let neighborKey := key neighbor in
  if decide (neighborKey ∈ closedSet) then state
  else if negb (isWalkable m (x neighbor) (y neighbor)) then state
  else if decide (neighborKey ∈ occupied) then state
  else
    let g' := g current + 1 in
    let f' := g' + heuristic neighbor to in
    match JS.findIndex (samePosition neighbor) openSet with
    | None =>
        (openSet ++ [{| position := neighbor; g := g'; f := f';
                        parent := Some (position current) |}],
         <[neighborKey := position current]> cameFrom)
    | Some existingIndex =>
        match openSet !! existingIndex with
        | Some existing =>
            if g' <? g existing then
              (<[existingIndex := {| position := position existing; g := g'; f := f';
                                     parent := parent existing |}]> openSet,
               <[neighborKey := position current]> cameFrom)
            else state
        | None => state
        end
    end.

(** The path reconstruction loop: [path.unshift (currentPos)], then follow
    [cameFrom]. *)
Fixpoint reconstructPath (fuel : nat) (cameFrom : gmap (Z * Z) Position)
    (currentPos : Position) (path : list Position) : option (list Position) :=
  match fuel with
  | O => None
  | S fuel' =>
      match cameFrom !! key currentPos with
      | None => Some (currentPos :: path)
      | Some previous => reconstructPath fuel' cameFrom previous (currentPos :: path)
      end
  end.

(** The [while (openSet.length > 0)] loop; [bound] is the fuel handed to
    the reconstruction. *)
Fixpoint searchLoop (fuel bound : nat) (m : GameMap) (occupied : gset (Z * Z))
    (to : Position) (openSet : list Node) (closedSet : gset (Z * Z))
    (cameFrom : gmap (Z * Z) Position) : option (list Position) :=
  match fuel with
  | O => None
  | S fuel' =>
      match JS.sort (fun a b => f a - f b <=? 0) openSet with
      | [] => Some []
      | current :: rest =>
          if (x (position current) =? x to) && (y (position current) =? y to)
          then reconstructPath bound cameFrom (position current) []
          else
            let closedSet' := {[ key (position current) ]} ∪ closedSet in
            let '(openSet', cameFrom') :=
              fold_left (visitNeighbor m occupied to closedSet' current)
                        [up; down; left; right] (rest, cameFrom) in
            searchLoop fuel' bound m occupied to openSet' closedSet' cameFrom'
      end
  end.

(** Every iteration closes a cell that was not closed before, the start or
    a cell of the grid: two more iterations than the grid has cells are
    never used up. *)
Definition searchFuel (m : GameMap) : nat :=
  S (S (Z.to_nat (width m) * Z.to_nat (height m))).

Definition findPath (m : GameMap) (from to : Position) (occupiedPositions : list Position)
    : option (list Position) :=
  let occupied : gset (Z * Z) := list_to_set (map key occupiedPositions) in
  searchLoop (searchFuel m) (searchFuel m) m occupied to
    [{| position := from; g := 0; f := heuristic from to; parent := None |}] ∅ ∅.

Definition serialize (m : GameMap) : GameMap := m.

Definition createEmpty (width height : Z) (defaultTile : TileType) : GameMap :=
  {| width := width;
     height := height;
     tiles := replicate (Z.to_nat height) (replicate (Z.to_nat width) defaultTile);
     locationBounds := [] |}.

(** [getDirectionTowards]: along the axis of the larger difference, the
    vertical one on a tie; [None] when the two positions are the same. *)
Definition getDirectionTowards (from to : Position) : option Direction :=
  let dx := x to - x from in
  let dy := y to - y from in
  if Z.abs dx >? Z.abs dy then Some (if dx >? 0 then right else left)
  else if negb (dy =? 0) then Some (if dy >? 0 then down else up)
  else None.

(** The test on [bounds] that the location queries share. *)
Definition within (bounds : LocationBounds) (position : Position) : bool :=
  (x position >=? minX bounds) && (x position <=? maxX bounds)
  && (y position >=? minY bounds) && (y position <=? maxY bounds).

(** [getLocationFromPosition]: [locationBounds] lists the entries in the
    order in which [Object.entries] enumerates them. *)
Definition getLocationFromPosition (m : GameMap) (position : Position) : string :=
  match List.find (fun entry => within (snd entry) position) (locationBounds m) with
  | Some (name, _) => name
  | None => "Outside"
  end.

(** What [getLocationCenter] returns: a position; or [null]; or, for a
    name that [locationBounds] only inherits from [Object.prototype], the
    object [{ x: NaN, y: NaN }], the member found there being truthy and
    without [minX], [maxX], [minY] and [maxY]. *)
Inductive Center :=
| centerAt (position : Position)
| centerNaN.

Definition getLocationCenter (m : GameMap) (locationName : string) : option Center :=
  match JS.objectGet locationName (locationBounds m) with
  | JS.undefined => None
  | JS.inherited _ => Some centerNaN
  | JS.own bounds =>
      Some (centerAt {| x := JS.floorDiv (minX bounds + maxX bounds) 2;
                        y := JS.floorDiv (minY bounds + maxY bounds) 2 |})
  end.

(** [getPositionsInLocation]: the two nested [for] loops, rows outside. *)
Definition getPositionsInLocation (m : GameMap) (locationName : string) : list Position :=
  match JS.mapGet locationName (locationBounds m) with
  | None => []
  | Some bounds =>
      flat_map (fun y => List.map (fun x => {| x := x; y := y |})
                           (seqZ (minX bounds) (maxX bounds - minX bounds + 1)))
               (seqZ (minY bounds) (maxY bounds - minY bounds + 1))
  end.

(** [getValidMoves]. *)
Definition getValidMoves (m : GameMap) (position : Position)
    (occupiedPositions : list Position) : list Direction :=
  let occupied : gset (Z * Z) := list_to_set (List.map key occupiedPositions) in
  List.filter
    (fun dir =>
       let newPos := getNewPosition m position dir in
       isWalkable m (x newPos) (y newPos)
       && negb (bool_decide (key newPos ∈ occupied))
       && (negb (x newPos =? x position) || negb (y newPos =? y position)))
    [up; down; left; right].

End GameMap.

(** ** The host: clock, id generator, random numbers *)

Module Host.

(** What the host answers: the [k]-th reading of [Date.now ()], the [k]-th
    generated id (each one built from a clock reading and a random suffix),
    the [k]-th result of a bare [Math.random ()]. *)
Record Oracle := {
  clock : nat -> Z;
  ids : nat -> string;
  randoms : nat -> Q
}.

(** How many answers of each kind have been consumed. *)
Record Cursor := { clockReads : nat; idsDrawn : nat; randomsDrawn : nat }.

Definition M (A : Type) : Type := Oracle -> Cursor -> A * Cursor.

Definition ret {A} (a : A) : M A := fun _ c => (a, c).

Definition bind {A B} (ma : M A) (k : A -> M B) : M B :=
  fun o c => let '(a, c') := ma o c in k a o c'.

Definition now : M Z :=
  fun o c =>
    (clock o (clockReads c),
     {| clockReads := S (clockReads c); idsDrawn := idsDrawn c;
        randomsDrawn := randomsDrawn c |}).

Definition freshId : M string :=
  fun o c =>
    (ids o (idsDrawn c),
     {| clockReads := clockReads c; idsDrawn := S (idsDrawn c);
        randomsDrawn := randomsDrawn c |}).

Definition random : M Q :=
  fun o c =>
    (randoms o (randomsDrawn c),
     {| clockReads := clockReads c; idsDrawn := idsDrawn c;
        randomsDrawn := S (randomsDrawn c) |}).

(** The ids still to come, for a callee that draws several of them. *)
Definition idSupply : M (nat -> string) :=
  fun o c => (fun i => ids o (idsDrawn c + i)%nat, c).

Definition skipIds (n : nat) : M unit :=
  fun _ c =>
    (tt, {| clockReads := clockReads c; idsDrawn := (idsDrawn c + n)%nat;
            randomsDrawn := randomsDrawn c |}).

(** [l.map (x => f (x))] and [l.forEach] with host calls, left to right. *)
Fixpoint mapM {A B} (f : A -> M B) (l : list A) : M (list B) :=
  match l with
  | [] => ret []
  | a :: rest => bind (f a) (fun b => bind (mapM f rest) (fun bs => ret (b :: bs)))
  end.

Fixpoint foldM {A S} (f : S -> A -> M S) (l : list A) (s : S) : M S :=
  match l with
  | [] => ret s
  | a :: rest => bind (f s a) (foldM f rest)
  end.

Definition start : Cursor := {| clockReads := 0; idsDrawn := 0; randomsDrawn := 0 |}.

End Host.

Notation "'let*' x ':=' c1 'in' c2" := (Host.bind c1 (fun x => c2))
  (at level 10, x pattern, c1 at level 100, c2 at level 200).

(** ** Character *)

Module Character.

(** The appearance descriptor: stored, never interpreted. *)
Record CharacterSprite := {
  idle : Types.Direction -> list (list Z);
  walk : Types.Direction -> list (list (list Z))
}.

Record Relationship := {
  characterId : string;
  description : string;
  lastInteraction : Q;
  sentiment : Q
}.

Record UserCommand := {
  commandId : string;
  command : string;
  issuedAt : Z;
  processedAt : option Z;
  interpretation : option string;
  plannedActions : option (list (string * string * string))
}.

Record CharacterData := {
  id : string;
  name : string;
  age : Z;
  position : Types.Position;
  color : string;
  sprite : CharacterSprite;
  direction : Types.Direction;
  isMoving : bool;
  personality : string;
  occupation : string;
  lifestyle : string;
  memoryStream : list MemoryStream.Memory;
  currentPlan : option Planner.DailyPlan;
  currentAction : string;
  currentActionEmoji : string;
  relationships : list (string * Relationship);
  lastReflectionTime : Z;
  importanceAccumulator : Q;
  pendingCommands : list UserCommand
}.

Record InitialMemory := {
  initialContent : string;
  initialType : MemoryStream.MemoryType
}.

Record InitialRelationship := {
  initialDescription : string;
  initialSentiment : Q
}.

Record CharacterTemplate := {
  templateId : string;
  templateName : string;
  templateAge : Z;
  templateColor : string;
  templatePersonality : string;
  templateOccupation : string;
  templateLifestyle : string;
  startPosition : Types.Position;
  initialMemories : list InitialMemory;
  initialRelationships : list (string * InitialRelationship)
}.

(** The [Character] object: its data, and the memory stream and the
    planner that it owns. *)
Record Character := {
  data : CharacterData;
  stream : MemoryStream.MemoryStream;
  planner : Planner.Planner
}.

Definition withPlan (d : CharacterData) (plan : option Planner.DailyPlan) : CharacterData :=
  {| id := id d; name := name d; age := age d; position := position d;
     color := color d; sprite := sprite d; direction := direction d;
     isMoving := isMoving d; personality := personality d;
     occupation := occupation d; lifestyle := lifestyle d;
     memoryStream := memoryStream d;
     currentPlan := plan;
     currentAction := currentAction d; currentActionEmoji := currentActionEmoji d;
     relationships := relationships d; lastReflectionTime := lastReflectionTime d;
     importanceAccumulator := importanceAccumulator d;
     pendingCommands := pendingCommands d |}.

Definition withMemories (d : CharacterData) (memories : list MemoryStream.Memory)
    : CharacterData :=
  {| id := id d; name := name d; age := age d; position := position d;
     color := color d; sprite := sprite d; direction := direction d;
     isMoving := isMoving d; personality := personality d;
     occupation := occupation d; lifestyle := lifestyle d;
     memoryStream := memories;
     currentPlan := currentPlan d;
     currentAction := currentAction d; currentActionEmoji := currentActionEmoji d;
     relationships := relationships d; lastReflectionTime := lastReflectionTime d;
     importanceAccumulator := importanceAccumulator d;
     pendingCommands := pendingCommands d |}.

(** The constructor. *)
Definition newCharacter (d : CharacterData) : Character :=
  let fresh := Planner.newPlanner Routines.generator in
  {| data := d;
     stream := MemoryStream.newMemoryStream (memoryStream d);
     planner :=
       match currentPlan d with
       | Some plan => Planner.setDailyPlan fresh plan
       | None => fresh
       end |}.

(** [initializeDailyPlan]: the routine draws its ids, then the chunks
    theirs. [None] stands for the TypeError that ends the call when
    [getDefaultRoutine] gives no routine for the occupation: neither the
    planner nor the data have been written by then. *)
Definition initializeDailyPlan (c : Character) (day : Z)
    : Host.M (option (Planner.DailyPlan * Character)) :=
  let* genRoutine := Host.idSupply in
  match Routines.getDefaultRoutine genRoutine (occupation (data c)) with
  | Routines.NotARoutine _ => Host.ret None
  | Routines.Routine broad =>
      let* _ := Host.skipIds (length broad) in
      let* gen := Host.idSupply in
      let '(plan, planner') :=
        Planner.initializeDailyPlan genRoutine gen (planner c) (occupation (data c)) day in
      let* _ := Host.skipIds (length (Planner.hourlyPlans plan)) in
      Host.ret (Some (plan,
                      {| data := withPlan (data c) (Some plan);
                         stream := stream c;
                         planner := planner' |}))
  end.

(** [{ ...this.data, memoryStream: ..., currentPlan: ... }]. *)
Definition serialize (c : Character) : CharacterData :=
  withPlan (withMemories (data c) (MemoryStream.getAll (stream c)))
           (Planner.getDailyPlan (planner c)).

Definition deserialize (d : CharacterData) : Character := newCharacter d.

Definition createCharacterFromTemplate (template : CharacterTemplate)
    (sprite : CharacterSprite) : Host.M Character :=
  let* now := Host.now in
  let* memories :=
    Host.mapM (fun m =>
                 let* created := Host.now in
                 let* newId := Host.freshId in
                 Host.ret (MemoryStream.createMemory created newId
                             (initialContent m) (initialType m) None))
              (initialMemories template) in
  let* relationships :=
    Host.foldM (fun (acc : list (string * Relationship)) '(otherId, rel) =>
                  let* r := Host.random in
                  Host.ret (JS.mapSet otherId
                              {| characterId := otherId;
                                 description := initialDescription rel;
                                 lastInteraction :=
                                   (inject_Z now - r * 259200000)%Q;
                                 sentiment := initialSentiment rel |} acc))
               (initialRelationships template) [] in
  Host.ret
    (newCharacter
       {| id := templateId template;
          name := templateName template;
          age := templateAge template;
          position := startPosition template;
          color := templateColor template;
          sprite := sprite;
          direction := Types.down;
          isMoving := false;
          personality := templatePersonality template;
          occupation := templateOccupation template;
          lifestyle := templateLifestyle template;
          memoryStream := memories;
          currentPlan := None;
          currentAction := "Starting the day";
          currentActionEmoji := "🌅";
          relationships := relationships;
          lastReflectionTime := now;
          importanceAccumulator := 0%Q;
          pendingCommands := [] |}).

(** The event of [setPosition]. *)
Inductive CharacterEvent :=
| CharacterMoved (characterId : string) (oldPosition newPosition : Types.Position).

Definition withPosition (d : CharacterData) (newPosition : Types.Position) : CharacterData :=
  {| id := id d; name := name d; age := age d; position := newPosition;
     color := color d; sprite := sprite d; direction := direction d;
     isMoving := isMoving d; personality := personality d;
     occupation := occupation d; lifestyle := lifestyle d;
     memoryStream := memoryStream d; currentPlan := currentPlan d;
     currentAction := currentAction d; currentActionEmoji := currentActionEmoji d;
     relationships := relationships d; lastReflectionTime := lastReflectionTime d;
     importanceAccumulator := importanceAccumulator d;
     pendingCommands := pendingCommands d |}.

Definition withDirection (d : CharacterData) (newDirection : Types.Direction) : CharacterData :=
  {| id := id d; name := name d; age := age d; position := position d;
     color := color d; sprite := sprite d; direction := newDirection;
     isMoving := isMoving d; personality := personality d;
     occupation := occupation d; lifestyle := lifestyle d;
     memoryStream := memoryStream d; currentPlan := currentPlan d;
     currentAction := currentAction d; currentActionEmoji := currentActionEmoji d;
     relationships := relationships d; lastReflectionTime := lastReflectionTime d;
     importanceAccumulator := importanceAccumulator d;
     pendingCommands := pendingCommands d |}.


Definition withData (c : Character) (d : CharacterData) : Character :=
  {| data := d; stream := stream c; planner := planner c |}.

Definition setPosition (c : Character) (newPosition : Types.Position)
    : Character * list CharacterEvent :=
  (withData c (withPosition (data c) newPosition),
   [CharacterMoved (id (data c)) (position (data c)) newPosition]).

Definition setDirection (c : Character) (newDirection : Types.Direction) : Character :=
  withData c (withDirection (data c) newDirection).

(** [move]; [gridWidth] and [gridHeight] are the two fields of the
    [gridSize] argument. The result is whether the position changed. *)
Definition move (c : Character) (newDirection : Types.Direction) (gridWidth gridHeight : Z)
    : bool * Character * list CharacterEvent :=
  let old := position (data c) in
  let newPosition :=
    match newDirection with
    | Types.up => {| Types.x := Types.x old; Types.y := Z.max 0 (Types.y old - 1) |}
    | Types.down =>
        {| Types.x := Types.x old; Types.y := Z.min (gridHeight - 1) (Types.y old + 1) |}
    | Types.left => {| Types.x := Z.max 0 (Types.x old - 1); Types.y := Types.y old |}
    | Types.right =>
        {| Types.x := Z.min (gridWidth - 1) (Types.x old + 1); Types.y := Types.y old |}
    end in
  if negb (Types.x newPosition =? Types.x old) || negb (Types.y newPosition =? Types.y old)
  then
    let '(moved, events) := setPosition c newPosition in
    (true, setDirection moved newDirection, events)
  else (false, setDirection c newDirection, []).

Definition shouldReflect (c : Character) : bool := MemoryStream.shouldReflect (stream c).



End Character.

(** ** CharacterManager *)

Module CharacterManager.

(** The registry: a [Map] from id to character, in insertion order. *)
Record CharacterManager := {
  characters : list (string * Character.Character)
}.

Definition newCharacterManager : CharacterManager := {| characters := [] |}.

Definition add (cm : CharacterManager) (c : Character.Character) : CharacterManager :=
  {| characters := JS.mapSet (Character.id (Character.data c)) c (characters cm) |}.

Definition get (cm : CharacterManager) (id : string) : option Character.Character :=
  JS.mapGet id (characters cm).

Definition getAll (cm : CharacterManager) : list Character.Character :=
  JS.mapValues (characters cm).

(** [this.characters.forEach (character => character.initializeDailyPlan (day))]:
    the entries in insertion order, up to the first call that throws. *)
Fixpoint planEntries (day : Z) (entries : list (string * Character.Character))
    : Host.M (option (list (string * Character.Character))) :=
  match entries with
  | [] => Host.ret (Some [])
  | (key, c) :: rest =>
      let* result := Character.initializeDailyPlan c day in
      match result with
      | None => Host.ret None
      | Some (_, planned) =>
          let* others := planEntries day rest in
          Host.ret (option_map (cons (key, planned)) others)
      end
  end.

(** [initializeDailyPlans]; [None] when a character's call has thrown. *)
Definition initializeDailyPlans (cm : CharacterManager) (day : Z)
    : Host.M (option CharacterManager) :=
  let* updated := planEntries day (characters cm) in
  Host.ret (option_map (fun entries => {| characters := entries |}) updated).

Definition serialize (cm : CharacterManager) : list Character.CharacterData :=
  map Character.serialize (getAll cm).

(** [deserialize]: the registry is cleared and refilled. *)
Definition deserialize (saved : list Character.CharacterData) : CharacterManager :=
  {| characters :=
       fold_left (fun registry d =>
                    let c := Character.deserialize d in
                    JS.mapSet (Character.id (Character.data c)) c registry)
                 saved [] |}.

(** The event of [remove]. *)
Inductive RegistryEvent :=
| CharacterRemoved (characterId : string).

(** [remove]: [Map.delete], and the event when an entry was deleted. *)
Definition remove (cm : CharacterManager) (id : string)
    : bool * CharacterManager * list RegistryEvent :=
  match JS.mapGet id (characters cm) with
  | Some _ =>
      (true,
       {| characters := List.filter (fun entry => negb (String.eqb (fst entry) id))
                          (characters cm) |},
       [CharacterRemoved id])
  | None => (false, cm, [])
  end.

(** [getNearby]: the others within [radius] cells on both axes; the
    radius is 5 when the caller gives none. *)
Definition getNearby (cm : CharacterManager) (characterId : string) (radius : Z)
    : list Character.Character :=
  match get cm characterId with
  | None => []
  | Some character =>
      let position := Character.position (Character.data character) in
      List.filter
        (fun other =>
           if String.eqb (Character.id (Character.data other)) characterId then false
           else
             let dx := Z.abs (Types.x (Character.position (Character.data other))
                              - Types.x position) in
             let dy := Z.abs (Types.y (Character.position (Character.data other))
                              - Types.y position) in
             (dx <=? radius) && (dy <=? radius))
        (getAll cm)
  end.

End CharacterManager.

(** ** Environment *)

Module Environment.

Inductive EnvironmentNodeType := world | area | building | room | object.

#[local] Unset Elimination Schemes.
Inductive EnvironmentNode :=
| Node (name : string) (type : EnvironmentNodeType)
    (children : option (list EnvironmentNode)) (state : option string)
    (position : option Types.Position).
#[local] Set Elimination Schemes.

Record Environment := {
  tree : EnvironmentNode;
  locationBounds : list (string * GameMap.LocationBounds)
}.

Definition getTree (e : Environment) : EnvironmentNode := tree e.

End Environment.

(** ** World *)

Module World.

Record GridSize := { gridWidth : Z; gridHeight : Z }.

Record WorldConfig := {
  id : string;
  name : string;
  description : string;
  gridSize : GridSize;
  tileSize : Z;
  startTime : TimeSystem.GameTime
}.

Record WorldState := {
  config : WorldConfig;
  time : TimeSystem.GameTime;
  characters : list Character.CharacterData;
  conversations : list ConversationManager.Conversation;
  environment : Environment.EnvironmentNode;
  diffusionLog : list MemoryStream.DiffusionEvent;
  simulationLog : list string;
  createdAt : Z;
  updatedAt : Z
}.

(** [Partial<GameTime>]. *)
Record PartialGameTime := {
  partialDay : option Z;
  partialHour : option Z;
  partialMinute : option Z;
  partialSpeed : option Z;
  partialIsPaused : option bool
}.

Record WorldTemplate := {
  templateId : string;
  templateName : string;
  templateDescription : string;
  templateGridSize : GridSize;
  templateTileSize : Z;
  templateStartTime : PartialGameTime;
  templateCharacters : list Character.CharacterTemplate;
  templateTree : Environment.EnvironmentNode;
  templateLocationBounds : list (string * GameMap.LocationBounds);
  mapData : option GameMap.GameMap;
  spriteGenerator : string -> string -> Character.CharacterSprite
}.

(** The world. Its event bus carries four listeners, on the day change,
    the tick and the start and the end of a conversation; none of the
    operations below publishes one of these events. *)
Record World := {
  worldId : string;
  worldName : string;
  worldDescription : string;
  worldGridSize : GridSize;
  worldTileSize : Z;
  clock : TimeSystem.TimeSystem;
  registry : CharacterManager.CharacterManager;
  dialogues : ConversationManager.ConversationManager;
  surroundings : Environment.Environment;
  map : GameMap.GameMap;
  log : list string;
  diffusion : list MemoryStream.DiffusionEvent;
  created : Z;
  updated : Z
}.

(** [{ ...base, ...partial }]. *)
Definition mergeTime (base : TimeSystem.GameTime) (partial : PartialGameTime)
    : TimeSystem.GameTime :=
  {| TimeSystem.day := default (TimeSystem.day base) (partialDay partial);
     TimeSystem.hour := default (TimeSystem.hour base) (partialHour partial);
     TimeSystem.minute := default (TimeSystem.minute base) (partialMinute partial);
     TimeSystem.speed := default (TimeSystem.speed base) (partialSpeed partial);
     TimeSystem.isPaused := default (TimeSystem.isPaused base) (partialIsPaused partial) |}.

Definition logLine (t : TimeSystem.GameTime) (message : string) : string :=
  "[Day " +:+ JS.numberToString (TimeSystem.day t) +:+ " "
    +:+ JS.padStart (JS.numberToString (TimeSystem.hour t)) 2 "0" +:+ ":"
    +:+ JS.padStart (JS.numberToString (TimeSystem.minute t)) 2 "0" +:+ "] " +:+ message.

(** [l.slice (-500)]. *)
Definition lastEntries (n : nat) (l : list string) : list string :=
  skipn (length l - n) l.

Definition withLog (w : World) (entries : list string) : World :=
  {| worldId := worldId w; worldName := worldName w;
     worldDescription := worldDescription w; worldGridSize := worldGridSize w;
     worldTileSize := worldTileSize w; clock := clock w; registry := registry w;
     dialogues := dialogues w; surroundings := surroundings w; map := map w;
     log := entries; diffusion := diffusion w;
     created := created w; updated := updated w |}.

Definition addToLog (w : World) (message : string) : World :=
  let entries := log w ++ [logLine (TimeSystem.getTime (clock w)) message] in
  withLog w (if (1000 <? length entries)%nat then lastEntries 500 entries else entries).

(** The constructor. The events of the characters added are published
    before any listener is set up. [None]: the constructor has thrown,
    which it does when the daily plans cannot be made. *)
Definition construct (config : WorldConfig) (template : WorldTemplate)
    : Host.M (option World) :=
  let* createdAt := Host.now in
  let* updatedAt := Host.now in
  let* people :=
    Host.foldM (fun registry charTemplate =>
                  let sprite :=
                    spriteGenerator template (Character.templateColor charTemplate)
                      (Character.templateId charTemplate) in
                  let* c := Character.createCharacterFromTemplate charTemplate sprite in
                  Host.ret (CharacterManager.add registry c))
               (templateCharacters template) CharacterManager.newCharacterManager in
  let* plans := CharacterManager.initializeDailyPlans people
               (TimeSystem.day (startTime config)) in
  Host.ret
    (option_map
       (fun planned =>
     addToLog
       {| worldId := id config;
          worldName := name config;
          worldDescription := description config;
          worldGridSize := gridSize config;
          worldTileSize := tileSize config;
          clock := {| TimeSystem.time := mergeTime TimeSystem.DEFAULT_TIME
                        {| partialDay := Some (TimeSystem.day (startTime config));
                           partialHour := Some (TimeSystem.hour (startTime config));
                           partialMinute := Some (TimeSystem.minute (startTime config));
                           partialSpeed := Some (TimeSystem.speed (startTime config));
                           partialIsPaused :=
                             Some (TimeSystem.isPaused (startTime config)) |} |};
          registry := planned;
          dialogues := ConversationManager.newConversationManager;
          surroundings :=
            {| Environment.tree := templateTree template;
               Environment.locationBounds := templateLocationBounds template |};
          map :=
            match mapData template with
            | Some data => data
            | None =>
                GameMap.createEmpty (gridWidth (gridSize config))
                  (gridHeight (gridSize config)) GameMap.grass
            end;
          log := [];
          diffusion := [];
          created := createdAt;
          updated := updatedAt |}
       "World initialized")
       plans).

Definition fromTemplate (template : WorldTemplate) : Host.M (option World) :=
  let* newId := Host.freshId in
  construct
    {| id := newId;
       name := templateName template;
       description := templateDescription template;
       gridSize := templateGridSize template;
       tileSize := templateTileSize template;
       startTime := mergeTime TimeSystem.DEFAULT_TIME (templateStartTime template) |}
    template.

(** [serialize]: stamps [updatedAt], then reads everything. *)
Definition serialize (w : World) : Host.M (WorldState * World) :=
  let* stamp := Host.now in
  let w' :=
    {| worldId := worldId w; worldName := worldName w;
       worldDescription := worldDescription w; worldGridSize := worldGridSize w;
       worldTileSize := worldTileSize w; clock := clock w; registry := registry w;
       dialogues := dialogues w; surroundings := surroundings w; map := map w;
       log := log w; diffusion := diffusion w;
       created := created w; updated := stamp |} in
  Host.ret
    ({| config :=
          {| id := worldId w';
             name := worldName w';
             description := worldDescription w';
             gridSize := worldGridSize w';
             tileSize := worldTileSize w';
             startTime := TimeSystem.getTime (clock w') |};
        time := TimeSystem.getTime (clock w');
        characters := CharacterManager.serialize (registry w');
        conversations := ConversationManager.serialize (dialogues w');
        environment := Environment.getTree (surroundings w');
        diffusionLog := diffusion w';
        simulationLog := log w';
        createdAt := created w';
        updatedAt := updated w' |},
     w').

(** [loadState]: the clock, the characters, the conversations, the logs
    and the timestamps, in this order. The event it publishes has no
    listener in the world. *)
Definition loadState (w : World) (state : WorldState) : World :=
  {| worldId := worldId w;
     worldName := worldName w;
     worldDescription := worldDescription w;
     worldGridSize := worldGridSize w;
     worldTileSize := worldTileSize w;
     clock := TimeSystem.deserialize (time state);
     registry := CharacterManager.deserialize (characters state);
     dialogues := ConversationManager.deserialize (conversations state);
     surroundings := surroundings w;
     map := map w;
     log := simulationLog state;
     diffusion := diffusionLog state;
     created := createdAt state;
     updated := updatedAt state |}.

End World.

(* ===================================================================== *)
(** * Part II: properties *)
(* ===================================================================== *)

(** ** Planner: tiling of the plan tiers *)

Module PlannerSpec.
Import Planner.

(** Plans laid end to end from minute-of-day [start]: each one begins
    where the one before it ends. *)
Fixpoint contiguousFrom (start : Z) (plans : list Plan) : Prop :=
  match plans with
  | [] => True
  | p :: rest => planStart p = start /\ contiguousFrom (planEnd p) rest
  end.

(** No two half-open intervals of the list meet: an earlier plan ends
    before a later one starts. *)
Definition nonOverlapping (plans : list Plan) : Prop :=
  ForallOrdPairs (fun p q => planEnd p <= planStart q) plans.

Definition totalDuration (plans : list Plan) : Z :=
  fold_right (fun p acc => duration p + acc) 0 plans.

(** The end of the span covered by plans laid from [start]. *)
Definition spanEnd (start : Z) (plans : list Plan) : Z := start + totalDuration plans.

(** A plan whose start is a time of day and that does not run backwards. *)
Definition wellFormedPlan (p : Plan) : Prop :=
  0 <= minute (startTime p) < 60 /\ 0 <= duration p.

(** [chunks] tile [parent]: laid end to end from its start, disjoint, and
    summing to its duration. *)
Definition tiles (parent : Plan) (chunks : list Plan) : Prop :=
  contiguousFrom (planStart parent) chunks
  /\ nonOverlapping chunks
  /\ totalDuration chunks = duration parent.

Lemma totalDuration_app l1 l2 :
  totalDuration (l1 ++ l2) = totalDuration l1 + totalDuration l2.
Proof. induction l1 as [|p l1 IH]; simpl; [reflexivity | rewrite IH; lia]. Qed.

Lemma totalDuration_nonneg l :
  Forall (fun p => 0 <= duration p) l -> 0 <= totalDuration l.
Proof. induction 1; simpl; lia. Qed.

Lemma contiguousFrom_starts_after start l :
  contiguousFrom start l ->
  Forall (fun p => 0 <= duration p) l ->
  Forall (fun q => start <= planStart q) l.
Proof.
  revert start. induction l as [|p l IH]; intros start Hc Hd; constructor.
  - destruct Hc as [-> _]. lia.
  - destruct Hc as [Hs Hc]. inversion Hd as [|? ? Hp Hl]; subst.
    specialize (IH _ Hc Hl). unfold planEnd in IH.
    eapply Forall_impl; [exact IH|]. simpl. intros q Hq. lia.
Qed.

(** Contiguous plans of non-negative length never overlap. *)
Lemma contiguousFrom_nonOverlapping start l :
  contiguousFrom start l ->
  Forall (fun p => 0 <= duration p) l ->
  nonOverlapping l.
Proof.
  revert start. induction l as [|p l IH]; intros start Hc Hd.
  - constructor.
  - destruct Hc as [Hs Hc]. inversion Hd as [|? ? Hp Hl]; subst.
    constructor; [|eapply IH; eassumption].
    apply (contiguousFrom_starts_after _ _ Hc Hl).
Qed.

(** *** The hourly loop *)

Lemma hourlyLoop_spec fuel : forall gen plan k total cm ch cmin,
  (hourlyMeasure total cm cmin <= fuel)%nat ->
  exists chunks,
    hourlyLoop fuel gen plan k total cm ch cmin = Some chunks
    /\ contiguousFrom (ch * 60 + cmin) chunks
    /\ Forall (fun p => duration p <= 60) chunks
    /\ (cmin < 60 -> Forall (fun p => 1 <= duration p) chunks)
    /\ (cm <= total -> totalDuration chunks = total - cm).
Proof.
  induction fuel as [|fuel IH]; intros gen plan k total cm ch cmin Hfuel;
    unfold hourlyMeasure in Hfuel; simpl;
    destruct (Z.ltb_spec cm total) as [Hlt|Hge].
  - lia.
  - exists []. simpl. repeat split; try constructor; intros; lia.
  - set (d := Z.min (Z.min (60 - cmin) (total - cm)) 60).
    assert (Hd60 : d <= 60) by (unfold d; lia).
    destruct (Z.geb_spec (cmin + d) 60) as [Hcarry|Hstay].
    + destruct (IH gen plan (S k) total (cm + d) (ch + 1) (cmin + d - 60))
        as (rest & -> & Hc & H60 & Hpos & Hsum).
      { unfold hourlyMeasure. unfold d in *. lia. }
      eexists. split; [reflexivity|]. simpl. repeat split.
      * unfold planEnd, planStart. simpl. replace (ch * 60 + cmin + d)
          with ((ch + 1) * 60 + (cmin + d - 60)) by lia. exact Hc.
      * constructor; [exact Hd60 | exact H60].
      * intros Hm. constructor; [simpl; unfold d; lia|].
        apply Hpos. unfold d. lia.
      * intros _. rewrite Hsum; [lia | unfold d; lia].
    + destruct (IH gen plan (S k) total (cm + d) ch (cmin + d))
        as (rest & -> & Hc & H60 & Hpos & Hsum).
      { unfold hourlyMeasure. unfold d in *. lia. }
      eexists. split; [reflexivity|]. simpl. repeat split.
      * unfold planEnd, planStart. simpl. replace (ch * 60 + cmin + d)
          with (ch * 60 + (cmin + d)) by lia. exact Hc.
      * constructor; [exact Hd60 | exact H60].
      * intros Hm. constructor; [simpl; unfold d; lia|].
        apply Hpos. lia.
      * intros _. rewrite Hsum; [lia | unfold d; lia].
  - exists []. simpl. repeat split; try constructor; intros; lia.
Qed.

(** The fuel that [decomposePlanToHourly] passes is enough for every plan. *)
Lemma decomposePlanToHourly_fuel gen plan :
  hourlyLoop (hourlyMeasure (duration plan) 0 (minute (startTime plan)))
    gen plan 0 (duration plan) 0 (hour (startTime plan)) (minute (startTime plan))
  = Some (decomposePlanToHourly gen plan).
Proof.
  unfold decomposePlanToHourly.
  destruct (hourlyLoop_spec _ gen plan 0%nat (duration plan) 0
              (hour (startTime plan)) (minute (startTime plan)) (Nat.le_refl _))
    as (chunks & -> & _). reflexivity.
Qed.

Lemma decomposePlanToHourly_tiles gen plan :
  wellFormedPlan plan ->
  tiles plan (decomposePlanToHourly gen plan)
  /\ Forall (fun c => 1 <= duration c <= 60) (decomposePlanToHourly gen plan).
Proof.
  intros [Hmin Hdur].
  destruct (hourlyLoop_spec _ gen plan 0%nat (duration plan) 0
              (hour (startTime plan)) (minute (startTime plan)) (Nat.le_refl _))
    as (chunks & Heq & Hc & H60 & Hpos & Hsum).
  rewrite decomposePlanToHourly_fuel in Heq. injection Heq as <-.
  specialize (Hpos (proj2 Hmin)). specialize (Hsum Hdur).
  assert (Hnn : Forall (fun p => 0 <= duration p) (decomposePlanToHourly gen plan))
    by (eapply Forall_impl; [exact Hpos|]; simpl; intros; lia).
  split; [split; [exact Hc | split]|].
  - eapply contiguousFrom_nonOverlapping; eassumption.
  - lia.
  - rewrite Forall_forall in *. intros c Hin. split; [apply Hpos | apply H60]; exact Hin.
Qed.

Lemma decomposeAll_spec broad : forall gen k,
  Forall wellFormedPlan broad ->
  exists chunkss,
    decomposeAll gen k broad = concat chunkss
    /\ Forall2 tiles broad chunkss
    /\ Forall (fun c => 1 <= duration c <= 60) (decomposeAll gen k broad)
    /\ totalDuration (decomposeAll gen k broad) = totalDuration broad.
Proof.
  induction broad as [|b broad IH]; intros gen k Hwf.
  - exists []. simpl. repeat split; constructor.
  - inversion Hwf as [|? ? Hb Hrest]; subst.
    destruct (decomposePlanToHourly_tiles (fun i => gen (k + i)%nat) b Hb) as [Ht Hd].
    destruct (IH gen (k + length (decomposePlanToHourly (fun i => gen (k + i)%nat) b))%nat Hrest)
      as (css & Heq & Hf2 & Hall & Hsum).
    exists (decomposePlanToHourly (fun i => gen (k + i)%nat) b :: css). simpl.
    repeat split.
    + rewrite Heq. reflexivity.
    + constructor; assumption.
    + apply Forall_app; split; assumption.
    + rewrite totalDuration_app, Hsum. destruct Ht as (_ & _ & ->). reflexivity.
Qed.

(** C2. Every daily plan that [initializeDailyPlan] produces from
    well-formed broad strokes has hourly plans that split, broad stroke by
    broad stroke, into chunks that tile it: contiguous from its start,
    pairwise non-overlapping, summing to its duration. Every chunk lasts
    between 1 and 60 minutes, and the hourly durations sum to the broad
    stroke durations. *)
Theorem initializeDailyPlan_hourly_tiling genRoutine gen p occupation day :
  Forall wellFormedPlan (routineGenerator p genRoutine occupation) ->
  let dailyPlan := fst (initializeDailyPlan genRoutine gen p occupation day) in
  broadStrokes dailyPlan = routineGenerator p genRoutine occupation
  /\ (exists chunkss,
        hourlyPlans dailyPlan = concat chunkss
        /\ Forall2 tiles (broadStrokes dailyPlan) chunkss)
  /\ Forall (fun c => 1 <= duration c <= 60) (hourlyPlans dailyPlan)
  /\ totalDuration (hourlyPlans dailyPlan) = totalDuration (broadStrokes dailyPlan).
Proof.
  intros Hwf. simpl.
  destruct (decomposeAll_spec _ gen 0%nat Hwf) as (css & Heq & Hf2 & Hall & Hsum).
  split; [reflexivity|]. split; [exists css; split; assumption|].
  split; assumption.
Qed.

Lemma routine_wellFormed_check (l : list Plan) :
  forallb (fun p => (0 <=? minute (startTime p)) && (minute (startTime p) <? 60)
                    && (0 <=? duration p)) l = true ->
  Forall wellFormedPlan l.
Proof.
  intros H. apply Forall_forall. intros q Hq.
  rewrite forallb_forall in H. specialize (H q). 
  apply list_elem_of_In in Hq. specialize (H Hq).
  apply andb_prop in H as [H Hd]. apply andb_prop in H as [Hlo Hhi].
  apply Z.leb_le in Hlo, Hd. apply Z.ltb_lt in Hhi. unfold wellFormedPlan. lia.
Qed.

Lemma initializeDailyPlan_hourly_tiling_witness :
  let p := newPlanner Routines.generator in
  let dailyPlan := fst (initializeDailyPlan
                          (fun i => "plan-" +:+ JS.numberToString (Z.of_nat i))
                          (fun i => "chunk-" +:+ JS.numberToString (Z.of_nat i))
                          p "Theoretical Physicist" 1) in
  totalDuration (hourlyPlans dailyPlan) = totalDuration (broadStrokes dailyPlan).
Proof.
  intros p dailyPlan.
  apply (initializeDailyPlan_hourly_tiling
           (fun i => "plan-" +:+ JS.numberToString (Z.of_nat i))
           (fun i => "chunk-" +:+ JS.numberToString (Z.of_nat i)) p "Theoretical Physicist" 1).
  apply routine_wellFormed_check. vm_compute. reflexivity.
Defined.

(** *** The detailed loop *)



Lemma detailedLoop_nothing activities : forall gen plan per k ch cmin remaining,
  per <= 0 ->
  detailedLoop gen plan per activities k ch cmin remaining = [].
Proof.
  induction activities as [|a rest IH]; intros gen plan per k ch cmin remaining Hper; simpl.
  - reflexivity.
  - destruct (Z.gtb_spec (Z.min (Z.min per remaining) 15) 0); [lia | apply IH, Hper].
Qed.

Lemma getDetailedActivities_length description :
  (3 <= length (getDetailedActivities description))%nat.
Proof.
  unfold getDetailedActivities.
  repeat match goal with |- context [if ?b then _ else _] => destruct b end; simpl; lia.
Qed.


(** The second hourly chunk of "Evening relaxation" (19:00, 120 minutes),
    a broad stroke of the generic routine. *)
Definition eveningChunk : Plan :=
  {| id := "plan-1";
     description := "Evening relaxation (2/2)";
     startTime := {| hour := 20; minute := 0 |};
     duration := 60;
     location := None;
     status := pending |}.

Example eveningChunk_is_hourly :
  nth_error (decomposePlanToHourly (fun i => "plan-" +:+ JS.numberToString (Z.of_nat i))
               (createPlan "plan-0" "Evening relaxation" 19 0 120 None)) 1
  = Some eveningChunk.
Proof. vm_compute. reflexivity. Qed.



(** *** The active plan *)

Definition minuteOfDay (t : ClockTime) : Z := clockHour t * 60 + clockMinute t.

(** [t] lies in the half-open interval of the plan. *)
Definition covers (p : Plan) (t : ClockTime) : Prop :=
  planStart p <= minuteOfDay t < planEnd p.

Definition coversb (t : ClockTime) (p : Plan) : bool :=
  (minuteOfDay t >=? planStart p) && (minuteOfDay t <? planEnd p).

Lemma coversb_covers t p : coversb t p = true <-> covers p t.
Proof. unfold coversb, covers. lia. Qed.

Lemma scanTier_find t tier :
  scanTier (minuteOfDay t) tier = List.find (coversb t) tier.
Proof. induction tier as [|p tier IH]; simpl; [reflexivity|]. rewrite IH. reflexivity. Qed.

Lemma scanTier_covered t tier :
  Exists (fun p => covers p t) tier ->
  exists q, scanTier (minuteOfDay t) tier = Some q.
Proof.
  induction 1 as [p tier Hp | p tier _ IH]; simpl.
  - apply coversb_covers in Hp. unfold coversb in Hp. rewrite Hp. eauto.
  - destruct (_ && _); eauto.
Qed.

Lemma scanTier_sound m tier q :
  scanTier m tier = Some q ->
  In q tier /\ planStart q <= m < planEnd q.
Proof.
  induction tier as [|p tier IH]; simpl; [discriminate|].
  destruct ((m >=? planStart p) && (m <? planEnd p)) eqn:E.
  - intros [= <-]. split; [left; reflexivity | lia].
  - intros H. destruct (IH H). split; [right|]; assumption.
Qed.

Definition walkToWork : Plan := createPlan "plan-4" "Walk to work" 8 0 30 None.
Definition research : Plan := createPlan "plan-5" "Research" 8 30 210 None.

(** C3. Whenever the minute of day lies in the half-open interval of some
    broad stroke, [getCurrentPlan] returns a plan, one of the daily plan
    whose interval holds that minute; the result is always the first match
    of the detailed tier, else of the hourly tier, else of the broad
    strokes. At 08:31, with broad strokes "Walk to work" (08:00, 30m) and
    "Research" (08:30, 210m), the result is "Research"; once the planner
    has decomposed these broad strokes, it is the first hourly chunk of
    "Research". *)
Theorem getCurrentPlan_total dailyPlan time :
  Exists (fun p => covers p time) (broadStrokes dailyPlan) ->
  (exists q,
     getCurrentPlan dailyPlan time = Some q
     /\ covers q time
     /\ (In q (detailedPlans dailyPlan) \/ In q (hourlyPlans dailyPlan)
         \/ In q (broadStrokes dailyPlan)))
  /\ getCurrentPlan dailyPlan time
     = match List.find (coversb time) (detailedPlans dailyPlan) with
       | Some q => Some q
       | None =>
           match List.find (coversb time) (hourlyPlans dailyPlan) with
           | Some q => Some q
           | None => List.find (coversb time) (broadStrokes dailyPlan)
           end
       end
  /\ getCurrentPlan
       {| day := 1; broadStrokes := [walkToWork; research];
          hourlyPlans := []; detailedPlans := [] |}
       {| clockHour := 8; clockMinute := 31 |} = Some research
  /\ option_map (fun q => (description q, startTime q, duration q))
       (getCurrentPlan
          (fst (initializeDailyPlan (fun _ => "plan-0") (fun _ => "plan-6")
                  (newPlanner (fun _ _ => [walkToWork; research])) "physicist" 1))
          {| clockHour := 8; clockMinute := 31 |})
     = Some ("Research (1/4)", {| hour := 8; minute := 30 |}, 30).
Proof.
  intros Hcov. split; [|split; [|split; vm_compute; reflexivity]].
  - unfold getCurrentPlan. fold (minuteOfDay time).
    destruct (scanTier (minuteOfDay time) (detailedPlans dailyPlan)) as [q|] eqn:Ed.
    { destruct (scanTier_sound _ _ _ Ed). exists q. unfold covers. auto. }
    destruct (scanTier (minuteOfDay time) (hourlyPlans dailyPlan)) as [q|] eqn:Eh.
    { destruct (scanTier_sound _ _ _ Eh). exists q. unfold covers. auto. }
    destruct (scanTier_covered _ _ Hcov) as [q Eb].
    destruct (scanTier_sound _ _ _ Eb). exists q. unfold covers. auto.
  - unfold getCurrentPlan. fold (minuteOfDay time).
    rewrite !scanTier_find. reflexivity.
Qed.

Lemma getCurrentPlan_total_witness :
  exists q,
    getCurrentPlan
      {| day := 1; broadStrokes := [walkToWork; research];
         hourlyPlans := []; detailedPlans := [] |}
      {| clockHour := 11; clockMinute := 59 |} = Some q.
Proof.
  destruct (getCurrentPlan_total
              {| day := 1; broadStrokes := [walkToWork; research];
                 hourlyPlans := []; detailedPlans := [] |}
              {| clockHour := 11; clockMinute := 59 |}) as [(q & Hq & _) _].
  - apply Exists_cons_tl, Exists_cons_hd.
    unfold covers, minuteOfDay, planEnd, planStart. simpl. lia.
  - exists q. exact Hq.
Defined.

End PlannerSpec.


(** ** TimeSystem: ticking *)

Module TimeSystemSpec.
Import TimeSystem.

Definition lateEvening : TimeSystem :=
  {| time := {| day := 1; hour := 23; minute := 31; speed := 1; isPaused := false |} |}.

(** C4. Sixty ticks at speed 1 from day 1, 23:31 end at day 2, 00:31; the
    62 events published are the 60 ticks, one hour change (23 to 0, into
    day 2) and one day change (1 to 2). *)
Theorem sixty_ticks_cross_midnight :
  time (fst (ticks 60 lateEvening))
  = {| day := 2; hour := 0; minute := 31; speed := 1; isPaused := false |}
  /\ List.filter isDayChanged (snd (ticks 60 lateEvening)) = [TimeDayChanged 1 2]
  /\ List.filter isHourChanged (snd (ticks 60 lateEvening)) = [TimeHourChanged 23 0 2]
  /\ length (List.filter isTick (snd (ticks 60 lateEvening))) = 60%nat
  /\ length (snd (ticks 60 lateEvening)) = 62%nat.
Proof. vm_compute. repeat split; reflexivity. Qed.

(** A tick of a running clock publishes exactly one tick event, with the
    time it reached. *)
Lemma tick_publishes_one_tick ts :
  isPaused (time ts) = false ->
  List.filter isTick (snd (tick ts))
  = [TimeTick (time (fst (tick ts))) (speed (time ts))].
Proof.
  intros Hrun. unfold tick. rewrite Hrun.
  assert (Hh : forall old n, List.filter isTick (hourEvents old n) = []).
  { intros old n. unfold hourEvents. induction (seqZ 0 n); simpl; auto. }
  assert (Hd : forall old n, List.filter isTick (dayEvents old n) = []).
  { intros old n. unfold dayEvents. induction (seqZ 0 n); simpl; auto. }
  destruct (minute (time ts) + speed (time ts) >=? 60);
    [destruct (hour (time ts) + _ >=? 24) | destruct (hour (time ts) >=? 24)];
    simpl; rewrite ?List.filter_app, ?Hh, ?Hd; reflexivity.
Qed.

(** C10. A tick of a paused clock changes nothing and publishes nothing. *)
Theorem tick_paused_noop ts :
  isPaused (time ts) = true ->
  tick ts = (ts, []).
Proof. intros Hp. unfold tick. rewrite Hp. reflexivity. Qed.

Lemma tick_paused_noop_witness :
  tick (fst (pause lateEvening)) = (fst (pause lateEvening), []).
Proof. apply (tick_paused_noop (fst (pause lateEvening))). reflexivity. Defined.

End TimeSystemSpec.

(** ** MemoryStream: importance and retrieval *)

Module MemoryStreamSpec.
Import MemoryStream.

(** *** Comparisons of doubles *)






(** *** Normalized scores of two memories *)



(** The scores that [retrieve] gives two memories of equal recency and
    equal relevance when each of the three weights is [w]: the score of the
    memory of higher importance, whose normalized importance is 1, and the
    score of the other memory, whose normalized importance is 0. *)
Definition higherScore (w : float) : float := (w * 1 + w * 1 + w * 1)%float.
Definition lowerScore (w : float) : float := (w * 1 + w * 0 + w * 1)%float.

Section TwoMemories.
Variable Math_pow : float -> float -> float.
Variable Math_sqrt : float -> float.

End TwoMemories.

(** Stand-ins for [Math.pow] and [Math.sqrt] on which examples can run:
    the power by repeated multiplication, for the whole part of a positive
    exponent, and the square root of the doubles. *)
Definition wholePart (x : float) : Z :=
  match Prim2SF x with
  | S754_finite false m e => Z.shiftl (Z.pos m) e
  | _ => 0
  end.

Definition samplePow (base exponent : float) : float :=
  Nat.iter (Z.to_nat (wholePart exponent)) (fun power => (power * base)%float) 1%float.

Definition sampleSqrt (x : float) : float := PrimFloat.sqrt x.

Definition walkMemory : Memory :=
  createMemory 10 "mem-1" "Sheldon walked to the office" observation None.
Definition partyMemory : Memory :=
  createMemory 11 "mem-2" "Penny decided to throw a birthday party" observation None.

Example importance_examples :
  importance walkMemory = 5%Q /\ importance partyMemory = 8%Q.
Proof. split; reflexivity. Qed.



(** Weights of an ordinary size tell the two scores apart, negative ones
    reverse them, and [1e308] makes both of them infinite. *)
#[local] Set Warnings "-inexact-float".
Definition hugeWeight : float := 1e308%float.

Example weights_and_scores :
  Forall (fun w => (0 <? higherScore w - lowerScore w)%float = true
                   /\ (0 <? lowerScore w - higherScore w)%float = false)
    [1; 2; 10; 100; 0.5; 0.1; 0.001; 1e-300; 1e300]%float
  /\ (0 <? lowerScore (-1) - higherScore (-1))%float = true
  /\ higherScore hugeWeight = infinity /\ lowerScore hugeWeight = infinity
  /\ (0 <? higherScore hugeWeight - lowerScore hugeWeight)%float = false.
Proof.
  split; [repeat constructor|repeat split]; vm_compute; reflexivity.
Qed.
#[local] Set Warnings "inexact-float".


(** The estimate of [estimateImportance] lies between 1 and 10. *)
Lemma estimateImportance_clamped content :
  (1 <= estimateImportance content <= 10)%Q.
Proof.
  unfold estimateImportance.
  set (r := JS.round _).
  split; unfold Qle; simpl; lia.
Qed.

(** Without a supplied importance, [createMemory] stores the clamped
    estimate. *)
Lemma createMemory_estimated_clamped now newId content type :
  (1 <= importance (createMemory now newId content type None) <= 10)%Q.
Proof. apply estimateImportance_clamped. Qed.

Definition overstatedOptions : MemoryOptions :=
  {| optImportance := Some 100%Q; optPointers := None;
     optSourceCharacterId := None; optOriginalMemoryId := None |}.

(** C8, the failing input. A supplied importance of 100 is stored as it is:
    the memory that [createMemory] returns has importance 100, outside the
    1-10 scale. *)
Theorem createMemory_supplied_importance_unclamped :
  importance (createMemory 0 "mem-1" "Sheldon knocked three times" observation
                (Some overstatedOptions)) = 100%Q
  /\ ~ (importance (createMemory 0 "mem-1" "Sheldon knocked three times" observation
                      (Some overstatedOptions)) <= 10)%Q.
Proof. split; [reflexivity | intros H; vm_compute in H; apply H; reflexivity]. Qed.

End MemoryStreamSpec.

(** ** Contract violations *)

Module ErrorHandlingSpec.
Import ConversationManager.

(** C9. Ending a conversation whose id is not in the registry changes
    neither the conversations nor the active pointer and publishes nothing;
    [retrieve] on an empty stream returns the empty list, and leaves the
    stream as it is, whatever the query, the elapsed hours, the weights and
    [topK]. Both are total functions: nothing is thrown. *)
Theorem contract_violations_are_noops :
  (forall now cm conversationId,
      JS.mapGet conversationId (conversations cm) = None ->
      end_ now cm conversationId = (cm, []))
  /\ (forall Math_pow Math_sqrt clock accumulator log query hours weights topK,
        MemoryStream.retrieve Math_pow Math_sqrt clock
          {| MemoryStream.memories := [];
             MemoryStream.importanceAccumulator := accumulator;
             MemoryStream.diffusionLog := log |}
          query hours weights topK
        = ([], {| MemoryStream.memories := [];
                  MemoryStream.importanceAccumulator := accumulator;
                  MemoryStream.diffusionLog := log |})).
Proof.
  split.
  - intros now cm conversationId Hmissing. unfold end_. rewrite Hmissing. reflexivity.
  - reflexivity.
Qed.

Definition oneConversation : ConversationManager :=
  snd (fst (start 1700000000000 newConversationManager ["sheldon"; "leonard"]
              {| Types.x := 4; Types.y := 7 |})).

Lemma contract_violations_are_noops_witness :
  end_ 1700000000500 oneConversation "conv-42" = (oneConversation, []).
Proof.
  apply (proj1 contract_violations_are_noops 1700000000500 oneConversation "conv-42").
  reflexivity.
Defined.

End ErrorHandlingSpec.

(** ** GameMap: path finding *)

Module GameMapSpec.
Import Types GameMap.

(** *** Sorting *)

Section Sorting.
Context {A : Type} (rank : A -> Z).

Let before (a b : A) : bool := rank a - rank b <=? 0.

Lemma insertSorted_perm (x : A) l : JS.insertSorted before x l ≡ₚ x :: l.
Proof.
  induction l as [|y l IH]; simpl; [reflexivity|].
  destruct (before x y); [reflexivity|].
  rewrite IH. apply Permutation_swap.
Qed.

Lemma sort_perm (l : list A) : JS.sort before l ≡ₚ l.
Proof.
  induction l as [|x l IH]; simpl; [reflexivity|].
  rewrite insertSorted_perm, IH. reflexivity.
Qed.

Lemma insertSorted_head x sorted c rest :
  JS.insertSorted before x sorted = c :: rest ->
  (forall y tail, sorted = y :: tail -> forall n, n ∈ sorted -> rank y <= rank n) ->
  forall n, n ∈ x :: sorted -> rank c <= rank n.
Proof.
  destruct sorted as [|y tail]; simpl.
  - intros [= <- <-] _ n Hn. apply list_elem_of_singleton in Hn as ->. lia.
  - intros Hins Hmin n Hn. specialize (Hmin y tail eq_refl).
    unfold before in Hins. destruct (Z.leb_spec (rank x - rank y) 0) as [Hle|Hgt].
    + injection Hins as <- <-. apply elem_of_cons in Hn as [->|Hn]; [lia|].
      specialize (Hmin n Hn). lia.
    + injection Hins as <- <-. apply elem_of_cons in Hn as [->|Hn]; [lia|].
      apply Hmin, Hn.
Qed.

(** The head of the sorted list has the least rank. *)
Lemma sort_head_min (l : list A) : forall c rest,
  JS.sort before l = c :: rest ->
  forall n, n ∈ l -> rank c <= rank n.
Proof.
  induction l as [|x l IH]; intros c rest Hsort n Hn.
  - inversion Hn.
  - simpl in Hsort.
    assert (Hn' : n ∈ x :: JS.sort before l).
    { rewrite sort_perm. exact Hn. }
    eapply insertSorted_head; [exact Hsort| |exact Hn'].
    intros y tail Heq k Hk. apply (IH y tail Heq). rewrite <- (sort_perm l). exact Hk.
Qed.

End Sorting.

Lemma findIndex_None {A} (p : A -> bool) l :
  JS.findIndex p l = None -> forall a, a ∈ l -> p a = false.
Proof.
  induction l as [|b l IH]; simpl; intros H a Ha; [inversion Ha|].
  destruct (p b) eqn:Eb; [discriminate|].
  destruct (JS.findIndex p l); [discriminate|].
  apply elem_of_cons in Ha as [->|Ha]; [exact Eb | exact (IH eq_refl a Ha)].
Qed.

Lemma findIndex_Some {A} (p : A -> bool) l : forall i,
  JS.findIndex p l = Some i -> exists a, l !! i = Some a /\ p a = true.
Proof.
  induction l as [|b l IH]; simpl; intros i H; [discriminate|].
  destruct (p b) eqn:Eb.
  - injection H as <-. exists b. split; [reflexivity | exact Eb].
  - destruct (JS.findIndex p l) as [j|]; [|discriminate].
    injection H as <-. destruct (IH j eq_refl) as (a & Ha & Hp). exists a. split; assumption.
Qed.

(** *** Cells and moves *)

Definition inGrid (m : GameMap) (p : Position) : Prop :=
  0 <= x p < width m /\ 0 <= y p < height m.

Definition cell (k : Z * Z) : Position := {| x := k.1; y := k.2 |}.

Lemma cell_key p : cell (key p) = p.
Proof. destruct p; reflexivity. Qed.

Lemma key_cell k : key (cell k) = k.
Proof. destruct k; reflexivity. Qed.

Lemma key_inj p q : key p = key q -> p = q.
Proof. intros H. rewrite <- (cell_key p), <- (cell_key q), H. reflexivity. Qed.

Lemma samePosition_eq neighbor n :
  samePosition neighbor n = true <-> position n = neighbor.
Proof.
  unfold samePosition. destruct (position n) as [a b], neighbor as [c e]. simpl.
  rewrite andb_true_iff, !Z.eqb_eq. split; [intros [-> ->]; reflexivity | intros [= -> ->]; auto].
Qed.

Lemma isValidPosition_inGrid m p :
  isValidPosition m (x p) (y p) = true <-> inGrid m p.
Proof. unfold isValidPosition, inGrid. lia. Qed.

Lemma isWalkable_inGrid m p :
  isWalkable m (x p) (y p) = true -> inGrid m p.
Proof.
  unfold isWalkable, getTile, inGrid.
  destruct (_ || _) eqn:E; [discriminate|]. intros _. lia.
Qed.

Lemma getNewPosition_inGrid m p dir :
  inGrid m p -> inGrid m (getNewPosition m p dir).
Proof. unfold inGrid. destruct dir; simpl; lia. Qed.

(** Two cells are adjacent when one 4-directional step joins them. *)
Definition adjacent (p q : Position) : Prop :=
  Z.abs (x p - x q) + Z.abs (y p - y q) = 1.

Lemma getNewPosition_adjacent m p dir :
  inGrid m p ->
  getNewPosition m p dir = p \/ adjacent p (getNewPosition m p dir).
Proof.
  intros Hp.
  assert (H : key (getNewPosition m p dir) = key p \/ adjacent p (getNewPosition m p dir)).
  { unfold inGrid, adjacent, key in *. destruct p as [a b].
    destruct dir; simpl in *;
      [ destruct (Z.eq_dec b 0) | destruct (Z.eq_dec b (height m - 1))
      | destruct (Z.eq_dec a 0) | destruct (Z.eq_dec a (width m - 1)) ];
      solve [ left; f_equal; lia | right; lia ]. }
  destruct H as [H|H]; [left; apply key_inj, H | right; exact H].
Qed.

Lemma heuristic_step m p dir t :
  inGrid m p ->
  heuristic t (getNewPosition m p dir) <= heuristic t p + 1
  /\ heuristic (getNewPosition m p dir) t <= heuristic p t + 1.
Proof. unfold heuristic, inGrid. destruct dir; simpl; lia. Qed.

Lemma heuristic_triangle a b c :
  heuristic a c <= heuristic a b + heuristic b c.
Proof. unfold heuristic. lia. Qed.

Lemma heuristic_zero a b : heuristic a b = 0 -> a = b.
Proof. unfold heuristic. destruct a, b; simpl. intros H. f_equal; lia. Qed.

(** The direction of a step that brings [p] nearer to [target]. *)
Definition toward (p target : Position) : Direction :=
  if x p <? x target then right
  else if x target <? x p then left
  else if y p <? y target then down
  else up.

Lemma toward_nearer m p target :
  inGrid m p -> inGrid m target -> p <> target ->
  heuristic (getNewPosition m p (toward p target)) target = heuristic p target - 1.
Proof.
  unfold inGrid, toward, heuristic. destruct p as [a b], target as [c e]; simpl.
  intros Hp Ht Hne.
  destruct (Z.ltb_spec a c); [simpl; lia|].
  destruct (Z.ltb_spec c a); [simpl; lia|].
  destruct (Z.ltb_spec b e); [simpl; lia|].
  assert (b <> e) by (intros ->; apply Hne; f_equal; lia).
  simpl. lia.
Qed.

(** *** One neighbour visit *)

Section Visit.
Variables (m : GameMap) (occupied : gset (Z * Z)) (to : Position).
Variables (closedSet : gset (Z * Z)) (current : Node).

Definition neighborNode (neighbor : Position) : Node :=
  {| position := neighbor;
     g := g current + 1;
     f := g current + 1 + heuristic neighbor to;
     parent := Some (position current) |}.

Definition improved (neighbor : Position) (existing : Node) : Node :=
  {| position := position existing;
     g := g current + 1;
     f := g current + 1 + heuristic neighbor to;
     parent := parent existing |}.

(** What a visit of the neighbour in direction [dir] can do to the open
    set and to [cameFrom]. *)
Inductive visit_spec (openSet : list Node) (cameFrom : gmap (Z * Z) Position)
    (dir : Direction) : list Node * gmap (Z * Z) Position -> Prop :=
| visit_closed :
    key (getNewPosition m (position current) dir) ∈ closedSet ->
    visit_spec openSet cameFrom dir (openSet, cameFrom)
| visit_blocked :
    (let neighbor := getNewPosition m (position current) dir in
     isWalkable m (x neighbor) (y neighbor) = false) ->
    visit_spec openSet cameFrom dir (openSet, cameFrom)
| visit_occupied :
    key (getNewPosition m (position current) dir) ∈ occupied ->
    visit_spec openSet cameFrom dir (openSet, cameFrom)
| visit_kept i existing :
    openSet !! i = Some existing ->
    position existing = getNewPosition m (position current) dir ->
    g existing <= g current + 1 ->
    visit_spec openSet cameFrom dir (openSet, cameFrom)
| visit_improved i existing :
    (let neighbor := getNewPosition m (position current) dir in
     (key neighbor ∉ closedSet)
     /\ isWalkable m (x neighbor) (y neighbor) = true
     /\ (key neighbor ∉ occupied)
     /\ openSet !! i = Some existing
     /\ position existing = neighbor
     /\ g current + 1 < g existing) ->
    visit_spec openSet cameFrom dir
      (<[i := improved (getNewPosition m (position current) dir) existing]> openSet,
       <[key (getNewPosition m (position current) dir) := position current]> cameFrom)
| visit_new :
    (let neighbor := getNewPosition m (position current) dir in
     (key neighbor ∉ closedSet)
     /\ isWalkable m (x neighbor) (y neighbor) = true
     /\ (key neighbor ∉ occupied)
     /\ forall n, n ∈ openSet -> position n <> neighbor) ->
    visit_spec openSet cameFrom dir
      (openSet ++ [neighborNode (getNewPosition m (position current) dir)],
       <[key (getNewPosition m (position current) dir) := position current]> cameFrom).

Lemma visitNeighbor_spec openSet cameFrom dir :
  visit_spec openSet cameFrom dir
    (visitNeighbor m occupied to closedSet current (openSet, cameFrom) dir).
Proof.
  unfold visitNeighbor.
  set (neighbor := getNewPosition m (position current) dir).
  destruct (decide (key neighbor ∈ closedSet)) as [Hc|Hc]; [apply visit_closed, Hc|].
  destruct (isWalkable m (x neighbor) (y neighbor)) eqn:Hw; simpl;
    [|apply visit_blocked, Hw].
  destruct (decide (key neighbor ∈ occupied)) as [Ho|Ho]; [apply visit_occupied, Ho|].
  destruct (JS.findIndex (samePosition neighbor) openSet) as [i|] eqn:Hfind.
  - destruct (findIndex_Some _ _ _ Hfind) as (existing & Hi & Hsame).
    apply samePosition_eq in Hsame. rewrite Hi.
    destruct (Z.ltb_spec (g current + 1) (g existing)) as [Hlt|Hge].
    + apply (visit_improved _ _ _ i existing). simpl. fold neighbor. auto 10.
    + apply (visit_kept _ _ _ i existing); [exact Hi | exact Hsame | lia].
  - apply visit_new. simpl. fold neighbor. repeat split; try assumption.
    intros n Hn Heq. apply samePosition_eq in Heq.
    rewrite (findIndex_None _ _ Hfind n Hn) in Heq. discriminate.
Qed.

End Visit.

(** *** The cells still unclosed: the termination measure *)

Definition cells (m : GameMap) : list (Z * Z) :=
  list_prod (seqZ 0 (width m)) (seqZ 0 (height m)).

Lemma cells_length m : length (cells m) = (Z.to_nat (width m) * Z.to_nat (height m))%nat.
Proof. unfold cells. rewrite length_prod, !length_seqZ. reflexivity. Qed.

Lemma cells_inGrid m p : inGrid m p -> key p ∈ cells m.
Proof.
  intros [Hx Hy]. unfold cells, key. apply list_elem_of_In, in_prod;
    apply list_elem_of_In, elem_of_seqZ; lia.
Qed.

Definition unclosed (m : GameMap) (closedSet : gset (Z * Z)) : nat :=
  length (filter (fun k => k ∉ closedSet) (cells m)).

Lemma unclosed_empty m : unclosed m ∅ = length (cells m).
Proof.
  unfold unclosed. f_equal. induction (cells m) as [|k l IH]; [reflexivity|].
  rewrite filter_cons_True by set_solver. rewrite IH. reflexivity.
Qed.

Lemma filter_closed_le (k : Z * Z) (closedSet : gset (Z * Z)) (l : list (Z * Z)) :
  (length (filter (fun c => c ∉ {[k]} ∪ closedSet) l)
   <= length (filter (fun c => c ∉ closedSet) l))%nat.
Proof.
  induction l as [|c l IH]; [reflexivity|].
  rewrite !filter_cons. repeat case_decide; simpl; try lia. set_solver.
Qed.

Lemma filter_closed_lt (k : Z * Z) (closedSet : gset (Z * Z)) (l : list (Z * Z)) :
  k ∈ l -> k ∉ closedSet ->
  (length (filter (fun c => c ∉ {[k]} ∪ closedSet) l)
   < length (filter (fun c => c ∉ closedSet) l))%nat.
Proof.
  induction l as [|c l IH]; intros Hin Hk; [inversion Hin|].
  pose proof (filter_closed_le k closedSet l) as Hle.
  rewrite !filter_cons. apply elem_of_cons in Hin as [<-|Hin].
  - repeat case_decide; simpl; try lia; set_solver.
  - specialize (IH Hin Hk). repeat case_decide; simpl; try lia. set_solver.
Qed.

(** Closing a cell of the grid that was open brings the measure down. *)
Lemma unclosed_lt m k closedSet :
  k ∈ cells m -> k ∉ closedSet ->
  (unclosed m ({[k]} ∪ closedSet) < unclosed m closedSet)%nat.
Proof. apply filter_closed_lt. Qed.

Lemma unclosed_le m k closedSet :
  (unclosed m ({[k]} ∪ closedSet) <= unclosed m closedSet)%nat.
Proof. apply filter_closed_le. Qed.

(** *** The cameFrom chain of a closed cell *)

(** [ClosedChain from cameFrom closedSet c n]: following [cameFrom] from
    the closed cell [c] passes through [n] closed cells and stops at
    [from], which has no entry. *)
Inductive ClosedChain (from : Position) (cameFrom : gmap (Z * Z) Position)
    (closedSet : gset (Z * Z)) : Position -> nat -> Prop :=
| chain_start :
    key from ∈ closedSet -> cameFrom !! key from = None ->
    ClosedChain from cameFrom closedSet from 0
| chain_link c p n :
    key c ∈ closedSet -> cameFrom !! key c = Some p ->
    ClosedChain from cameFrom closedSet p n ->
    ClosedChain from cameFrom closedSet c (S n).

Lemma ClosedChain_closed from cameFrom closedSet c n :
  ClosedChain from cameFrom closedSet c n -> key c ∈ closedSet.
Proof. destruct 1; assumption. Qed.

(** Closing more cells and rewriting entries of cells that are not closed
    leaves the chains as they are. *)
Lemma ClosedChain_mono from cameFrom cameFrom' closedSet closedSet' c n :
  ClosedChain from cameFrom closedSet c n ->
  closedSet ⊆ closedSet' ->
  (forall k, k ∈ closedSet -> cameFrom' !! k = cameFrom !! k) ->
  ClosedChain from cameFrom' closedSet' c n.
Proof.
  intros Hchain Hsub Hsame. induction Hchain as [Hin Hnone | c p n Hin Hp _ IH].
  - apply chain_start; [set_solver | rewrite Hsame; assumption].
  - apply (chain_link _ _ _ c p n); [set_solver | rewrite Hsame; assumption | exact IH].
Qed.

Lemma reconstructPath_chain from cameFrom closedSet c n :
  ClosedChain from cameFrom closedSet c n ->
  forall fuel acc, (n < fuel)%nat ->
  exists path,
    reconstructPath fuel cameFrom c acc = Some (path ++ acc)
    /\ length path = S n
    /\ head path = Some from
    /\ last path = Some c.
Proof.
  induction 1 as [Hin Hnone | c p n Hin Hp _ IH]; intros fuel acc Hfuel;
    (destruct fuel as [|fuel]; [lia|]); simpl.
  - rewrite Hnone. exists [from]. auto.
  - rewrite Hp. destruct (IH fuel (c :: acc)) as (path & -> & Hlen & Hhead & Hlast); [lia|].
    exists (path ++ [c]). rewrite <- app_assoc. simpl. split; [reflexivity|].
    split; [rewrite length_app; simpl; lia|].
    split; [destruct path; [discriminate | exact Hhead] | apply last_snoc].
Qed.

(** *** Shared facts about the loop *)

Lemma at_goal (current : Node) (to : Position) :
  (x (position current) =? x to) && (y (position current) =? y to) = true
  <-> position current = to.
Proof. apply (samePosition_eq to current). Qed.

Lemma elem_of_insert_inv {A} (l : list A) i v n :
  n ∈ <[i := v]> l -> n = v \/ exists j, j <> i /\ l !! j = Some n.
Proof.
  intros Hn. apply list_elem_of_lookup in Hn as [j Hj].
  apply list_lookup_insert_Some in Hj as [(-> & -> & _)|[Hne Hj]]; [left; reflexivity|].
  right. exists j. auto.
Qed.

(** Two open nodes at different indices are at different cells. *)
Lemma keys_NoDup_lookup (l : list Node) i j a b :
  NoDup ((key ∘ position) <$> l) ->
  l !! i = Some a -> l !! j = Some b -> j <> i ->
  position b <> position a.
Proof.
  intros Hnd Ha Hb Hne Heq. apply Hne.
  eapply (NoDup_lookup _ j i (key (position b)) Hnd);
    rewrite list_lookup_fmap; [rewrite Hb | rewrite Ha]; simpl; [|rewrite Heq]; reflexivity.
Qed.

Lemma keys_insert_same (l : list Node) i existing v :
  l !! i = Some existing -> position v = position existing ->
  (key ∘ position) <$> <[i := v]> l = (key ∘ position) <$> l.
Proof.
  intros Hi Hpos. rewrite list_fmap_insert. apply list_insert_id.
  rewrite list_lookup_fmap, Hi. simpl. rewrite Hpos. reflexivity.
Qed.

Lemma keys_snoc_NoDup (l : list Node) v :
  NoDup ((key ∘ position) <$> l) ->
  (forall n, n ∈ l -> position n <> position v) ->
  NoDup ((key ∘ position) <$> (l ++ [v])).
Proof.
  intros Hnd Hfresh. rewrite fmap_app. apply NoDup_app. split; [exact Hnd|].
  split; [|apply NoDup_singleton].
  intros k Hk Hk'. apply list_elem_of_fmap in Hk as (n & -> & Hn).
  apply list_elem_of_singleton in Hk'. simpl in Hk'.
  apply (Hfresh n Hn), key_inj, Hk'.
Qed.

(** The open set after the pop: the sorted list without its head. *)
Lemma pop_split (openSet : list Node) current rest :
  JS.sort (fun a b => f a - f b <=? 0) openSet = current :: rest ->
  NoDup ((key ∘ position) <$> openSet) ->
  current ∈ openSet
  /\ (forall n, n ∈ rest -> n ∈ openSet /\ key (position n) <> key (position current))
  /\ (forall n, n ∈ openSet -> n = current \/ n ∈ rest)
  /\ NoDup ((key ∘ position) <$> rest).
Proof.
  intros Hsort Hnd. pose proof (sort_perm f openSet) as Hperm.
  cbv zeta in Hperm. rewrite Hsort in Hperm.
  assert (Hnd' : NoDup ((key ∘ position) <$> (current :: rest))).
  { rewrite Hperm. exact Hnd. }
  rewrite fmap_cons in Hnd'. apply NoDup_cons in Hnd' as [Hhead Hrest].
  split; [rewrite <- Hperm; left|].
  split; [|split; [|exact Hrest]].
  - intros n Hn. split; [rewrite <- Hperm; right; exact Hn|].
    intros Heq. apply Hhead.
    apply list_elem_of_fmap. exists n. split; [simpl; congruence | exact Hn].
  - intros n Hn. rewrite <- Hperm in Hn. apply elem_of_cons in Hn. exact Hn.
Qed.

(** *** Unreachable goals *)

(** [Connected m occupied from q]: some sequence of 4-directional unit
    steps leads from [from] to [q], each onto a walkable cell that is not
    occupied. *)
Inductive Connected (m : GameMap) (occupied : list Position) (from : Position)
    : Position -> Prop :=
| connected_start : Connected m occupied from from
| connected_step p q :
    Connected m occupied from p ->
    adjacent p q ->
    isWalkable m (x q) (y q) = true ->
    ~ In q occupied ->
    Connected m occupied from q.

Section Unreachable.
Variables (m : GameMap) (occupiedPositions : list Position) (from to : Position).
Hypothesis from_valid : inGrid m from.

Let occupied : gset (Z * Z) := list_to_set (map key occupiedPositions).

Lemma occupied_In q : key q ∉ occupied -> ~ In q occupiedPositions.
Proof.
  intros Hq Hin. apply Hq. unfold occupied. apply elem_of_list_to_set.
  apply list_elem_of_In, in_map, Hin.
Qed.

(** The invariant of the search: the open cells are distinct, not closed,
    on the grid and connected to the start. *)
Record Exploring (openSet : list Node) (closedSet : gset (Z * Z)) : Prop := {
  exp_nodup : NoDup ((key ∘ position) <$> openSet);
  exp_open : forall n, n ∈ openSet ->
      (key (position n) ∉ closedSet)
      /\ inGrid m (position n)
      /\ Connected m occupiedPositions from (position n)
}.

Lemma Exploring_visit closedSet current openSet cameFrom dir state :
  key (position current) ∈ closedSet ->
  inGrid m (position current) ->
  Connected m occupiedPositions from (position current) ->
  Exploring openSet closedSet ->
  visit_spec m occupied to closedSet current openSet cameFrom dir state ->
  Exploring state.1 closedSet.
Proof.
  intros Hcur Hgrid Hconn [Hnd Hopen] Hvisit.
  destruct Hvisit as [ | | | | i existing Himp | Hnew]; try (split; assumption); simpl.
  - destruct Himp as (_ & _ & _ & Hi & Hpos & _). split.
    + erewrite keys_insert_same; [exact Hnd | exact Hi | reflexivity].
    + intros n Hn. apply elem_of_insert_inv in Hn as [->|(j & _ & Hj)];
        [|apply Hopen; apply list_elem_of_lookup; eauto].
      simpl. apply Hopen. apply list_elem_of_lookup. eauto.
  - destruct Hnew as (Hfresh & Hwalk & Hfree & Hnone). split.
    + apply keys_snoc_NoDup; [exact Hnd | exact Hnone].
    + intros n Hn. apply elem_of_app in Hn as [Hn|Hn]; [apply Hopen, Hn|].
      apply list_elem_of_singleton in Hn as ->. simpl.
      split; [exact Hfresh|]. split; [apply getNewPosition_inGrid, Hgrid|].
      destruct (getNewPosition_adjacent m (position current) dir Hgrid) as [Hsame|Hadj].
      * exfalso. apply Hfresh. rewrite Hsame. exact Hcur.
      * eapply connected_step; [exact Hconn | exact Hadj | exact Hwalk |].
        apply occupied_In, Hfree.
Qed.

Lemma Exploring_visits closedSet current dirs : forall openSet cameFrom,
  key (position current) ∈ closedSet ->
  inGrid m (position current) ->
  Connected m occupiedPositions from (position current) ->
  Exploring openSet closedSet ->
  Exploring
    (fold_left (visitNeighbor m occupied to closedSet current) dirs (openSet, cameFrom)).1
    closedSet.
Proof.
  induction dirs as [|dir dirs IH]; intros openSet cameFrom Hcur Hgrid Hconn Hexp;
    [exact Hexp|].
  cbn [fold_left].
  pose proof (visitNeighbor_spec m occupied to closedSet current openSet cameFrom dir)
    as Hvisit.
  destruct (visitNeighbor m occupied to closedSet current (openSet, cameFrom) dir)
    as [openSet' cameFrom'] eqn:E.
  apply IH; try assumption.
  apply (Exploring_visit closedSet current openSet cameFrom dir _ Hcur Hgrid Hconn Hexp Hvisit).
Qed.

Lemma searchLoop_unreachable fuel : forall bound openSet closedSet cameFrom,
  ~ Connected m occupiedPositions from to ->
  Exploring openSet closedSet ->
  (unclosed m closedSet < fuel)%nat ->
  searchLoop fuel bound m occupied to openSet closedSet cameFrom = Some [].
Proof.
  induction fuel as [|fuel IH]; intros bound openSet closedSet cameFrom Hno Hexp Hfuel;
    [lia|].
  cbn [searchLoop]. destruct (JS.sort _ openSet) as [|current rest] eqn:Hsort; [reflexivity|].
  destruct (pop_split _ _ _ Hsort (exp_nodup _ _ Hexp)) as (Hcur & Hrest & _ & Hnd).
  destruct (exp_open _ _ Hexp current Hcur) as (Hfresh & Hgrid & Hconn).
  destruct ((x (position current) =? x to) && (y (position current) =? y to)) eqn:Hgoal.
  { apply at_goal in Hgoal. rewrite Hgoal in Hconn. contradiction. }
  set (closedSet' := {[key (position current)]} ∪ closedSet).
  assert (Hexp' : Exploring rest closedSet').
  { split; [exact Hnd|]. intros n Hn. destruct (Hrest n Hn) as [Hin Hne].
    destruct (exp_open _ _ Hexp n Hin) as (Hf & Hg & Hc).
    split; [unfold closedSet'; set_solver | split; assumption]. }
  pose proof (Exploring_visits closedSet' current [up; down; left; right]
                rest cameFrom ltac:(unfold closedSet'; set_solver) Hgrid Hconn Hexp') as Hafter.
  fold closedSet'.
  destruct (fold_left _ _ (rest, cameFrom)) as [openSet' cameFrom'].
  apply IH; [exact Hno | exact Hafter |].
  pose proof (unclosed_lt m (key (position current)) closedSet
                (cells_inGrid m _ Hgrid) Hfresh).
  unfold closedSet'. lia.
Qed.

Lemma findPath_unreachable :
  ~ Connected m occupiedPositions from to ->
  findPath m from to occupiedPositions = Some [].
Proof.
  intros Hno. unfold findPath. apply searchLoop_unreachable; [exact Hno | |].
  - split.
    + simpl. apply NoDup_singleton.
    + intros n Hn. apply list_elem_of_singleton in Hn as ->. simpl.
      split; [set_solver|]. split; [exact from_valid | apply connected_start].
  - rewrite unclosed_empty, cells_length. unfold searchFuel. lia.
Qed.

End Unreachable.

(** *** The open grid *)

Section OpenGrid.
Variables (m : GameMap) (occupied : gset (Z * Z)) (from to : Position).
Hypothesis all_walkable :
  forall x y, 0 <= x < width m -> 0 <= y < height m -> isWalkable m x y = true.
Hypothesis none_occupied : forall k, k ∉ occupied.
Hypothesis from_valid : inGrid m from.
Hypothesis to_valid : inGrid m to.

(** Steps walked from the start, steps left to the goal, and the Manhattan
    distance between the two. *)
Let walked (p : Position) : Z := heuristic from p.
Let left_to_go (p : Position) : Z := heuristic p to.
Let D : Z := heuristic from to.

(** An open node: not closed, on the grid, scored with the heuristic, at
    least as far in steps as in distance, and linked by [cameFrom] to a
    closed cell whose chain has the length of its distance. *)
Record OpenOk (closedSet : gset (Z * Z)) (cameFrom : gmap (Z * Z) Position)
    (n : Node) : Prop := {
  open_fresh : key (position n) ∉ closedSet;
  open_grid : inGrid m (position n);
  open_f : f n = g n + left_to_go (position n);
  open_near : walked (position n) <= g n;
  open_link : exists p,
      cameFrom !! key (position n) = Some p
      /\ ClosedChain from cameFrom closedSet p (Z.to_nat (walked p))
      /\ g n = walked p + 1
}.

(** A closed cell: on the grid, on a shortest way from the start to the
    goal, short of the goal, its chain as long as its distance. *)
Record ClosedOk (closedSet : gset (Z * Z)) (cameFrom : gmap (Z * Z) Position)
    (k : Z * Z) : Prop := {
  closed_grid : inGrid m (cell k);
  closed_box : walked (cell k) + left_to_go (cell k) = D;
  closed_short : cell k <> to;
  closed_chain : ClosedChain from cameFrom closedSet (cell k) (Z.to_nat (walked (cell k)))
}.

(** The cell one step nearer to the goal is closed, or open with the
    least possible score. *)
Definition Frontier (openSet : list Node) (closedSet : gset (Z * Z)) (k : Z * Z) : Prop :=
  let nearer := getNewPosition m (cell k) (toward (cell k) to) in
  key nearer ∈ closedSet
  \/ exists n, n ∈ openSet /\ position n = nearer /\ f n = D.

Record Running (openSet : list Node) (closedSet : gset (Z * Z))
    (cameFrom : gmap (Z * Z) Position) : Prop := {
  run_nodup : NoDup ((key ∘ position) <$> openSet);
  run_open : forall n, n ∈ openSet -> OpenOk closedSet cameFrom n;
  run_closed : forall k, k ∈ closedSet -> ClosedOk closedSet cameFrom k;
  run_from : key from ∈ closedSet;
  run_frontier : forall k, k ∈ closedSet -> Frontier openSet closedSet k
}.

(** The same between the pop of [current] and the end of its four visits. *)
Record Visiting (current : Node) (openSet : list Node) (closedSet : gset (Z * Z))
    (cameFrom : gmap (Z * Z) Position) : Prop := {
  vis_nodup : NoDup ((key ∘ position) <$> openSet);
  vis_open : forall n, n ∈ openSet -> OpenOk closedSet cameFrom n;
  vis_closed : forall k, k ∈ closedSet -> ClosedOk closedSet cameFrom k;
  vis_from : key from ∈ closedSet;
  vis_frontier : forall k, k ∈ closedSet -> k <> key (position current) ->
      Frontier openSet closedSet k;
  vis_current : key (position current) ∈ closedSet;
  vis_current_g : g current = walked (position current)
}.

(** The neighbour in direction [dir] is closed, or open at no more than one
    step beyond [current]. *)
Definition Reached (current : Node) (openSet : list Node) (closedSet : gset (Z * Z))
    (dir : Direction) : Prop :=
  let neighbor := getNewPosition m (position current) dir in
  key neighbor ∈ closedSet
  \/ exists n, n ∈ openSet /\ position n = neighbor /\ g n <= g current + 1.

(** Every node of the first open set is still there, no worse. *)
Definition Improves (openSet openSet' : list Node) : Prop :=
  forall n, n ∈ openSet ->
  exists n', n' ∈ openSet' /\ position n' = position n /\ g n' <= g n /\ f n' <= f n.

Lemma OpenOk_score closedSet cameFrom n :
  OpenOk closedSet cameFrom n -> D <= f n.
Proof.
  intros [_ _ Hf Hnear _]. rewrite Hf.
  pose proof (heuristic_triangle from (position n) to).
  unfold walked, left_to_go, D in *. lia.
Qed.

Lemma OpenOk_update closedSet cameFrom n k p :
  OpenOk closedSet cameFrom n ->
  key (position n) <> k -> k ∉ closedSet ->
  OpenOk closedSet (<[k := p]> cameFrom) n.
Proof.
  intros [Hfresh Hgrid Hf Hnear (q & Hq & Hchain & Hg)] Hne Hk.
  split; try assumption. exists q.
  split; [rewrite lookup_insert_ne by congruence; exact Hq|].
  split; [|exact Hg].
  eapply ClosedChain_mono; [exact Hchain | reflexivity |].
  intros k' Hk'. apply lookup_insert_ne. intros ->. contradiction.
Qed.

Lemma ClosedOk_update closedSet cameFrom c k p :
  ClosedOk closedSet cameFrom c ->
  k ∉ closedSet ->
  ClosedOk closedSet (<[k := p]> cameFrom) c.
Proof.
  intros [Hgrid Hbox Hshort Hchain] Hk. split; try assumption.
  eapply ClosedChain_mono; [exact Hchain | reflexivity |].
  intros k' Hk'. apply lookup_insert_ne. intros ->. contradiction.
Qed.

(** A node at the neighbour of [current], one step beyond it. *)
Lemma OpenOk_neighbor current openSet closedSet cameFrom dir v :
  Visiting current openSet closedSet cameFrom ->
  let neighbor := getNewPosition m (position current) dir in
  key neighbor ∉ closedSet ->
  position v = neighbor ->
  g v = g current + 1 ->
  f v = g current + 1 + heuristic neighbor to ->
  OpenOk closedSet (<[key neighbor := position current]> cameFrom) v.
Proof.
  intros Hvis neighbor Hfresh Hpos Hg Hf.
  destruct (vis_closed _ _ _ _ Hvis _ (vis_current _ _ _ _ Hvis))
    as [Hgrid Hbox Hshort Hchain].
  rewrite cell_key in *.
  pose proof (vis_current_g _ _ _ _ Hvis) as Hcg.
  destruct (heuristic_step m (position current) dir from Hgrid) as [Hstep _].
  split.
  - rewrite Hpos. exact Hfresh.
  - rewrite Hpos. apply getNewPosition_inGrid, Hgrid.
  - rewrite Hf, Hg, Hpos. reflexivity.
  - rewrite Hpos, Hg, Hcg. exact Hstep.
  - exists (position current). rewrite Hpos.
    split; [apply lookup_insert_eq|]. split; [|rewrite Hg, Hcg; reflexivity].
    eapply ClosedChain_mono; [exact Hchain | reflexivity |].
    intros k Hk. apply lookup_insert_ne. intros <-. contradiction.
Qed.

Lemma Visiting_visit current openSet closedSet cameFrom dir state :
  Visiting current openSet closedSet cameFrom ->
  visit_spec m occupied to closedSet current openSet cameFrom dir state ->
  Visiting current state.1 closedSet state.2
  /\ Reached current state.1 closedSet dir
  /\ Improves openSet state.1.
Proof.
  intros Hvis Hvisit.
  pose proof Hvis as [Hnd Hopen Hclosed Hfrom Hfront Hcur Hcg].
  destruct (Hclosed _ Hcur) as [Hgrid _ _ _]. rewrite cell_key in Hgrid.
  assert (Hsame : Improves openSet openSet).
  { intros n Hn. exists n. repeat split; [exact Hn | lia | lia]. }
  destruct Hvisit as [Hc | Hblocked | Hocc | i existing Hi Hpos Hle
                     | i existing Himp | Hnew]; simpl.
  - split; [exact Hvis | split; [left; exact Hc | exact Hsame]].
  - exfalso. simpl in Hblocked.
    pose proof (getNewPosition_inGrid m _ dir Hgrid) as [Hx Hy].
    rewrite (all_walkable _ _ Hx Hy) in Hblocked. discriminate.
  - exfalso. exact (none_occupied _ Hocc).
  - split; [exact Hvis | split; [|exact Hsame]].
    right. exists existing. split; [apply list_elem_of_lookup; eauto | auto].
  - destruct Himp as (Hfresh & _ & _ & Hi & Hpos & Hlt).
    set (neighbor := getNewPosition m (position current) dir) in *.
    set (v := improved to current neighbor existing).
    assert (Hv : OpenOk closedSet (<[key neighbor := position current]> cameFrom) v).
    { apply (OpenOk_neighbor current openSet closedSet cameFrom dir v Hvis Hfresh);
        [exact Hpos | reflexivity | reflexivity]. }
    assert (Hin : v ∈ <[i := v]> openSet).
    { apply list_elem_of_insert. eapply lookup_lt_Some, Hi. }
    assert (Himpr : Improves openSet (<[i := v]> openSet)).
    { intros n Hn. apply list_elem_of_lookup in Hn as [j Hj].
      destruct (decide (j = i)) as [->|Hne].
      - rewrite Hi in Hj. injection Hj as <-. exists v.
        split; [exact Hin|]. split; [reflexivity|].
        pose proof (open_f _ _ _ (Hopen existing ltac:(apply list_elem_of_lookup; eauto))) as Hf.
        simpl. rewrite Hf, Hpos. unfold left_to_go. lia.
      - exists n. split; [|repeat split; lia].
        apply list_elem_of_lookup. exists j. rewrite list_lookup_insert_ne by auto. exact Hj. }
    split; [split|split; [|exact Himpr]]; try assumption.
    + erewrite keys_insert_same; [exact Hnd | exact Hi | reflexivity].
    + intros n Hn. apply elem_of_insert_inv in Hn as [->|(j & Hne & Hj)]; [exact Hv|].
      apply OpenOk_update; [apply Hopen, list_elem_of_lookup; eauto | | exact Hfresh].
      intros Hk. apply key_inj in Hk.
      apply (keys_NoDup_lookup openSet i j existing n Hnd Hi Hj Hne). congruence.
    + intros k Hk. apply ClosedOk_update; [apply Hclosed, Hk | exact Hfresh].
    + intros k Hk Hne. destruct (Hfront k Hk Hne) as [Hin'|(n & Hn & Hnpos & Hnf)];
        [left; exact Hin'|]. right.
      destruct (Himpr n Hn) as (n' & Hn' & Hpos' & _ & Hf').
      exists n'. split; [exact Hn'|]. split; [congruence|].
      assert (Hok : OpenOk closedSet (<[key neighbor := position current]> cameFrom) n').
      { apply elem_of_insert_inv in Hn' as [->|(j & Hne' & Hj)]; [exact Hv|].
        apply OpenOk_update; [apply Hopen, list_elem_of_lookup; eauto | | exact Hfresh].
        intros Hk'. apply key_inj in Hk'.
        apply (keys_NoDup_lookup openSet i j existing n' Hnd Hi Hj Hne'). congruence. }
      pose proof (OpenOk_score _ _ _ Hok). lia.
    + right. exists v. split; [exact Hin|]. split; [exact Hpos | simpl; lia].
  - destruct Hnew as (Hfresh & _ & _ & Hnone).
    set (neighbor := getNewPosition m (position current) dir) in *.
    set (v := neighborNode to current neighbor).
    assert (Hv : OpenOk closedSet (<[key neighbor := position current]> cameFrom) v).
    { apply (OpenOk_neighbor current openSet closedSet cameFrom dir v Hvis Hfresh);
        reflexivity. }
    assert (Himpr : Improves openSet (openSet ++ [v])).
    { intros n Hn. exists n. split; [apply elem_of_app; left; exact Hn|].
      repeat split; lia. }
    assert (Hold : forall n, n ∈ openSet ->
              OpenOk closedSet (<[key neighbor := position current]> cameFrom) n).
    { intros n Hn. apply OpenOk_update; [apply Hopen, Hn | | exact Hfresh].
      intros Hk. apply key_inj in Hk. exact (Hnone n Hn Hk). }
    split; [split|split; [|exact Himpr]]; try assumption.
    + apply keys_snoc_NoDup; [exact Hnd | exact Hnone].
    + intros n Hn. apply elem_of_app in Hn as [Hn|Hn]; [apply Hold, Hn|].
      apply list_elem_of_singleton in Hn as ->. exact Hv.
    + intros k Hk. apply ClosedOk_update; [apply Hclosed, Hk | exact Hfresh].
    + intros k Hk Hne. destruct (Hfront k Hk Hne) as [Hin'|(n & Hn & Hnpos & Hnf)];
        [left; exact Hin'|]. right.
      exists n. split; [apply elem_of_app; left; exact Hn | auto].
    + right. exists v. split; [apply elem_of_app; right; apply list_elem_of_singleton; reflexivity|].
      split; [reflexivity | simpl; lia].
Qed.

Lemma Improves_trans l1 l2 l3 : Improves l1 l2 -> Improves l2 l3 -> Improves l1 l3.
Proof.
  intros H12 H23 n Hn. destruct (H12 n Hn) as (n2 & Hn2 & Hp2 & Hg2 & Hf2).
  destruct (H23 n2 Hn2) as (n3 & Hn3 & Hp3 & Hg3 & Hf3).
  exists n3. split; [exact Hn3|]. split; [congruence | lia].
Qed.

Lemma Reached_improves current openSet openSet' closedSet dir :
  Reached current openSet closedSet dir ->
  Improves openSet openSet' ->
  Reached current openSet' closedSet dir.
Proof.
  intros [Hc|(n & Hn & Hpos & Hg)] Himpr; [left; exact Hc|]. right.
  destruct (Himpr n Hn) as (n' & Hn' & Hpos' & Hg' & _).
  exists n'. split; [exact Hn'|]. split; [congruence | lia].
Qed.

(** The four visits of one iteration. *)
Lemma Visiting_visits current closedSet dirs : forall openSet cameFrom,
  Visiting current openSet closedSet cameFrom ->
  let state :=
    fold_left (visitNeighbor m occupied to closedSet current) dirs (openSet, cameFrom) in
  Visiting current state.1 closedSet state.2
  /\ (forall dir, dir ∈ dirs -> Reached current state.1 closedSet dir)
  /\ Improves openSet state.1.
Proof.
  induction dirs as [|dir dirs IH]; intros openSet cameFrom Hvis; cbn [fold_left].
  - split; [exact Hvis|]. split; [intros dir Hdir; inversion Hdir|].
    intros n Hn. exists n. repeat split; [exact Hn | lia | lia].
  - pose proof (visitNeighbor_spec m occupied to closedSet current openSet cameFrom dir)
      as Hvisit.
    destruct (visitNeighbor m occupied to closedSet current (openSet, cameFrom) dir)
      as [openSet1 cameFrom1].
    destruct (Visiting_visit _ _ _ _ _ _ Hvis Hvisit) as (Hvis1 & Hreach1 & Himpr1).
    simpl in Hvis1, Hreach1, Himpr1.
    destruct (IH openSet1 cameFrom1 Hvis1) as (Hvis2 & Hreach2 & Himpr2).
    split; [exact Hvis2|]. split; [|eapply Improves_trans; eassumption].
    intros dir' Hdir'. apply elem_of_cons in Hdir' as [->|Hdir'].
    + eapply Reached_improves; eassumption.
    + apply Hreach2, Hdir'.
Qed.

(** Once the step towards the goal has been visited, the invariant of the
    loop holds again. *)
Lemma Visiting_done current openSet closedSet cameFrom :
  Visiting current openSet closedSet cameFrom ->
  Reached current openSet closedSet (toward (position current) to) ->
  Running openSet closedSet cameFrom.
Proof.
  intros [Hnd Hopen Hclosed Hfrom Hfront Hcur Hcg] Hreach.
  split; try assumption.
  intros k Hk. destruct (decide (k = key (position current))) as [->|Hne];
    [|apply Hfront; assumption].
  destruct (Hclosed _ Hcur) as [Hgrid Hbox Hshort _].
  unfold Frontier. rewrite cell_key in *.
  destruct Hreach as [Hc|(n & Hn & Hpos & Hg)]; [left; exact Hc|]. right.
  exists n. split; [exact Hn|]. split; [exact Hpos|].
  pose proof (OpenOk_score _ _ _ (Hopen n Hn)) as Hlow.
  pose proof (open_f _ _ _ (Hopen n Hn)) as Hf.
  pose proof (toward_nearer m _ _ Hgrid to_valid Hshort) as Hnear.
  rewrite Hpos in Hf. unfold left_to_go, walked, D in *. lia.
Qed.

(** While the search runs, some open node has the least possible score. *)
Lemma Running_frontier_node openSet closedSet cameFrom :
  Running openSet closedSet cameFrom ->
  exists n, n ∈ openSet /\ f n = D.
Proof.
  intros [_ _ Hclosed Hfrom Hfront].
  assert (Hwalk : forall (steps : nat) k, k ∈ closedSet ->
            (Z.to_nat (left_to_go (cell k)) <= steps)%nat ->
            exists n, n ∈ openSet /\ f n = D).
  { induction steps as [|steps IH]; intros k Hk Hsteps;
      destruct (Hclosed k Hk) as [Hgrid _ Hshort _].
    - exfalso. apply Hshort, heuristic_zero.
      unfold left_to_go, heuristic in *. lia.
    - destruct (Hfront k Hk) as [Hc|(n & Hn & _ & Hf)]; [|eauto].
      apply (IH _ Hc). rewrite cell_key.
      pose proof (toward_nearer m _ _ Hgrid to_valid Hshort).
      unfold left_to_go in *. lia. }
  exact (Hwalk _ _ Hfrom (Nat.le_refl _)).
Qed.

(** The node that is popped reached its cell by a shortest way. *)
Lemma Running_pop openSet closedSet cameFrom current rest :
  Running openSet closedSet cameFrom ->
  JS.sort (fun a b => f a - f b <=? 0) openSet = current :: rest ->
  OpenOk closedSet cameFrom current
  /\ g current = walked (position current)
  /\ walked (position current) + left_to_go (position current) = D
  /\ (position current <> to ->
      Visiting current rest ({[key (position current)]} ∪ closedSet) cameFrom).
Proof.
  intros Hrun Hsort. pose proof Hrun as [Hnd Hopen Hclosed Hfrom Hfront].
  destruct (pop_split _ _ _ Hsort Hnd) as (Hcur & Hrest & Hsplit & Hnd').
  pose proof (Hopen _ Hcur) as Hok.
  destruct (Running_frontier_node _ _ _ Hrun) as (best & Hbest & Hscore).
  pose proof (sort_head_min f openSet current rest Hsort best Hbest) as Hmin.
  pose proof (OpenOk_score _ _ _ Hok) as Hlow.
  pose proof Hok as [Hfresh Hgrid Hf Hnear (p & Hp & Hchain & Hg)].
  pose proof (heuristic_triangle from (position current) to) as Htri.
  assert (Hexact : g current = walked (position current))
    by (unfold walked, left_to_go, D in *; lia).
  assert (Hbox : walked (position current) + left_to_go (position current) = D)
    by (unfold walked, left_to_go, D in *; lia).
  split; [exact Hok|]. split; [exact Hexact|]. split; [exact Hbox|].
  intros Hshort.
  assert (Hmono : forall c n, ClosedChain from cameFrom closedSet c n ->
            ClosedChain from cameFrom ({[key (position current)]} ∪ closedSet) c n).
  { intros c n Hc. eapply ClosedChain_mono; [exact Hc | set_solver | reflexivity]. }
  split.
  - exact Hnd'.
  - intros n Hn. destruct (Hrest n Hn) as [Hin Hne].
    destruct (Hopen n Hin) as [Hfresh' Hgrid' Hf' Hnear' (q & Hq & Hqc & Hqg)].
    split; try assumption; [set_solver|].
    exists q. split; [exact Hq|]. split; [apply Hmono, Hqc | exact Hqg].
  - intros k Hk. apply elem_of_union in Hk as [Hk|Hk].
    + apply elem_of_singleton in Hk as ->. rewrite <- (cell_key (position current)) in *.
      rewrite key_cell. rewrite !cell_key in *. split; rewrite ?cell_key; try assumption.
      replace (Z.to_nat (walked (position current)))
        with (S (Z.to_nat (walked p))).
      * apply (chain_link _ _ _ _ p); [set_solver | exact Hp | apply Hmono, Hchain].
      * unfold walked, heuristic in *. lia.
    + destruct (Hclosed k Hk) as [Hg' Hb' Hs' Hc']. split; try assumption.
      apply Hmono, Hc'.
  - set_solver.
  - intros k Hk Hne. apply elem_of_union in Hk as [Hk|Hk];
      [apply elem_of_singleton in Hk; contradiction|].
    destruct (Hfront k Hk) as [Hc|(n & Hn & Hpos & Hscore')]; [left; set_solver|].
    destruct (Hsplit n Hn) as [->|Hn'].
    + left. rewrite <- Hpos. set_solver.
    + right. exists n. auto.
  - set_solver.
  - exact Hexact.
Qed.

Definition GoodPath (path : list Position) : Prop :=
  length path = S (Z.to_nat D) /\ head path = Some from /\ last path = Some to.

Lemma searchLoop_open fuel : forall bound openSet closedSet cameFrom,
  Running openSet closedSet cameFrom ->
  (unclosed m closedSet < fuel)%nat ->
  (Z.to_nat D < bound)%nat ->
  exists path,
    searchLoop fuel bound m occupied to openSet closedSet cameFrom = Some path
    /\ GoodPath path.
Proof.
  induction fuel as [|fuel IH]; intros bound openSet closedSet cameFrom Hrun Hfuel Hbound;
    [lia|].
  cbn [searchLoop].
  destruct (Running_frontier_node _ _ _ Hrun) as (best & Hbest & _).
  destruct (JS.sort _ openSet) as [|current rest] eqn:Hsort.
  { exfalso. pose proof (sort_perm f openSet) as Hperm. cbv zeta in Hperm.
    rewrite Hsort in Hperm. rewrite <- Hperm in Hbest. inversion Hbest. }
  destruct (Running_pop _ _ _ _ _ Hrun Hsort) as (Hok & Hg & Hbox & Hvis).
  destruct ((x (position current) =? x to) && (y (position current) =? y to)) eqn:Hgoal.
  - apply at_goal in Hgoal.
    destruct (open_link _ _ _ Hok) as (p & Hp & Hchain & Hgp).
    assert (Hsteps : Z.to_nat D = S (Z.to_nat (walked p))).
    { rewrite Hgoal in Hg. unfold walked, D, heuristic in *. lia. }
    destruct bound as [|bound]; [lia|]. cbn [reconstructPath]. rewrite Hp.
    destruct (reconstructPath_chain _ _ _ _ _ Hchain bound [position current])
      as (path & -> & Hlen & Hhead & Hlast); [lia|].
    exists (path ++ [position current]). split; [reflexivity|].
    split; [rewrite length_app, Hlen, Hsteps; simpl; lia|].
    split; [destruct path; [discriminate | exact Hhead]|].
    rewrite last_snoc, Hgoal. reflexivity.
  - assert (Hshort : position current <> to).
    { intros Heq. apply at_goal in Heq. congruence. }
    specialize (Hvis Hshort).
    set (closedSet' := {[key (position current)]} ∪ closedSet) in *.
    destruct (Visiting_visits current closedSet' [up; down; left; right] rest cameFrom Hvis)
      as (Hvis' & Hreach & _).
    destruct (fold_left _ _ (rest, cameFrom)) as [openSet' cameFrom'].
    simpl in Hvis', Hreach.
    apply IH; [|pose proof (unclosed_lt m (key (position current)) closedSet
                              (cells_inGrid m _ (open_grid _ _ _ Hok))
                              (open_fresh _ _ _ Hok)); unfold closedSet'; lia
              |exact Hbound].
    apply (Visiting_done current); [exact Hvis'|]. apply Hreach.
    destruct (toward (position current) to); set_solver.
Qed.

End OpenGrid.

Lemma searchLoop_unfold fuel bound m occupied to openSet closedSet cameFrom :
  searchLoop (S fuel) bound m occupied to openSet closedSet cameFrom
  = match JS.sort (fun a b => f a - f b <=? 0) openSet with
    | [] => Some []
    | current :: rest =>
        if (x (position current) =? x to) && (y (position current) =? y to)
        then reconstructPath bound cameFrom (position current) []
        else
          let closedSet' := {[ key (position current) ]} ∪ closedSet in
          let '(openSet', cameFrom') :=
            fold_left (visitNeighbor m occupied to closedSet' current)
                      [up; down; left; right] (rest, cameFrom) in
          searchLoop fuel bound m occupied to openSet' closedSet' cameFrom'
    end.
Proof. reflexivity. Qed.

Lemma getDistance_heuristic a b : getDistance a b = heuristic a b.
Proof. unfold getDistance, heuristic. lia. Qed.

(** On a grid of walkable cells, with no cell occupied, the search between
    two cells returns a path of Manhattan distance + 1 positions. *)
Lemma findPath_open_grid m from to :
  (forall x y, 0 <= x < width m -> 0 <= y < height m -> isWalkable m x y = true) ->
  inGrid m from -> inGrid m to ->
  exists path,
    findPath m from to [] = Some path
    /\ length path = S (Z.to_nat (getDistance from to))
    /\ head path = Some from
    /\ last path = Some to.
Proof.
  intros Hwalk Hfrom Hto. rewrite getDistance_heuristic.
  unfold findPath, searchFuel.
  set (occupied := (list_to_set (map key []) : gset (Z * Z))).
  assert (Hnone : forall k, k ∉ occupied) by (intros k; unfold occupied; set_solver).
  set (start := {| position := from; g := 0; f := heuristic from to; parent := None |}).
  set (area := (Z.to_nat (width m) * Z.to_nat (height m))%nat).
  assert (Harea : (Z.to_nat (heuristic from to) <= area)%nat).
  { unfold area, inGrid, heuristic in *. rewrite <- Z2Nat.inj_mul by lia.
    apply Z2Nat.inj_le; nia. }
  rewrite searchLoop_unfold. cbn [JS.sort fold_right JS.insertSorted].
  destruct ((x (position start) =? x to) && (y (position start) =? y to)) eqn:Hgoal.
  - apply at_goal in Hgoal. simpl in Hgoal. subst to.
    cbn [reconstructPath]. rewrite lookup_empty. exists [from].
    split; [reflexivity|]. split; [|split; reflexivity].
    unfold heuristic. simpl. f_equal. lia.
  - assert (Hshort : from <> to).
    { intros Heq. assert (position start = to) by exact Heq.
      apply at_goal in H. congruence. }
    set (closedSet := ({[key (position start)]} ∪ ∅ : gset (Z * Z))).
    assert (Hvis : Visiting m from to start [] closedSet ∅).
    { split.
      - constructor.
      - intros n Hn. inversion Hn.
      - intros k Hk. assert (k = key from) as -> by (unfold closedSet in Hk; set_solver).
        split; rewrite cell_key; [exact Hfrom | unfold heuristic; lia | exact Hshort |].
        replace (Z.to_nat (heuristic from from)) with 0%nat by (unfold heuristic; lia).
        apply chain_start; [unfold closedSet; set_solver | apply lookup_empty].
      - unfold closedSet. set_solver.
      - intros k Hk Hne. exfalso. apply Hne. unfold closedSet in Hk. set_solver.
      - unfold closedSet. set_solver.
      - unfold heuristic. simpl. lia. }
    destruct (Visiting_visits m occupied from to Hwalk Hnone start closedSet
                [up; down; left; right] [] ∅ Hvis) as (Hvis' & Hreach & _).
    cbv zeta. fold closedSet.
    destruct (fold_left _ _ ([], ∅)) as [openSet' cameFrom'].
    simpl in Hvis', Hreach.
    apply (searchLoop_open m occupied from to Hwalk Hnone Hfrom Hto).
    + apply (Visiting_done m from to Hto start); [exact Hvis'|]. apply Hreach.
      destruct (toward (position start) to); set_solver.
    + pose proof (unclosed_le m (key (position start)) ∅) as Hle.
      rewrite unclosed_empty, cells_length in Hle. fold closedSet area in Hle. lia.
    + lia.
Qed.

(** *** The search always returns *)

Section Total.
Variables (m : GameMap) (occupied : gset (Z * Z)) (from to : Position).

(** Iterations still possible: one per unclosed cell of the grid, and one
    for the start while it is open. *)
Definition potential (closedSet : gset (Z * Z)) : nat :=
  (unclosed m closedSet + if decide (key from ∈ closedSet) then 0 else 1)%nat.

Lemma potential_pop k closedSet :
  k ∉ closedSet -> k = key from \/ k ∈ cells m ->
  (potential ({[k]} ∪ closedSet) < potential closedSet)%nat.
Proof.
  intros Hfresh Hwhere. unfold potential.
  pose proof (unclosed_le m k closedSet) as Hle.
  destruct (decide (key from ∈ {[k]} ∪ closedSet)) as [Hin|Hout];
    destruct (decide (key from ∈ closedSet)) as [Hin'|Hout'].
  - destruct Hwhere as [->|Hcell]; [contradiction|].
    pose proof (unclosed_lt m k closedSet Hcell Hfresh). lia.
  - lia.
  - exfalso. apply Hout. set_solver.
  - destruct Hwhere as [->|Hcell]; [exfalso; apply Hout; set_solver|].
    pose proof (unclosed_lt m k closedSet Hcell Hfresh). lia.
Qed.

(** After [i] iterations: the open nodes are distinct, not closed, on the
    grid, and linked by [cameFrom] to a closed cell whose chain is shorter
    than [i]. *)
Record Searching (i : nat) (openSet : list Node) (closedSet : gset (Z * Z))
    (cameFrom : gmap (Z * Z) Position) : Prop := {
  srch_nodup : NoDup ((key ∘ position) <$> openSet);
  srch_open : forall n, n ∈ openSet ->
      (key (position n) ∉ closedSet)
      /\ inGrid m (position n)
      /\ exists p k,
           cameFrom !! key (position n) = Some p
           /\ ClosedChain from cameFrom closedSet p k
           /\ (k < i)%nat
}.

Lemma Searching_visit i current kc openSet closedSet cameFrom dir state :
  ClosedChain from cameFrom closedSet (position current) kc ->
  (kc < i)%nat ->
  Searching i openSet closedSet cameFrom ->
  visit_spec m occupied to closedSet current openSet cameFrom dir state ->
  Searching i state.1 closedSet state.2
  /\ ClosedChain from state.2 closedSet (position current) kc.
Proof.
  intros Hchain Hkc [Hnd Hopen] Hvisit.
  assert (Hupd : forall k p c n, k ∉ closedSet ->
            ClosedChain from cameFrom closedSet c n ->
            ClosedChain from (<[k := p]> cameFrom) closedSet c n).
  { intros k p c n Hk Hc. eapply ClosedChain_mono; [exact Hc | reflexivity |].
    intros k' Hk'. apply lookup_insert_ne. intros ->. contradiction. }
  destruct Hvisit as [ | | | | i' existing Himp | Hnew]; simpl;
    try (split; [split; assumption | assumption]).
  - destruct Himp as (Hfresh & Hwalk & _ & Hi & Hpos & _).
    split; [split|apply Hupd; assumption].
    + erewrite keys_insert_same; [exact Hnd | exact Hi | reflexivity].
    + intros n Hn. apply elem_of_insert_inv in Hn as [->|(j & Hne & Hj)].
      * simpl. rewrite Hpos. split; [exact Hfresh|].
        split; [apply isWalkable_inGrid, Hwalk|].
        exists (position current), kc. rewrite lookup_insert_eq.
        split; [reflexivity|]. split; [apply Hupd; assumption | exact Hkc].
      * destruct (Hopen n ltac:(apply list_elem_of_lookup; eauto))
          as (Hf & Hg & p & k & Hp & Hc & Hk).
        split; [exact Hf|]. split; [exact Hg|]. exists p, k.
        split; [|split; [apply Hupd; assumption | exact Hk]].
        rewrite lookup_insert_ne; [exact Hp|]. intros Heq. apply key_inj in Heq.
        apply (keys_NoDup_lookup openSet i' j existing n Hnd Hi Hj Hne). congruence.
  - destruct Hnew as (Hfresh & Hwalk & _ & Hnone).
    split; [split|apply Hupd; assumption].
    + apply keys_snoc_NoDup; [exact Hnd | exact Hnone].
    + intros n Hn. apply elem_of_app in Hn as [Hn|Hn].
      * destruct (Hopen n Hn) as (Hf & Hg & p & k & Hp & Hc & Hk).
        split; [exact Hf|]. split; [exact Hg|]. exists p, k.
        split; [|split; [apply Hupd; assumption | exact Hk]].
        rewrite lookup_insert_ne; [exact Hp|]. intros Heq. apply key_inj in Heq.
        exact (Hnone n Hn (eq_sym Heq)).
      * apply list_elem_of_singleton in Hn as ->. simpl. split; [exact Hfresh|].
        split; [apply isWalkable_inGrid, Hwalk|].
        exists (position current), kc. rewrite lookup_insert_eq.
        split; [reflexivity|]. split; [apply Hupd; assumption | exact Hkc].
Qed.

Lemma Searching_visits i current kc closedSet dirs : forall openSet cameFrom,
  ClosedChain from cameFrom closedSet (position current) kc ->
  (kc < i)%nat ->
  Searching i openSet closedSet cameFrom ->
  let state :=
    fold_left (visitNeighbor m occupied to closedSet current) dirs (openSet, cameFrom) in
  Searching i state.1 closedSet state.2.
Proof.
  induction dirs as [|dir dirs IH]; intros openSet cameFrom Hchain Hkc Hsearch;
    cbn [fold_left]; [exact Hsearch|].
  pose proof (visitNeighbor_spec m occupied to closedSet current openSet cameFrom dir)
    as Hvisit.
  destruct (visitNeighbor m occupied to closedSet current (openSet, cameFrom) dir)
    as [openSet1 cameFrom1].
  destruct (Searching_visit _ _ _ _ _ _ _ _ Hchain Hkc Hsearch Hvisit) as [Hs1 Hc1].
  apply IH; assumption.
Qed.

Lemma searchLoop_total fuel : forall i bound openSet closedSet cameFrom,
  Searching i openSet closedSet cameFrom ->
  (potential closedSet < fuel)%nat ->
  (i + potential closedSet < bound)%nat ->
  exists path, searchLoop fuel bound m occupied to openSet closedSet cameFrom = Some path.
Proof.
  induction fuel as [|fuel IH];
    intros i bound openSet closedSet cameFrom Hsearch Hfuel Hbound; [lia|].
  rewrite searchLoop_unfold.
  destruct (JS.sort _ openSet) as [|current rest] eqn:Hsort; [eauto|].
  destruct (pop_split _ _ _ Hsort (srch_nodup _ _ _ _ Hsearch))
    as (Hcur & Hrest & _ & Hnd).
  destruct (srch_open _ _ _ _ Hsearch current Hcur)
    as (Hfresh & Hgrid & p & k & Hp & Hchain & Hk).
  destruct ((x (position current) =? x to) && (y (position current) =? y to)).
  - destruct bound as [|bound]; [lia|]. cbn [reconstructPath]. rewrite Hp.
    destruct (reconstructPath_chain _ _ _ _ _ Hchain bound [position current])
      as (path & -> & _); [lia | eauto].
  - cbv zeta. set (closedSet' := {[key (position current)]} ∪ closedSet).
    assert (Hmono : forall c n, ClosedChain from cameFrom closedSet c n ->
              ClosedChain from cameFrom closedSet' c n).
    { intros c n Hc. eapply ClosedChain_mono; [exact Hc | | reflexivity].
      unfold closedSet'. set_solver. }
    assert (Hcurrent : ClosedChain from cameFrom closedSet' (position current) (S k)).
    { apply (chain_link _ _ _ _ p); [unfold closedSet'; set_solver | exact Hp |].
      apply Hmono, Hchain. }
    assert (Hsearch' : Searching (S i) rest closedSet' cameFrom).
    { split; [exact Hnd|]. intros n Hn. destruct (Hrest n Hn) as [Hin Hne].
      destruct (srch_open _ _ _ _ Hsearch n Hin) as (Hf & Hg & q & j & Hq & Hc & Hj).
      split; [unfold closedSet'; set_solver|]. split; [exact Hg|].
      exists q, j. split; [exact Hq|]. split; [apply Hmono, Hc | lia]. }
    pose proof (Searching_visits (S i) current (S k) closedSet' [up; down; left; right]
                  rest cameFrom Hcurrent ltac:(lia) Hsearch') as Hafter.
    destruct (fold_left _ _ (rest, cameFrom)) as [openSet' cameFrom'].
    pose proof (potential_pop (key (position current)) closedSet Hfresh
                  ltac:(right; apply cells_inGrid, Hgrid)) as Hdown.
    apply (IH (S i)); [exact Hafter | fold closedSet' in Hdown; lia
                      | fold closedSet' in Hdown; lia].
Qed.

End Total.

(** [findPath] returns on every input: the fuel of the model is never
    used up. *)
Lemma findPath_total m from to occupiedPositions :
  exists path, findPath m from to occupiedPositions = Some path.
Proof.
  unfold findPath, searchFuel.
  set (occupied := (list_to_set (map key occupiedPositions) : gset (Z * Z))).
  set (start := {| position := from; g := 0; f := heuristic from to; parent := None |}).
  set (area := (Z.to_nat (width m) * Z.to_nat (height m))%nat).
  rewrite searchLoop_unfold. cbn [JS.sort fold_right JS.insertSorted].
  destruct ((x (position start) =? x to) && (y (position start) =? y to)).
  { cbn [reconstructPath]. rewrite lookup_empty. eauto. }
  cbv zeta. set (closedSet := ({[key (position start)]} ∪ ∅ : gset (Z * Z))).
  assert (Hchain : ClosedChain from ∅ closedSet (position start) 0).
  { apply chain_start; [unfold closedSet; set_solver | apply lookup_empty]. }
  pose proof (Searching_visits m occupied from to 1 start 0 closedSet
                [up; down; left; right] [] ∅ Hchain ltac:(lia)
                ltac:(split; [constructor | intros n Hn; inversion Hn])) as Hafter.
  destruct (fold_left _ _ ([], ∅)) as [openSet' cameFrom'].
  assert (Hpot : (potential m from closedSet <= area)%nat).
  { unfold potential. rewrite decide_True by (unfold closedSet; set_solver).
    pose proof (unclosed_le m (key (position start)) ∅) as Hle.
    rewrite unclosed_empty, cells_length in Hle. fold closedSet area in Hle. lia. }
  apply (searchLoop_total m occupied from to (S area) 1); [exact Hafter | lia | lia].
Qed.

(** A grid whose cells are all walkable. *)
Definition allWalkable (m : GameMap) : Prop :=
  forall x y, 0 <= x < width m -> 0 <= y < height m -> isWalkable m x y = true.

(** C6, as amended. On a grid whose cells are all walkable, with no
    occupied cell, [findPath] between two cells of the grid returns a
    sequence of Manhattan distance + 1 positions that begins at [from] and
    ends at [to]. On any grid and with any occupied cells, from a cell
    [from] of the grid, when no sequence of 4-directional steps onto
    walkable, unoccupied cells leads from [from] to [to], [findPath]
    returns the empty sequence. Only the cells stepped onto count
    ([Connected]): the start cell itself is never tested, and a start that
    is a wall or is occupied does not make the result empty. *)
Theorem findPath_manhattan_or_empty :
  (forall m from to,
      allWalkable m -> inGrid m from -> inGrid m to ->
      exists path,
        findPath m from to [] = Some path
        /\ length path = S (Z.to_nat (getDistance from to))
        /\ head path = Some from
        /\ last path = Some to)
  /\ (forall m occupiedPositions from to,
        inGrid m from ->
        ~ Connected m occupiedPositions from to ->
        findPath m from to occupiedPositions = Some []).
Proof.
  split.
  - intros m from to Hwalk Hfrom Hto. apply findPath_open_grid; assumption.
  - intros m occupiedPositions from to Hfrom Hno. apply findPath_unreachable; assumption.
Qed.

(** A map made by [createEmpty] with a walkable tile is walkable all over. *)
Lemma createEmpty_allWalkable w h : allWalkable (createEmpty w h grass).
Proof.
  intros a b Ha Hb. unfold isWalkable, getTile, createEmpty in *. simpl in *.
  destruct (_ || _) eqn:E; [lia|].
  rewrite lookup_replicate_2 by lia. rewrite lookup_replicate_2 by lia. reflexivity.
Qed.

(** A corridor of three cells with a wall in the middle. *)
Definition walledCorridor : GameMap :=
  {| width := 3; height := 1; tiles := [[grass; wall; grass]]; locationBounds := [] |}.

Lemma walledCorridor_stuck q :
  Connected walledCorridor [] {| x := 0; y := 0 |} q -> q = {| x := 0; y := 0 |}.
Proof.
  induction 1 as [|p q _ IH Hadj Hwalk _]; [reflexivity|]. subst p.
  pose proof (isWalkable_inGrid _ _ Hwalk) as [Hx Hy].
  destruct q as [a b]. unfold adjacent in Hadj. simpl in *.
  assert (b = 0) as -> by lia.
  assert (a = 0 \/ a = 1) as [->| ->] by lia; [reflexivity | discriminate Hwalk].
Qed.

Lemma findPath_manhattan_or_empty_witness :
  (exists path,
     findPath (createEmpty 5 4 grass) {| x := 0; y := 0 |} {| x := 4; y := 3 |} []
     = Some path
     /\ length path = 8%nat)
  /\ findPath walledCorridor {| x := 0; y := 0 |} {| x := 2; y := 0 |} [] = Some [].
Proof.
  split.
  - destruct (proj1 findPath_manhattan_or_empty (createEmpty 5 4 grass)
                {| x := 0; y := 0 |} {| x := 4; y := 3 |})
      as (path & Hpath & Hlen & _).
    + apply createEmpty_allWalkable.
    + unfold inGrid. simpl. lia.
    + unfold inGrid. simpl. lia.
    + exists path. split; [exact Hpath | exact Hlen].
  - apply (proj2 findPath_manhattan_or_empty walledCorridor []).
    + unfold inGrid. simpl. lia.
    + intros Hconn. apply walledCorridor_stuck in Hconn. discriminate Hconn.
Defined.

(** A path in the sense of the specification: it begins at [from] and
    ends at [to], each of its positions is adjacent to the one before it,
    and every position on it, the first one included, is walkable and
    unoccupied. *)
Definition WalkablePath (m : GameMap) (occupiedPositions : list Position)
    (from to : Position) (path : list Position) : Prop :=
  head path = Some from
  /\ last path = Some to
  /\ Forall (fun p => isWalkable m (x p) (y p) = true /\ ~ In p occupiedPositions) path
  /\ (forall i p q, path !! i = Some p -> path !! S i = Some q -> adjacent p q).

(** A room of three by three cells with a wall in its middle. *)
Definition walledCentre : GameMap :=
  {| width := 3; height := 3;
     tiles := [[grass; grass; grass]; [grass; wall; grass]; [grass; grass; grass]];
     locationBounds := [] |}.

(** C6, the counterexample. The start is the wall in the middle of the
    room: no walkable, unoccupied path begins there, and yet [findPath]
    returns a path from it to the corner, of three positions. The start
    cell is put into the open set without a test; only the cells stepped
    onto are tested. *)
Theorem findPath_from_a_wall :
  isWalkable walledCentre 1 1 = false
  /\ (forall path,
        ~ WalkablePath walledCentre [] {| x := 1; y := 1 |} {| x := 2; y := 2 |} path)
  /\ findPath walledCentre {| x := 1; y := 1 |} {| x := 2; y := 2 |} []
     = Some [ {| x := 1; y := 1 |}; {| x := 1; y := 2 |}; {| x := 2; y := 2 |} ].
Proof.
  split; [reflexivity|]. split; [|vm_compute; reflexivity].
  intros path (Hhead & _ & Hall & _).
  destruct path as [|p path]; [discriminate|]. injection Hhead as ->.
  apply Forall_cons in Hall as [[Hwalk _] _]. discriminate Hwalk.
Qed.

Example findPath_runs :
  findPath (createEmpty 5 4 grass) {| x := 3; y := 3 |} {| x := 1; y := 0 |}
    [ {| x := 2; y := 1 |} ]
  = Some [ {| x := 3; y := 3 |}; {| x := 3; y := 2 |}; {| x := 3; y := 1 |};
           {| x := 3; y := 0 |}; {| x := 2; y := 0 |}; {| x := 1; y := 0 |} ].
Proof. vm_compute. reflexivity. Qed.

End GameMapSpec.

(** ** World: the snapshot round trip *)

Module WorldSpec.

(** *** Insertion-ordered maps *)

Lemma mapSet_fresh {V} key (value : V) m :
  key ∉ map fst m -> JS.mapSet key value m = m ++ [(key, value)].
Proof.
  induction m as [|[k v] m IH]; intros Hfresh; simpl; [reflexivity|].
  destruct (String.eqb_spec k key) as [->|Hne].
  - exfalso. apply Hfresh. simpl. left.
  - rewrite IH; [reflexivity|]. intros Hin. apply Hfresh. simpl. right. exact Hin.
Qed.

Lemma mapSet_keys {V} key (value : V) m :
  map fst (JS.mapSet key value m)
  = if bool_decide (key ∈ map fst m) then map fst m else map fst m ++ [key].
Proof.
  induction m as [|[k v] m IH]; simpl; [reflexivity|].
  destruct (String.eqb_spec k key) as [->|Hne]; simpl.
  - rewrite bool_decide_eq_true_2 by left. reflexivity.
  - rewrite IH. destruct (decide (key ∈ map fst m)) as [Hin|Hout].
    + rewrite !bool_decide_eq_true_2; [reflexivity | right; exact Hin | exact Hin].
    + rewrite !bool_decide_eq_false_2; [reflexivity | | exact Hout].
      intros Hin. apply elem_of_cons in Hin as [->|Hin]; contradiction.
Qed.

Lemma mapSet_NoDup {V} key (value : V) m :
  NoDup (map fst m) -> NoDup (map fst (JS.mapSet key value m)).
Proof.
  intros Hnd. rewrite mapSet_keys. case_bool_decide as Hin; [exact Hnd|].
  apply NoDup_app. split; [exact Hnd|]. split; [|apply NoDup_singleton].
  intros k Hk Hk'. apply list_elem_of_singleton in Hk' as ->. contradiction.
Qed.

Lemma mapSet_entries {V} (P : string * V -> Prop) key (value : V) m :
  Forall P m -> P (key, value) -> Forall P (JS.mapSet key value m).
Proof.
  intros Hall Hnew. induction Hall as [|[k v] m Hkv Hm IH]; simpl.
  - constructor; [exact Hnew | constructor].
  - destruct (String.eqb_spec k key) as [->|Hne]; constructor; assumption.
Qed.

(** *** The host monad *)

Lemma foldM_invariant {A S} (P : S -> Prop) (f : S -> A -> Host.M S) l :
  (forall s a o c, P s -> P (f s a o c).1) ->
  forall s o c, P s -> P (Host.foldM f l s o c).1.
Proof.
  intros Hf. induction l as [|a l IH]; intros s o c Hs; simpl; [exact Hs|].
  unfold Host.bind. pose proof (Hf s a o c Hs) as Hstep.
  destruct (f s a o c) as [s1 c1]. apply IH. exact Hstep.
Qed.

(** *** Characters *)

(** A character that is what the constructor makes of its own data: the
    stream holds the memories of the data and nothing else, the planner
    holds the plan of the data. *)
Definition Pristine (c : Character.Character) : Prop :=
  c = Character.newCharacter (Character.data c).

Lemma newCharacter_pristine d : Pristine (Character.newCharacter d).
Proof. reflexivity. Qed.

Lemma withPlan_withMemories_id d :
  Character.withPlan (Character.withMemories d (Character.memoryStream d))
    (Character.currentPlan d) = d.
Proof. destruct d; reflexivity. Qed.

Lemma serialize_deserialize d :
  Character.serialize (Character.deserialize d) = d.
Proof.
  unfold Character.serialize, Character.deserialize, Character.newCharacter. simpl.
  destruct d as [? ? ? ? ? ? ? ? ? ? ? ? plan ? ? ? ? ? ?]. destruct plan; reflexivity.
Qed.

Lemma serialize_pristine c :
  Pristine c -> Character.serialize c = Character.data c.
Proof. intros ->. apply serialize_deserialize. Qed.

Lemma deserialize_serialize c :
  Pristine c -> Character.deserialize (Character.serialize c) = c.
Proof. intros Hc. rewrite (serialize_pristine c Hc). symmetry. exact Hc. Qed.

Lemma createCharacterFromTemplate_pristine template sprite o c :
  Pristine (Character.createCharacterFromTemplate template sprite o c).1
  /\ Character.id (Character.data (Character.createCharacterFromTemplate template sprite o c).1)
     = Character.templateId template.
Proof.
  unfold Character.createCharacterFromTemplate, Host.bind, Host.ret.
  destruct (Host.now o c) as [now c1].
  destruct (Host.mapM _ _ o c1) as [memories c2].
  destruct (Host.foldM _ _ _ o c2) as [relationships c3]. simpl.
  split; [apply newCharacter_pristine | reflexivity].
Qed.

Lemma initializeDailyPlan_pristine ch day o c plan planned :
  (Character.initializeDailyPlan ch day o c).1 = Some (plan, planned) ->
  Pristine ch ->
  Pristine planned
  /\ Character.id (Character.data planned) = Character.id (Character.data ch).
Proof.
  intros Hrun Hch. destruct ch as [d st pl]. unfold Pristine, Character.newCharacter in Hch.
  simpl in Hch. injection Hch as Hst Hpl.
  unfold Character.initializeDailyPlan, Host.bind, Host.ret, Host.idSupply,
    Host.skipIds, Planner.initializeDailyPlan in Hrun. simpl in Hrun.
  destruct (Routines.getDefaultRoutine _ _) as [broad|name]; [|discriminate].
  simpl in Hrun. injection Hrun as <- <-.
  split; [|reflexivity].
  unfold Pristine, Character.newCharacter. simpl. f_equal; [exact Hst|].
  rewrite Hpl. destruct (Character.currentPlan d); reflexivity.
Qed.

(** *** The registry *)

Definition entryOk (entry : string * Character.Character) : Prop :=
  entry.1 = Character.id (Character.data entry.2) /\ Pristine entry.2.

(** A registry of pristine characters, each under its own id. *)
Definition Settled (cm : CharacterManager.CharacterManager) : Prop :=
  NoDup (map fst (CharacterManager.characters cm))
  /\ Forall entryOk (CharacterManager.characters cm).

Lemma add_settled cm c :
  Settled cm -> Pristine c -> Settled (CharacterManager.add cm c).
Proof.
  intros [Hnd Hall] Hc. split; simpl.
  - apply mapSet_NoDup, Hnd.
  - apply mapSet_entries; [exact Hall|]. split; [reflexivity | exact Hc].
Qed.

Lemma planEntries_settled day entries : forall o c planned,
  (CharacterManager.planEntries day entries o c).1 = Some planned ->
  map fst planned = map fst entries
  /\ (Forall entryOk entries -> Forall entryOk planned).
Proof.
  induction entries as [|[key ch] entries IH]; intros o c planned; simpl.
  - unfold Host.ret. simpl. intros [= <-]. split; [reflexivity | constructor].
  - unfold Host.bind, Host.ret.
    pose proof (initializeDailyPlan_pristine ch day o c) as Hone.
    destruct (Character.initializeDailyPlan ch day o c) as [[[plan ch']|] c1];
      simpl in *; [|discriminate].
    specialize (IH o c1).
    destruct (CharacterManager.planEntries day entries o c1) as [[others|] c2];
      simpl in *; [|discriminate].
    intros [= <-]. destruct (IH others eq_refl) as [Hkeys Hok].
    split; [simpl; rewrite Hkeys; reflexivity|].
    intros Hall. apply Forall_cons in Hall as [[Hk Hpr] Hall]. simpl in Hk, Hpr.
    destruct (Hone plan ch' eq_refl Hpr) as [Hpr' Hid].
    constructor; [split; simpl; congruence | apply Hok, Hall].
Qed.

Lemma initializeDailyPlans_settled cm day o c planned :
  (CharacterManager.initializeDailyPlans cm day o c).1 = Some planned ->
  Settled cm -> Settled planned.
Proof.
  unfold CharacterManager.initializeDailyPlans, Host.bind, Host.ret.
  pose proof (planEntries_settled day (CharacterManager.characters cm) o c) as Hentries.
  destruct (CharacterManager.planEntries day _ o c) as [[entries|] c1];
    simpl in *; [|discriminate].
  intros [= <-] [Hnd Hall]. destruct (Hentries entries eq_refl) as [Hkeys Hok].
  split; simpl; [rewrite Hkeys; exact Hnd | apply Hok, Hall].
Qed.

Lemma rebuild_registry l : forall acc,
  NoDup (map fst (acc ++ l)) ->
  Forall entryOk l ->
  fold_left (fun registry d =>
               let c := Character.deserialize d in
               JS.mapSet (Character.id (Character.data c)) c registry)
            (map Character.serialize (JS.mapValues l)) acc
  = acc ++ l.
Proof.
  induction l as [|[k c] l IH]; intros acc Hnd Hall; simpl.
  - rewrite app_nil_r. reflexivity.
  - apply Forall_cons in Hall as [[Hk Hc] Hall]. simpl in Hk, Hc.
    rewrite (deserialize_serialize c Hc), <- Hk.
    rewrite mapSet_fresh.
    + rewrite IH; [rewrite <- app_assoc; reflexivity | | exact Hall].
      rewrite <- app_assoc. exact Hnd.
    + rewrite map_app in Hnd. apply NoDup_app in Hnd as (_ & Hdisjoint & _).
      intros Hin. apply (Hdisjoint k Hin). simpl. left.
Qed.

Lemma deserialize_serialize_registry cm :
  Settled cm ->
  CharacterManager.deserialize (CharacterManager.serialize cm) = cm.
Proof.
  intros [Hnd Hall]. destruct cm as [l]. unfold CharacterManager.deserialize,
    CharacterManager.serialize, CharacterManager.getAll. simpl in *.
  f_equal. apply (rebuild_registry l []); assumption.
Qed.

(** *** The world *)

(** A world as the constructor leaves it: settled characters, no
    conversation yet. *)
Definition FreshWorld (w : World.World) : Prop :=
  Settled (World.registry w)
  /\ World.dialogues w = ConversationManager.newConversationManager.

(** What a world made from a template has of the template. *)
Definition MadeFrom (template : World.WorldTemplate) (w : World.World) : Prop :=
  World.worldName w = World.templateName template
  /\ World.worldDescription w = World.templateDescription template
  /\ World.worldGridSize w = World.templateGridSize template
  /\ World.worldTileSize w = World.templateTileSize template
  /\ Environment.getTree (World.surroundings w) = World.templateTree template.

Lemma construct_fresh config template o c w :
  (World.construct config template o c).1 = Some w ->
  FreshWorld w
  /\ World.worldId w = World.id config
  /\ World.worldName w = World.name config
  /\ World.worldDescription w = World.description config
  /\ World.worldGridSize w = World.gridSize config
  /\ World.worldTileSize w = World.tileSize config
  /\ Environment.getTree (World.surroundings w) = World.templateTree template.
Proof.
  unfold World.construct, Host.bind, Host.ret.
  destruct (Host.now o c) as [createdAt c1].
  destruct (Host.now o c1) as [updatedAt c2].
  pose proof (foldM_invariant Settled
                (fun registry charTemplate =>
                   let sprite :=
                     World.spriteGenerator template (Character.templateColor charTemplate)
                       (Character.templateId charTemplate) in
                   let* ch := Character.createCharacterFromTemplate charTemplate sprite in
                   Host.ret (CharacterManager.add registry ch))
                (World.templateCharacters template)) as Hfold.
  specialize (Hfold ltac:(
    intros reg t o' c' Hreg; unfold Host.bind, Host.ret;
    pose proof (createCharacterFromTemplate_pristine t
                  (World.spriteGenerator template (Character.templateColor t)
                     (Character.templateId t)) o' c') as [Hp _];
    destruct (Character.createCharacterFromTemplate t _ o' c') as [ch c''];
    simpl in *; apply add_settled; assumption)
    CharacterManager.newCharacterManager o c2 ltac:(split; constructor)).
  destruct (Host.foldM _ _ _ o c2) as [people c3]. simpl in Hfold.
  pose proof (initializeDailyPlans_settled people
                (TimeSystem.day (World.startTime config)) o c3) as Hplanned.
  destruct (CharacterManager.initializeDailyPlans people _ o c3) as [[planned|] c4];
    simpl in *; [|discriminate].
  intros [= <-]. simpl.
  split; [split; [exact (Hplanned planned eq_refl Hfold) | reflexivity]|].
  repeat split; reflexivity.
Qed.

Lemma fromTemplate_fresh template o c w :
  (World.fromTemplate template o c).1 = Some w ->
  FreshWorld w /\ MadeFrom template w.
Proof.
  unfold World.fromTemplate, Host.bind. destruct (Host.freshId o c) as [newId c1].
  intros Hmade. apply construct_fresh in Hmade as (Hfresh & _ & Hn & Hd & Hg & Ht & He).
  split; [exact Hfresh|]. repeat split; assumption.
Qed.

(** Loading the snapshot of a fresh world into it changes nothing. *)
Lemma loadState_serialize w o c :
  FreshWorld w ->
  World.loadState (World.serialize w o c).1.2 (World.serialize w o c).1.1
  = (World.serialize w o c).1.2.
Proof.
  intros [Hreg Hdial]. unfold World.serialize, World.loadState, Host.bind, Host.ret.
  destruct (Host.now o c) as [stamp c1]. simpl.
  rewrite (deserialize_serialize_registry _ Hreg), Hdial.
  destruct (World.clock w) as [t]. reflexivity.
Qed.

(** The snapshot that a world gives after it has loaded a state: the
    identity of the world, the content of the state, and the clock reading
    of the call. *)
Lemma serialize_loadState w state o c :
  (World.serialize (World.loadState w state) o c).1.1
  = {| World.config :=
         {| World.id := World.worldId w;
            World.name := World.worldName w;
            World.description := World.worldDescription w;
            World.gridSize := World.worldGridSize w;
            World.tileSize := World.worldTileSize w;
            World.startTime := World.time state |};
       World.time := World.time state;
       World.characters :=
         CharacterManager.serialize (CharacterManager.deserialize (World.characters state));
       World.conversations :=
         ConversationManager.serialize
           (ConversationManager.deserialize (World.conversations state));
       World.environment := Environment.getTree (World.surroundings w);
       World.diffusionLog := World.diffusionLog state;
       World.simulationLog := World.simulationLog state;
       World.createdAt := World.createdAt state;
       World.updatedAt := Host.clock o (Host.clockReads c) |}.
Proof. reflexivity. Qed.

(** The snapshot of a world. *)
Lemma serialize_state w o c :
  (World.serialize w o c).1.1
  = {| World.config :=
         {| World.id := World.worldId w;
            World.name := World.worldName w;
            World.description := World.worldDescription w;
            World.gridSize := World.worldGridSize w;
            World.tileSize := World.worldTileSize w;
            World.startTime := TimeSystem.getTime (World.clock w) |};
       World.time := TimeSystem.getTime (World.clock w);
       World.characters := CharacterManager.serialize (World.registry w);
       World.conversations := ConversationManager.serialize (World.dialogues w);
       World.environment := Environment.getTree (World.surroundings w);
       World.diffusionLog := World.diffusion w;
       World.simulationLog := World.log w;
       World.createdAt := World.created w;
       World.updatedAt := Host.clock o (Host.clockReads c) |}.
Proof. reflexivity. Qed.

Lemma serialize_cursor w o c :
  (World.serialize w o c).2
  = {| Host.clockReads := S (Host.clockReads c); Host.idsDrawn := Host.idsDrawn c;
       Host.randomsDrawn := Host.randomsDrawn c |}.
Proof. reflexivity. Qed.

(** The id of a world made from a template is the next id of the host. *)
Lemma fromTemplate_id template o c w :
  (World.fromTemplate template o c).1 = Some w ->
  World.worldId w = Host.ids o (Host.idsDrawn c).
Proof.
  unfold World.fromTemplate, Host.bind. cbn [Host.freshId].
  intros Hmade. apply construct_fresh in Hmade as (_ & Hid & _). exact Hid.
Qed.

(** C7, as amended. Take a world freshly made from a template and
    serialize it. Loaded into that world, the snapshot leaves it as it is.
    Loaded into a second world freshly made from the same template, which
    is how a saved world is opened, the snapshot comes back in the next
    [serialize] with the same name, description, grid size, tile size and
    start time, the same time, characters (memory stream, importance
    accumulator and daily plan included), conversations, environment
    tree, diffusion log, simulation log and creation time. Two fields do
    not come back: [loadState] leaves the id of the world that loads, so
    that the config carries the id of the second world; and the update
    time is written by [serialize] itself, from the clock at each call.
    The worlds are taken to have been made: the constructor throws for a
    template with a character for whose occupation there is no routine. *)
Theorem serialize_loadState_roundtrip template oracle
    cursor0 w1 cursor1 cursor2 w2 cursor3 cursor4 :
  World.fromTemplate template oracle cursor0 = (Some w1, cursor1) ->
  World.fromTemplate template oracle cursor2 = (Some w2, cursor3) ->
  let state1 := (World.serialize w1 oracle cursor1).1.1 in
  let saved := (World.serialize w1 oracle cursor1).1.2 in
  let state2 := (World.serialize (World.loadState w2 state1) oracle cursor4).1.1 in
  World.loadState saved state1 = saved
  /\ World.id (World.config state2) = World.worldId w2
  /\ World.name (World.config state2) = World.name (World.config state1)
  /\ World.description (World.config state2) = World.description (World.config state1)
  /\ World.gridSize (World.config state2) = World.gridSize (World.config state1)
  /\ World.tileSize (World.config state2) = World.tileSize (World.config state1)
  /\ World.startTime (World.config state2) = World.startTime (World.config state1)
  /\ World.time state2 = World.time state1
  /\ World.characters state2 = World.characters state1
  /\ World.conversations state2 = World.conversations state1
  /\ World.environment state2 = World.environment state1
  /\ World.diffusionLog state2 = World.diffusionLog state1
  /\ World.simulationLog state2 = World.simulationLog state1
  /\ World.createdAt state2 = World.createdAt state1
  /\ World.updatedAt state2 = Host.clock oracle (Host.clockReads cursor4).
Proof.
  intros Hfirst Hsecond state1 saved state2.
  destruct (fromTemplate_fresh template oracle cursor0 w1 ltac:(rewrite Hfirst; reflexivity))
    as [Hfresh1 (Hn1 & Hd1 & Hg1 & Ht1 & He1)].
  destruct (fromTemplate_fresh template oracle cursor2 w2 ltac:(rewrite Hsecond; reflexivity))
    as [_ (Hn2 & Hd2 & Hg2 & Ht2 & He2)].
  split; [apply loadState_serialize, Hfresh1|].
  destruct Hfresh1 as [Hreg Hdial].
  unfold state2. rewrite serialize_loadState. unfold state1. rewrite serialize_state.
  cbn [World.config World.time World.characters World.conversations World.environment
       World.diffusionLog World.simulationLog World.createdAt World.updatedAt
       World.id World.name World.description World.gridSize World.tileSize World.startTime].
  rewrite (deserialize_serialize_registry _ Hreg), Hdial.
  repeat split; try reflexivity; congruence.
Qed.

(** A small template on which the model runs. *)
Definition twoRooms : Environment.EnvironmentNode :=
  Environment.Node "Pasadena" Environment.world
    (Some [ Environment.Node "Apartment 4A" Environment.building None None None;
            Environment.Node "Caltech" Environment.building None
              (Some "open") (Some {| Types.x := 30; Types.y := 5 |}) ])
    None None.

Definition sheldon : Character.CharacterTemplate :=
  {| Character.templateId := "sheldon";
     Character.templateName := "Sheldon Cooper";
     Character.templateAge := 27;
     Character.templateColor := "#3B82F6";
     Character.templatePersonality := "Rigid and precise.";
     Character.templateOccupation := "Theoretical Physicist";
     Character.templateLifestyle := "Keeps a strict schedule.";
     Character.startPosition := {| Types.x := 4; Types.y := 7 |};
     Character.initialMemories :=
       [ {| Character.initialContent := "I decided that the left seat of the couch is my spot";
            Character.initialType := MemoryStream.observation |} ];
     Character.initialRelationships :=
       [ ("leonard", {| Character.initialDescription := "Roommate";
                        Character.initialSentiment := (7 # 10)%Q |}) ] |}.

Definition smallTemplate : World.WorldTemplate :=
  {| World.templateId := "big-bang-theory";
     World.templateName := "Pasadena";
     World.templateDescription := "Two rooms and one physicist";
     World.templateGridSize := {| World.gridWidth := 40; World.gridHeight := 20 |};
     World.templateTileSize := 16;
     World.templateStartTime :=
       {| World.partialDay := None; World.partialHour := Some 6;
          World.partialMinute := Some 15; World.partialSpeed := None;
          World.partialIsPaused := None |};
     World.templateCharacters := [sheldon];
     World.templateTree := twoRooms;
     World.templateLocationBounds := [];
     World.mapData := None;
     World.spriteGenerator :=
       fun _ _ => {| Character.idle := fun _ => []; Character.walk := fun _ => [] |} |}.

Definition sampleOracle : Host.Oracle :=
  {| Host.clock := fun k => 1700000000000 + Z.of_nat k;
     Host.ids := fun k => "id-" +:+ JS.numberToString (Z.of_nat k);
     Host.randoms := fun _ => (1 # 2)%Q |}.

(** Whether a run of the host has given a result. *)
Definition made {A} (run : option A * Host.Cursor) : bool :=
  match run.1 with Some _ => true | None => false end.

(** The small world, and a second one made after the first has been
    serialized. *)
Example small_worlds_are_made :
  exists w1 w2 cursor3,
    World.fromTemplate smallTemplate sampleOracle Host.start
    = (Some w1, {| Host.clockReads := 4; Host.idsDrawn := 49; Host.randomsDrawn := 1 |})
    /\ World.fromTemplate smallTemplate sampleOracle
         {| Host.clockReads := 5; Host.idsDrawn := 49; Host.randomsDrawn := 1 |}
       = (Some w2, cursor3)
    /\ Host.clockReads cursor3 = 9%nat.
Proof.
  assert (Hmade1 : made (World.fromTemplate smallTemplate sampleOracle Host.start) = true)
    by (vm_compute; reflexivity).
  assert (Hcursor1 : (World.fromTemplate smallTemplate sampleOracle Host.start).2
                     = {| Host.clockReads := 4; Host.idsDrawn := 49;
                          Host.randomsDrawn := 1 |})
    by (vm_compute; reflexivity).
  destruct (World.fromTemplate smallTemplate sampleOracle Host.start) as [[w1|] cursor1];
    [|discriminate Hmade1].
  cbn [snd] in Hcursor1. subst cursor1.
  set (cursor2 := {| Host.clockReads := 5; Host.idsDrawn := 49; Host.randomsDrawn := 1 |}).
  assert (Hmade2 : made (World.fromTemplate smallTemplate sampleOracle cursor2) = true)
    by (vm_compute; reflexivity).
  assert (Hcursor3 : Host.clockReads (World.fromTemplate smallTemplate sampleOracle cursor2).2
                     = 9%nat)
    by (vm_compute; reflexivity).
  destruct (World.fromTemplate smallTemplate sampleOracle cursor2) as [[w2|] cursor3];
    [|discriminate Hmade2].
  exists w1, w2, cursor3. split; [reflexivity|]. split; [reflexivity | exact Hcursor3].
Qed.

Lemma serialize_loadState_roundtrip_witness :
  exists w1 cursor1 w2 cursor3,
    World.fromTemplate smallTemplate sampleOracle Host.start = (Some w1, cursor1)
    /\ World.fromTemplate smallTemplate sampleOracle
         (World.serialize w1 sampleOracle cursor1).2 = (Some w2, cursor3)
    /\ World.characters
         (World.serialize
            (World.loadState w2 (World.serialize w1 sampleOracle cursor1).1.1)
            sampleOracle cursor3).1.1
       = World.characters (World.serialize w1 sampleOracle cursor1).1.1.
Proof.
  destruct small_worlds_are_made as (w1 & w2 & cursor3 & Hfirst & Hsecond & _).
  eexists w1, _, w2, cursor3. split; [exact Hfirst|]. split; [exact Hsecond|].
  apply (serialize_loadState_roundtrip smallTemplate sampleOracle Host.start
           w1 _ _ w2 cursor3 cursor3 Hfirst Hsecond).
Defined.

(** C7, the counterexample. The small world is serialized, and the
    snapshot is loaded into a second world made from the same template;
    the host hands out a new id at each request and its clock advances at
    each reading. The snapshot that the second world gives differs from
    the one it has loaded: in the id of its config, which is the id of the
    second world, and in its update time. *)
Theorem loadState_keeps_the_id :
  exists w1 cursor1 w2 cursor3,
    World.fromTemplate smallTemplate sampleOracle Host.start = (Some w1, cursor1)
    /\ World.fromTemplate smallTemplate sampleOracle
         (World.serialize w1 sampleOracle cursor1).2 = (Some w2, cursor3)
    /\ World.id (World.config (World.serialize w1 sampleOracle cursor1).1.1) = "id-0"
    /\ World.id
         (World.config
            (World.serialize
               (World.loadState w2 (World.serialize w1 sampleOracle cursor1).1.1)
               sampleOracle cursor3).1.1)
       = "id-49"
    /\ World.updatedAt (World.serialize w1 sampleOracle cursor1).1.1 = 1700000000004
    /\ World.updatedAt
         (World.serialize
            (World.loadState w2 (World.serialize w1 sampleOracle cursor1).1.1)
            sampleOracle cursor3).1.1
       = 1700000000009.
Proof.
  destruct small_worlds_are_made as (w1 & w2 & cursor3 & Hfirst & Hsecond & Hreads).
  eexists w1, _, w2, cursor3. split; [exact Hfirst|]. split; [exact Hsecond|].
  rewrite serialize_loadState, serialize_state.
  cbn [World.config World.id World.updatedAt].
  rewrite (fromTemplate_id _ _ _ w1 ltac:(rewrite Hfirst; reflexivity)).
  rewrite (fromTemplate_id _ _ _ w2 ltac:(rewrite Hsecond; reflexivity)).
  rewrite Hreads. repeat split; reflexivity.
Qed.

Example fresh_world_snapshot :
  exists w cursor,
  World.fromTemplate smallTemplate sampleOracle Host.start = (Some w, cursor)
  /\ let state := (World.serialize w sampleOracle cursor).1.1 in
  World.simulationLog state = ["[Day 1 06:15] World initialized"]
  /\ map Character.id (World.characters state) = ["sheldon"]
  /\ map (fun d => map MemoryStream.importance (Character.memoryStream d))
       (World.characters state) = [[6%Q]]
  /\ map (fun d => option_map (fun p => length (Planner.hourlyPlans p))
                     (Character.currentPlan d)) (World.characters state) = [Some 32%nat]
  /\ World.updatedAt state = 1700000000004.
Proof.
  assert (Hsnapshot :
    match World.fromTemplate smallTemplate sampleOracle Host.start with
    | (Some w, cursor) =>
        let state := (World.serialize w sampleOracle cursor).1.1 in
        (World.simulationLog state,
         map Character.id (World.characters state),
         map (fun d => map MemoryStream.importance (Character.memoryStream d))
           (World.characters state),
         map (fun d => option_map (fun p => length (Planner.hourlyPlans p))
                         (Character.currentPlan d)) (World.characters state),
         World.updatedAt state)
        = (["[Day 1 06:15] World initialized"], ["sheldon"], [[6%Q]], [Some 32%nat],
           1700000000004)
    | (None, _) => False
    end) by (vm_compute; reflexivity).
  destruct (World.fromTemplate smallTemplate sampleOracle Host.start) as [[w|] cursor];
    [|contradiction].
  exists w, cursor. split; [reflexivity|].
  cbv zeta in Hsnapshot |- *. injection Hsnapshot as Hlog Hids Himportance Hplans Hstamp.
  repeat split; assumption.
Qed.

End WorldSpec.

(* ===================================================================== *)
(** * Part III: further properties of the core *)
(* ===================================================================== *)

(** ** TimeSystem: the running clock *)

Module TimeSystemLaws.
Import TimeSystem.

(** A time of day: the hour and the minute are in range. *)
Definition normalized (t : GameTime) : Prop :=
  0 <= minute t < 60 /\ 0 <= hour t < 24.

Lemma hourEvents_length old n : length (hourEvents old n) = Z.to_nat n.
Proof. unfold hourEvents. rewrite length_map, length_seqZ. reflexivity. Qed.

Lemma dayEvents_length old n : length (dayEvents old n) = Z.to_nat n.
Proof. unfold dayEvents. rewrite length_map, length_seqZ. reflexivity. Qed.

Lemma hourEvents_kind old n :
  List.filter isHourChanged (hourEvents old n) = hourEvents old n
  /\ List.filter isDayChanged (hourEvents old n) = []
  /\ List.filter isTick (hourEvents old n) = [].
Proof.
  unfold hourEvents. induction (seqZ 0 n) as [|i l (IH1 & IH2 & IH3)]; simpl; [auto|].
  rewrite IH1, IH2, IH3. auto.
Qed.

Lemma dayEvents_kind old n :
  List.filter isDayChanged (dayEvents old n) = dayEvents old n
  /\ List.filter isHourChanged (dayEvents old n) = []
  /\ List.filter isTick (dayEvents old n) = [].
Proof.
  unfold dayEvents. induction (seqZ 0 n) as [|i l (IH1 & IH2 & IH3)]; simpl; [auto|].
  rewrite IH1, IH2, IH3. auto.
Qed.

(** What one tick of a running clock does, in closed form. *)
Lemma tick_running ts :
  isPaused (time ts) = false ->
  0 <= minute (time ts) -> 0 <= hour (time ts) -> 0 <= speed (time ts) ->
  let total := minute (time ts) + speed (time ts) in
  let hours := hour (time ts) + total / 60 in
  tick ts
  = ({| time := {| day := day (time ts) + hours / 24;
                   hour := hours mod 24;
                   minute := total mod 60;
                   speed := speed (time ts);
                   isPaused := false |} |},
     hourEvents (time ts) (total / 60) ++ dayEvents (time ts) (hours / 24)
       ++ [TimeTick {| day := day (time ts) + hours / 24;
                       hour := hours mod 24;
                       minute := total mod 60;
                       speed := speed (time ts);
                       isPaused := false |} (speed (time ts))]).
Proof.
  intros Hrun Hm Hh Hs total hours. unfold tick. rewrite !Hrun. fold total.
  pose proof (Z.div_pos total 60 ltac:(unfold total; lia) ltac:(lia)) as Hq.
  assert (Hrem : Z.rem total 60 = total mod 60)
    by (apply Z.rem_mod_nonneg; unfold total; lia).
  assert (Hrem' : Z.rem hours 24 = hours mod 24)
    by (apply Z.rem_mod_nonneg; unfold hours; lia).
  unfold JS.floorDiv.
  destruct (Z.geb_spec total 60) as [Hge|Hlt].
  - fold hours. destruct (Z.geb_spec hours 24) as [Hge'|Hlt']; cbn [speed].
    + rewrite Hrem, Hrem'. reflexivity.
    + rewrite Hrem, (Z.div_small hours 24), (Z.mod_small hours 24) by (unfold hours in *; lia).
      rewrite Z.add_0_r. reflexivity.
  - assert (Hsmall : total / 60 = 0) by (apply Z.div_small; unfold total in *; lia).
    assert (Hhours : hours = hour (time ts)) by (unfold hours; lia).
    rewrite Hhours in *. rewrite Hsmall, (Z.mod_small total 60) by (unfold total in *; lia).
    destruct (Z.geb_spec (hour (time ts)) 24) as [Hge'|Hlt']; cbn [speed].
    + rewrite Hrem'. reflexivity.
    + rewrite (Z.div_small (hour (time ts)) 24), (Z.mod_small (hour (time ts)) 24) by lia.
      rewrite Z.add_0_r. reflexivity.
Qed.

Definition noon : TimeSystem :=
  {| time := {| day := 3; hour := 11; minute := 45; speed := 30; isPaused := false |} |}.

(** X1. A tick of a running clock at a time of day publishes one
    hour-changed event for every hour boundary it crosses, then one
    day-changed event for every midnight it crosses, then one tick event,
    in this order. *)
Theorem tick_events_count_boundaries ts :
  isPaused (time ts) = false ->
  normalized (time ts) -> 0 <= speed (time ts) ->
  let after := fst (tick ts) in
  let events := snd (tick ts) in
  exists hourChanged dayChanged,
    events = hourChanged ++ dayChanged ++ [TimeTick (time after) (speed (time ts))]
    /\ Forall (fun e => isHourChanged e = true) hourChanged
    /\ Forall (fun e => isDayChanged e = true) dayChanged
    /\ Z.of_nat (length hourChanged)
       = getTotalMinutes after / 60 - getTotalMinutes ts / 60
    /\ Z.of_nat (length dayChanged)
       = getTotalMinutes after / 1440 - getTotalMinutes ts / 1440.
Proof.
  intros Hrun [Hm Hh] Hs.
  rewrite (tick_running ts Hrun ltac:(lia) ltac:(lia) Hs).
  set (total := minute (time ts) + speed (time ts)).
  set (hours := hour (time ts) + total / 60).
  cbn [fst snd].
  exists (hourEvents (time ts) (total / 60)), (dayEvents (time ts) (hours / 24)).
  pose proof (Z.div_pos total 60 ltac:(unfold total; lia) ltac:(lia)) as Hq.
  pose proof (Z.div_pos hours 24 ltac:(unfold hours; lia) ltac:(lia)) as Hq'.
  split; [reflexivity|].
  split; [unfold hourEvents; apply Forall_forall; intros e He;
          apply list_elem_of_fmap in He as (i & -> & _); reflexivity|].
  split; [unfold dayEvents; apply Forall_forall; intros e He;
          apply list_elem_of_fmap in He as (i & -> & _); reflexivity|].
  rewrite hourEvents_length, dayEvents_length, !Z2Nat.id by assumption.
  unfold getTotalMinutes. simpl.
  pose proof (Z.div_mod total 60 ltac:(lia)) as Ht.
  pose proof (Z.div_mod hours 24 ltac:(lia)) as Hd.
  pose proof (Z.mod_pos_bound total 60 ltac:(lia)) as Htb.
  pose proof (Z.mod_pos_bound hours 24 ltac:(lia)) as Hdb.
  set (d := day (time ts)) in *. set (h := hour (time ts)) in *.
  set (mi := minute (time ts)) in *.
  split.
  - replace ((d + hours / 24 - 1) * 24 * 60 + hours mod 24 * 60 + total mod 60)
      with (total mod 60 + ((d - 1) * 24 + h + total / 60) * 60) by (unfold hours in *; lia).
    replace ((d - 1) * 24 * 60 + h * 60 + mi) with (mi + ((d - 1) * 24 + h) * 60) by lia.
    rewrite !Z.div_add by lia. rewrite (Z.div_small mi 60), (Z.div_small (total mod 60) 60) by lia.
    lia.
  - replace ((d + hours / 24 - 1) * 24 * 60 + hours mod 24 * 60 + total mod 60)
      with (hours mod 24 * 60 + total mod 60 + (d - 1 + hours / 24) * 1440) by lia.
    replace ((d - 1) * 24 * 60 + h * 60 + mi) with (h * 60 + mi + (d - 1) * 1440) by lia.
    rewrite !Z.div_add by lia.
    rewrite (Z.div_small (h * 60 + mi) 1440), (Z.div_small (hours mod 24 * 60 + total mod 60) 1440)
      by lia.
    lia.
Qed.

Definition beforeMidnight : TimeSystem :=
  {| time := {| day := 1; hour := 22; minute := 50; speed := 60; isPaused := false |} |}.

Lemma tick_events_count_boundaries_witness :
  exists hourChanged dayChanged,
    snd (tick beforeMidnight)
    = hourChanged ++ dayChanged
        ++ [TimeTick (time (fst (tick beforeMidnight))) (speed (time beforeMidnight))]
    /\ Forall (fun e => isHourChanged e = true) hourChanged
    /\ Forall (fun e => isDayChanged e = true) dayChanged
    /\ Z.of_nat (length hourChanged)
       = getTotalMinutes (fst (tick beforeMidnight)) / 60 - getTotalMinutes beforeMidnight / 60
    /\ Z.of_nat (length dayChanged)
       = getTotalMinutes (fst (tick beforeMidnight)) / 1440
         - getTotalMinutes beforeMidnight / 1440.
Proof.
  apply (tick_events_count_boundaries beforeMidnight);
    [reflexivity | unfold normalized; simpl; lia | simpl; lia].
Defined.

Lemma ticks_running n : forall ts,
  isPaused (time ts) = false ->
  0 <= minute (time ts) -> 0 <= hour (time ts) -> 0 <= speed (time ts) ->
  getTotalMinutes (fst (ticks n ts)) = getTotalMinutes ts + Z.of_nat n * speed (time ts)
  /\ speed (time (fst (ticks n ts))) = speed (time ts)
  /\ isPaused (time (fst (ticks n ts))) = false
  /\ length (List.filter isTick (snd (ticks n ts))) = n
  /\ (n <> 0%nat -> normalized (time (fst (ticks n ts)))).
Proof.
  induction n as [|n IH]; intros ts Hrun Hm Hh Hs.
  - simpl. repeat split; try assumption; try lia.
  - cbn [ticks].
    pose proof (tick_running ts Hrun Hm Hh Hs) as Htick. cbv zeta in Htick.
    set (total := minute (time ts) + speed (time ts)) in *.
    set (hours := hour (time ts) + total / 60) in *.
    pose proof (Z.div_pos total 60 ltac:(unfold total; lia) ltac:(lia)) as Hq.
    pose proof (Z.div_mod total 60 ltac:(lia)) as Ht.
    pose proof (Z.div_mod hours 24 ltac:(lia)) as Hd.
    pose proof (Z.mod_pos_bound total 60 ltac:(lia)) as Htb.
    pose proof (Z.mod_pos_bound hours 24 ltac:(lia)) as Hdb.
    rewrite Htick.
    match goal with |- context [ticks n ?t] => set (ts1 := t) end.
    destruct (IH ts1) as (Htot & Hsp & Hp & Hlen & Hnorm);
      [reflexivity | unfold ts1; simpl; lia | unfold ts1; simpl; lia | unfold ts1; simpl; lia |].
    assert (Hnorm' : normalized (time (fst (ticks n ts1)))).
    { destruct n as [|n]; [|apply Hnorm; discriminate].
      unfold normalized, ts1. simpl. lia. }
    destruct (ticks n ts1) as [ts2 events2]. cbn [fst snd] in *.
    rewrite Htot, Hsp, Hp. unfold ts1 at 1 2. unfold getTotalMinutes.
    cbn [time day hour minute speed].
    split; [unfold hours, total in *; lia|]. split; [reflexivity|]. split; [reflexivity|].
    split; [|intros _; exact Hnorm'].
    rewrite !List.filter_app, length_app, length_app, length_app.
    rewrite (proj2 (proj2 (hourEvents_kind _ _))), (proj2 (proj2 (dayEvents_kind _ _))).
    simpl. rewrite Hlen. reflexivity.
Qed.

(** X2. Any number [n] of ticks of a running clock whose fields are not
    negative move it forward by exactly [n] times its speed in minutes and
    publish [n] tick events; the speed and the running state are kept, and
    after at least one tick the clock shows a time of day, the minute below
    60 and the hour below 24, whatever it showed before. The clock is then
    within a range of its earlier reading exactly when [n] times the speed
    is no more than the range. *)
Theorem ticks_advance_the_clock n ts range :
  isPaused (time ts) = false ->
  0 <= minute (time ts) -> 0 <= hour (time ts) -> 0 <= speed (time ts) ->
  let after := fst (ticks n ts) in
  getTotalMinutes after = getTotalMinutes ts + Z.of_nat n * speed (time ts)
  /\ length (List.filter isTick (snd (ticks n ts))) = n
  /\ speed (time after) = speed (time ts)
  /\ isPaused (time after) = false
  /\ (n <> 0%nat -> normalized (time after))
  /\ isWithinRange after (time ts) range = (Z.of_nat n * speed (time ts) <=? range).
Proof.
  intros Hrun Hm Hh Hs after.
  destruct (ticks_running n ts Hrun Hm Hh Hs) as (Htot & Hsp & Hp & Hlen & Hnorm).
  fold after in Htot, Hsp, Hp, Hnorm.
  repeat (split; [assumption|]).
  unfold isWithinRange. rewrite Htot. unfold getTotalMinutes. f_equal.
  assert (0 <= Z.of_nat n * speed (time ts)) by nia. lia.
Qed.

Lemma ticks_advance_the_clock_witness :
  getTotalMinutes (fst (ticks 100 noon)) = getTotalMinutes noon + 100 * 30.
Proof.
  apply (ticks_advance_the_clock 100 noon 0); [reflexivity | simpl; lia | simpl; lia | simpl; lia].
Defined.

Lemma ticks_paused n : forall ts,
  isPaused (time ts) = true -> ticks n ts = (ts, []).
Proof.
  induction n as [|n IH]; intros ts Hp; [reflexivity|].
  cbn [ticks]. unfold tick at 1. rewrite Hp. rewrite (IH ts Hp). reflexivity.
Qed.

(** X3. Pausing a running clock, ticking it any number of times and
    resuming it gives back the clock as it was: the ticks in between
    publish nothing, the pause and the resume one event each. A second
    [pause] in a row does nothing, and two [togglePause] calls restore the
    clock. *)
Theorem pause_holds_the_clock n ts :
  isPaused (time ts) = false ->
  let paused := fst (pause ts) in
  ticks n paused = (paused, [])
  /\ resume paused = (ts, [TimeResumed (time ts)])
  /\ snd (pause ts) = [TimePaused (time paused)]
  /\ pause paused = (paused, [])
  /\ fst (togglePause (fst (togglePause ts))) = ts.
Proof.
  intros Hrun. destruct ts as [[d h mi s p]]. simpl in Hrun. subst p.
  cbv zeta. split; [apply ticks_paused; reflexivity|].
  repeat split.
Qed.

Lemma pause_holds_the_clock_witness :
  ticks 7 (fst (pause noon)) = (fst (pause noon), []).
Proof. apply (pause_holds_the_clock 7 noon). reflexivity. Defined.

End TimeSystemLaws.

(** ** Planner: the shape of the plan tiers *)

Module PlannerLaws.
Import Planner PlannerSpec.

(** *** The default routines *)

(** Plans in chronological order: each ends before the next begins. *)
Fixpoint chronological (plans : list Plan) : bool :=
  match plans with
  | p :: (q :: _) as rest => (planEnd p <=? planStart q) && chronological rest
  | _ => true
  end.

Definition routineOk (plans : list Plan) : bool :=
  forallb (fun p => (0 <=? minute (startTime p)) && (minute (startTime p) <? 60)
                    && (1 <=? duration p) && (330 <=? planStart p)) plans
  && chronological plans
  && (8 <=? length plans)%nat && (length plans <=? 15)%nat.

Lemma chronological_nonOverlapping plans :
  chronological plans = true ->
  Forall (fun p => 0 <= duration p) plans ->
  nonOverlapping plans.
Proof.
  induction plans as [|p plans IH]; intros Hchain Hdur; [constructor|].
  inversion Hdur as [|? ? Hp Hrest]; subst.
  destruct plans as [|q plans]; [repeat constructor|].
  cbn [chronological] in Hchain. apply andb_prop in Hchain as [Hpq Hchain].
  apply Z.leb_le in Hpq. specialize (IH Hchain Hrest).
  constructor; [|exact IH].
  inversion IH as [|? ? Hq _]; subst. inversion Hrest as [|? ? Hdq _]; subst.
  constructor; [exact Hpq|].
  eapply Forall_impl; [exact Hq|]. simpl. intros r Hr. unfold planEnd in *. lia.
Qed.

Lemma routineOk_spec plans :
  routineOk plans = true ->
  Forall wellFormedPlan plans
  /\ nonOverlapping plans
  /\ Forall (fun p => 1 <= duration p /\ 330 <= planStart p) plans
  /\ (8 <= length plans <= 15)%nat.
Proof.
  unfold routineOk. intros H.
  apply andb_prop in H as [H Hhi]. apply andb_prop in H as [H Hlo].
  apply andb_prop in H as [Hall Hchain].
  apply Nat.leb_le in Hhi, Hlo.
  assert (Hfacts : Forall (fun p => 0 <= minute (startTime p) < 60
                                    /\ 1 <= duration p /\ 330 <= planStart p) plans).
  { apply Forall_forall. intros p Hp. rewrite forallb_forall in Hall.
    apply list_elem_of_In in Hp. specialize (Hall p Hp).
    apply andb_prop in Hall as [Hall H330]. apply andb_prop in Hall as [Hall Hd].
    apply andb_prop in Hall as [Hm0 Hm60].
    apply Z.leb_le in H330, Hd, Hm0. apply Z.ltb_lt in Hm60. lia. }
  assert (Hwf : Forall wellFormedPlan plans).
  { eapply Forall_impl; [exact Hfacts|]. unfold wellFormedPlan. simpl. intros; lia. }
  split; [exact Hwf|]. split; [|split; [|lia]].
  - apply chronological_nonOverlapping; [exact Hchain|].
    eapply Forall_impl; [exact Hfacts|]. simpl. intros; lia.
  - eapply Forall_impl; [exact Hfacts|]. simpl. intros; lia.
Qed.

(** The characters of strings: whether one of them passes a test. *)
Fixpoint anyChar (test : ascii -> bool) (s : string) : bool :=
  match s with
  | EmptyString => false
  | String c rest => test c || anyChar test rest
  end.

Definition isUpper (c : ascii) : bool :=
  let n := nat_of_ascii c in ((65 <=? n) && (n <=? 90))%nat.

Lemma anyChar_append test a b :
  anyChar test (a +:+ b) = anyChar test a || anyChar test b.
Proof.
  induction a as [|c a IH]; simpl; [reflexivity|]. rewrite IH, orb_assoc. reflexivity.
Qed.

Lemma lowerChar_not_upper c : isUpper (JS.lowerChar c) = false.
Proof. destruct c as [[] [] [] [] [] [] [] []]; reflexivity. Qed.

Lemma toLowerCase_no_upper s : anyChar isUpper (JS.toLowerCase s) = false.
Proof.
  induction s as [|c s IH]; simpl; [reflexivity|].
  rewrite lowerChar_not_upper, IH. reflexivity.
Qed.

Lemma replaceAux_no_upper s : forall inRun,
  anyChar isUpper s = false -> anyChar isUpper (JS.replaceAux s "_" inRun) = false.
Proof.
  induction s as [|c s IH]; intros inRun Hs; simpl in *; [reflexivity|].
  apply orb_false_elim in Hs as [Hc Hs].
  destruct (JS.isSpace c).
  - destruct inRun; [apply IH, Hs|]. rewrite anyChar_append, (IH true Hs). reflexivity.
  - cbn [anyChar]. rewrite Hc, (IH false Hs). reflexivity.
Qed.

(** The key of the routine table has no capital letter. *)
Lemma routineKey_no_upper occupation :
  anyChar isUpper (Routines.routineKey occupation) = false.
Proof. unfold Routines.routineKey, JS.replaceWhitespace. apply replaceAux_no_upper, toLowerCase_no_upper. Qed.

Lemma prefix_anyChar test sub : forall s,
  String.prefix sub s = true -> anyChar test sub = true -> anyChar test s = true.
Proof.
  induction sub as [|a sub IH]; intros s Hprefix Hsub; [discriminate|].
  destruct s as [|b s]; [discriminate|]. simpl in Hprefix.
  destruct (ascii_dec a b) as [->|]; [|discriminate].
  simpl in *. destruct (test b); [reflexivity|]. apply (IH s); assumption.
Qed.

(** A text that includes another one has each of its characters. *)
Lemma includes_anyChar test sub s :
  JS.includes s sub = true -> anyChar test sub = true -> anyChar test s = true.
Proof.
  intros Hin Hsub. induction s as [|c s IH]; cbn [JS.includes] in Hin.
  - apply orb_prop in Hin as [Hprefix|]; [|discriminate].
    exact (prefix_anyChar test sub _ Hprefix Hsub).
  - apply orb_prop in Hin as [Hprefix|Hlater].
    + exact (prefix_anyChar test sub _ Hprefix Hsub).
    + cbn [anyChar]. rewrite (IH Hlater). apply orb_true_r.
Qed.

(** [replace (/\s+/g, ...)] keeps every character that is no white
    space. *)
Lemma replaceAux_anyChar test r s : forall inRun,
  (forall c, test c = true -> JS.isSpace c = false) ->
  anyChar test s = true -> anyChar test (JS.replaceAux s r inRun) = true.
Proof.
  intros inRun Htest. revert inRun.
  induction s as [|c s IH]; intros inRun Hs; simpl in *; [discriminate|].
  destruct (test c) eqn:Hc.
  - rewrite (Htest c Hc). simpl. rewrite Hc. reflexivity.
  - simpl in Hs. destruct (JS.isSpace c).
    + destruct inRun; [apply IH, Hs|]. rewrite anyChar_append, (IH true Hs). apply orb_true_r.
    + simpl. rewrite Hc. apply (IH false Hs).
Qed.

(** A text whose key has none of the characters of [sub] that are no
    white space does not include [sub]. *)
Lemma key_excludes test sub occupation :
  (forall c, test c = true -> JS.isSpace c = false) ->
  anyChar test sub = true ->
  anyChar test (Routines.routineKey occupation) = false ->
  JS.includes (JS.toLowerCase occupation) sub = false.
Proof.
  intros Htest Hsub Hkey.
  destruct (JS.includes (JS.toLowerCase occupation) sub) eqn:Hin; [|reflexivity].
  pose proof (includes_anyChar test sub _ Hin Hsub) as Hlower.
  pose proof (replaceAux_anyChar test "_" _ false Htest Hlower) as Hhas.
  unfold Routines.routineKey, JS.replaceWhitespace in Hkey. congruence.
Qed.

Lemma letter_no_space (letter c : ascii) :
  JS.isSpace letter = false -> Ascii.eqb letter c = true -> JS.isSpace c = false.
Proof. intros Hletter Heq. apply Ascii.eqb_eq in Heq as <-. exact Hletter. Qed.

(** The two keys that [DEFAULT_ROUTINES] inherits and a lower-cased
    occupation can spell: for them the call gives no routine. *)
Lemma getDefaultRoutine_inherited gen occupation :
  Routines.routineKey occupation = "constructor"
  \/ Routines.routineKey occupation = "__proto__" ->
  Routines.getDefaultRoutine gen occupation
  = Routines.NotARoutine (Routines.routineKey occupation).
Proof.
  intros Hkey. unfold Routines.getDefaultRoutine.
  assert (Hno : forall letter sub,
             JS.isSpace letter = false ->
             anyChar (Ascii.eqb letter) sub = true ->
             anyChar (Ascii.eqb letter) (Routines.routineKey occupation) = false ->
             JS.includes (JS.toLowerCase occupation) sub = false).
  { intros letter sub Hletter. apply key_excludes. intros c. apply letter_no_space, Hletter. }
  rewrite (Hno "h"%char "theoretical physicist"), (Hno "x"%char "experimental physicist"),
    (Hno "w"%char "waitress"), (Hno "a"%char "aerospace engineer"),
    (Hno "a"%char "astrophysicist"), (Hno "m"%char "comic");
    try reflexivity; try (destruct Hkey as [-> | ->]; reflexivity).
  cbn [andb]. fold (Routines.routineKey occupation).
  destruct Hkey as [-> | ->]; reflexivity.
Qed.

(** Conversely, no routine means one of these two keys. *)
Lemma getDefaultRoutine_not_a_routine gen occupation name :
  Routines.getDefaultRoutine gen occupation = Routines.NotARoutine name ->
  name = Routines.routineKey occupation
  /\ (name = "constructor" \/ name = "__proto__").
Proof.
  unfold Routines.getDefaultRoutine.
  repeat match goal with |- context [if ?b then _ else _] => destruct b end;
    try discriminate.
  fold (Routines.routineKey occupation). unfold JS.objectGet.
  destruct (JS.mapGet _ _); [discriminate|].
  destruct (existsb _ _) eqn:Hin; [|discriminate].
  intros [= <-]. split; [reflexivity|].
  pose proof (routineKey_no_upper occupation) as Hlower.
  apply existsb_exists in Hin as (member & Hmember & Heq).
  apply String.eqb_eq in Heq. rewrite Heq in *.
  cbn [JS.objectPrototype In] in Hmember.
  repeat (destruct Hmember as [<-|Hmember]; [first [auto; fail | discriminate Hlower]|]).
  contradiction.
Qed.

Lemma getDefaultRoutine_ok gen occupation plans :
  Routines.getDefaultRoutine gen occupation = Routines.Routine plans ->
  routineOk plans = true /\ map id plans = map gen (seq 0 (length plans)).
Proof.
  unfold Routines.getDefaultRoutine.
  repeat match goal with |- context [if ?b then _ else _] => destruct b end;
    try (intros [= <-]; split; [vm_compute|]; reflexivity).
  unfold JS.objectGet. cbn [JS.mapGet Routines.DEFAULT_ROUTINES].
  repeat match goal with |- context [if ?b then _ else _] => destruct b end;
    try discriminate;
    (intros [= <-]; split; [vm_compute|]; reflexivity).
Qed.

(** X4. What [getDefaultRoutine] gives, occupation by occupation. When
    the key of the occupation (its lower-cased text with the white space
    replaced by underscores) is ["constructor"] or ["__proto__"], the
    lookup in [DEFAULT_ROUTINES] finds the member of that name of
    [Object.prototype], and the call gives no routine: an empty object for
    the first, a TypeError for the second. For every other occupation the
    routine returned has 8 to 15 plans, each starting at a minute 0..59 no
    earlier than 05:30 and lasting at least a minute, in chronological
    order without overlap; the [k]-th plan carries the [k]-th generated
    id. *)
Theorem getDefaultRoutine_chronological gen occupation :
  let key := Routines.routineKey occupation in
  match Routines.getDefaultRoutine gen occupation with
  | Routines.NotARoutine name =>
      name = key /\ (key = "constructor" \/ key = "__proto__")
  | Routines.Routine plans =>
      key <> "constructor" /\ key <> "__proto__"
      /\ Forall wellFormedPlan plans
      /\ nonOverlapping plans
      /\ Forall (fun p => 1 <= duration p /\ 330 <= planStart p) plans
      /\ (8 <= length plans <= 15)%nat
      /\ map id plans = map gen (seq 0 (length plans))
  end.
Proof.
  intros key.
  destruct (Routines.getDefaultRoutine gen occupation) as [plans|name] eqn:Hcall.
  - assert (Hkey : ~ (key = "constructor" \/ key = "__proto__")).
    { intros Hkey. rewrite (getDefaultRoutine_inherited gen occupation Hkey) in Hcall.
      discriminate. }
    split; [tauto|]. split; [tauto|].
    destruct (getDefaultRoutine_ok gen occupation plans Hcall) as [Hok Hids].
    destruct (routineOk_spec plans Hok) as (Hwf & Hno & Hfacts & Hlen).
    repeat (split; [assumption|]). exact Hids.
  - destruct (getDefaultRoutine_not_a_routine gen occupation name Hcall) as [-> Hkey].
    split; [reflexivity | exact Hkey].
Qed.

(** The two inherited keys, as occupations can spell them. *)
Example inherited_keys gen :
  Routines.getDefaultRoutine gen "Constructor" = Routines.NotARoutine "constructor"
  /\ Routines.getDefaultRoutine gen " _proto_ " = Routines.NotARoutine "__proto__"
  /\ Routines.getDefaultRoutine gen "toString"
     = Routines.Routine (Routines.getGenericRoutine gen).
Proof. repeat split; reflexivity. Qed.

(** *** Hourly chunks *)

Lemma hourlyLoop_within fuel : forall gen plan k total cm ch cmin chunks,
  0 <= cmin < 60 ->
  hourlyLoop fuel gen plan k total cm ch cmin = Some chunks ->
  Forall (fun c => 0 <= minute (startTime c)
                   /\ minute (startTime c) + duration c <= 60
                   /\ location c = location plan
                   /\ status c = pending) chunks
  /\ match chunks with
     | [] => True
     | c :: rest =>
         minute (startTime c) = cmin
         /\ Forall (fun c' => minute (startTime c') = 0) rest
     end
  /\ map id chunks = map gen (seq k (length chunks)).
Proof.
  induction fuel as [|fuel IH]; intros gen plan k total cm ch cmin chunks Hmin; simpl;
    destruct (Z.ltb_spec cm total) as [Hlt|Hge];
    try discriminate;
    try (intros [= <-]; split; [constructor | split; [exact I | reflexivity]]).
  set (d := Z.min (Z.min (60 - cmin) (total - cm)) 60).
  assert (Hd : 1 <= d <= 60 - cmin) by (unfold d; lia).
  destruct (Z.geb_spec (cmin + d) 60) as [Hcarry|Hstay].
  - destruct (hourlyLoop fuel gen plan (S k) total (cm + d) (ch + 1) (cmin + d - 60))
      as [rest|] eqn:Hrest; [|discriminate].
    intros [= <-].
    assert (Hmin' : 0 <= cmin + d - 60 < 60) by lia.
    destruct (IH _ _ _ _ _ _ _ _ Hmin' Hrest) as (Hall & Hhead & Hids).
    split; [constructor; [simpl; auto with zarith | exact Hall]|].
    split; [split; [reflexivity|]|simpl; rewrite Hids; reflexivity].
    destruct rest as [|c rest]; [constructor|]. destruct Hhead as [Hc Hrest'].
    constructor; [lia | exact Hrest'].
  - assert (Hend : cm + d = total) by (unfold d in *; lia).
    assert (Hnil : hourlyLoop fuel gen plan (S k) total (cm + d) ch (cmin + d) = Some []).
    { destruct fuel; simpl; destruct (Z.ltb_spec (cm + d) total); try lia; reflexivity. }
    rewrite Hnil. intros [= <-].
    split; [constructor; [simpl; auto with zarith | constructor]|].
    split; [split; [reflexivity | constructor] | reflexivity].
Qed.

(** X5. The hourly chunks of a well-formed plan never straddle a clock
    hour: each starts at a minute 0..59 and ends by the end of that hour,
    and every chunk after the first starts on the hour. Each chunk is
    pending and at the location of the plan, and the [k]-th chunk carries
    the [k]-th generated id. *)
Theorem decomposePlanToHourly_within_hours gen plan :
  wellFormedPlan plan ->
  let chunks := decomposePlanToHourly gen plan in
  Forall (fun c => 0 <= minute (startTime c) < 60
                   /\ minute (startTime c) + duration c <= 60
                   /\ location c = location plan
                   /\ status c = pending) chunks
  /\ Forall (fun c => minute (startTime c) = 0) (tail chunks)
  /\ map id chunks = map gen (seq 0 (length chunks)).
Proof.
  intros [Hmin Hdur] chunks.
  destruct (hourlyLoop_within _ _ _ _ _ _ _ _ chunks Hmin
              (decomposePlanToHourly_fuel gen plan)) as (Hall & Hhead & Hids).
  destruct (decomposePlanToHourly_tiles gen plan (conj Hmin Hdur)) as [_ Hpos].
  fold chunks in Hpos.
  split; [|split; [|exact Hids]].
  - rewrite Forall_forall in *. intros c Hc.
    destruct (Hall c Hc) as (H0 & H60 & Hloc & Hst). specialize (Hpos c Hc). simpl in Hpos.
    split; [lia|]. split; [exact H60|]. split; assumption.
  - destruct chunks as [|c rest]; [constructor | exact (proj2 Hhead)].
Qed.

Definition lateLunch : Plan := createPlan "plan-0" "Lunch at Caltech" 12 40 45 (Some "Caltech").

Lemma decomposePlanToHourly_within_hours_witness :
  Forall (fun c => minute (startTime c) = 0)
    (tail (decomposePlanToHourly (fun _ => "plan-1") lateLunch)).
Proof.
  apply (decomposePlanToHourly_within_hours (fun _ => "plan-1") lateLunch).
  unfold wellFormedPlan. simpl. lia.
Defined.

(** The [i]-th hourly chunk of a plan that starts on the hour. *)
Definition hourChunk (gen : nat -> string) (plan : Plan) (i : nat) : Plan :=
  {| id := gen i;
     description :=
       description plan +:+ " (" +:+ JS.numberToString (Z.of_nat i + 1) +:+ "/"
         +:+ JS.numberToString ((duration plan + 59) / 60) +:+ ")";
     startTime := {| hour := hour (startTime plan) + Z.of_nat i; minute := 0 |};
     duration := Z.min 60 (duration plan - 60 * Z.of_nat i);
     location := location plan;
     status := pending |}.

Lemma ceilDiv_60 d : JS.ceilDiv d 60 = (d + 59) / 60.
Proof.
  unfold JS.ceilDiv.
  pose proof (Z.div_mod d 60 ltac:(lia)) as Hd.
  pose proof (Z.mod_pos_bound d 60 ltac:(lia)) as Hr.
  destruct (Z.eq_dec (d mod 60) 0) as [Hz|Hnz].
  - rewrite <- (Z.div_unique (- d) 60 (- (d / 60)) 0) by lia.
    rewrite <- (Z.div_unique (d + 59) 60 (d / 60) 59) by lia. lia.
  - rewrite <- (Z.div_unique (- d) 60 (- (d / 60) - 1) (60 - d mod 60)) by lia.
    rewrite <- (Z.div_unique (d + 59) 60 (d / 60 + 1) (d mod 60 - 1)) by lia. lia.
Qed.

Lemma hourlyLoop_on_the_hour fuel : forall gen plan (i : nat),
  (hourlyMeasure (duration plan) (60 * Z.of_nat i) 0 <= fuel)%nat ->
  hourlyLoop fuel gen plan i (duration plan) (60 * Z.of_nat i)
    (hour (startTime plan) + Z.of_nat i) 0
  = Some (map (hourChunk gen plan)
            (seq i (Z.to_nat ((duration plan + 59) / 60) - i))).
Proof.
  induction fuel as [|fuel IH]; intros gen plan i Hfuel; unfold hourlyMeasure in Hfuel;
    simpl; destruct (Z.ltb_spec (60 * Z.of_nat i) (duration plan)) as [Hlt|Hge].
  - lia.
  - replace (Z.to_nat ((duration plan + 59) / 60) - i)%nat with 0%nat; [reflexivity|].
    assert ((duration plan + 59) / 60 <= Z.of_nat i)
      by (apply Z.lt_succ_r, Z.div_lt_upper_bound; lia).
    lia.
  - set (total := duration plan) in *.
    set (d := Z.min (Z.min (60 - 0) (total - 60 * Z.of_nat i)) 60).
    assert (Hlow : Z.of_nat i + 1 <= (total + 59) / 60)
      by (apply Z.div_le_lower_bound; lia).
    assert (Hseq : (Z.to_nat ((total + 59) / 60) - i
                    = S (Z.to_nat ((total + 59) / 60) - S i))%nat) by lia.
    rewrite Hseq. cbn [seq map].
    assert (Hchunk :
      {| id := gen i;
         description := chunkLabel plan total (60 * Z.of_nat i);
         startTime := {| hour := hour (startTime plan) + Z.of_nat i; minute := 0 |};
         duration := d;
         location := location plan;
         status := pending |} = hourChunk gen plan i).
    { unfold hourChunk, chunkLabel. fold total. rewrite ceilDiv_60. unfold JS.floorDiv.
      rewrite (Z.mul_comm 60), Z.div_mul by lia. f_equal. unfold d. lia. }
    rewrite Hchunk.
    destruct (Z.geb_spec (0 + d) 60) as [Hcarry|Hstay].
    + assert (Hd : d = 60) by (unfold d in *; lia).
      replace (60 * Z.of_nat i + d) with (60 * Z.of_nat (S i)) by lia.
      replace (hour (startTime plan) + Z.of_nat i + 1)
        with (hour (startTime plan) + Z.of_nat (S i)) by lia.
      replace (0 + d - 60) with 0 by lia.
      rewrite IH by (unfold hourlyMeasure; lia). reflexivity.
    + assert (Hend : 60 * Z.of_nat i + d = total) by (unfold d in *; lia).
      assert (Hlast : (total + 59) / 60 = Z.of_nat i + 1).
      { apply Z.le_antisymm; [|exact Hlow].
        apply Z.lt_succ_r, Z.div_lt_upper_bound; unfold d in *; lia. }
      replace (Z.to_nat ((total + 59) / 60) - S i)%nat with 0%nat by lia.
      rewrite Hend.
      destruct fuel; simpl; destruct (Z.ltb_spec total total); try lia; reflexivity.
  - replace (Z.to_nat ((duration plan + 59) / 60) - i)%nat with 0%nat; [reflexivity|].
    assert ((duration plan + 59) / 60 <= Z.of_nat i)
      by (apply Z.lt_succ_r, Z.div_lt_upper_bound; lia).
    lia.
Qed.

(** X6. A plan of [d >= 0] minutes that starts on the hour is cut into
    [ceil (d / 60)] chunks, one per clock hour from its start hour: chunk
    [i] (from 0) is labelled "description (i+1/n)", starts at minute 0 of
    hour [start + i] and lasts 60 minutes, the last one what is left. A
    plan of no minutes gets no chunk. *)
Theorem decomposePlanToHourly_on_the_hour gen plan :
  minute (startTime plan) = 0 -> 0 <= duration plan ->
  decomposePlanToHourly gen plan
  = map (hourChunk gen plan) (seq 0 (Z.to_nat ((duration plan + 59) / 60))).
Proof.
  intros Hmin Hdur.
  pose proof (decomposePlanToHourly_fuel gen plan) as Hrun.
  rewrite Hmin in Hrun.
  pose proof (hourlyLoop_on_the_hour (hourlyMeasure (duration plan) 0 0) gen plan 0
                (Nat.le_refl _)) as Hloop.
  cbn [Z.of_nat] in Hloop. rewrite Z.mul_0_r, Z.add_0_r, Nat.sub_0_r in Hloop.
  rewrite Hloop in Hrun. injection Hrun as <-. reflexivity.
Qed.

Lemma decomposePlanToHourly_on_the_hour_witness :
  map (fun c => (description c, hour (startTime c), duration c))
    (decomposePlanToHourly (fun _ => "plan-1")
       (createPlan "plan-0" "Watch vintage TV shows" 18 0 90 None))
  = [ ("Watch vintage TV shows (1/2)", 18, 60); ("Watch vintage TV shows (2/2)", 19, 30) ].
Proof.
  rewrite (decomposePlanToHourly_on_the_hour (fun _ => "plan-1")
             (createPlan "plan-0" "Watch vintage TV shows" 18 0 90 None));
    [reflexivity | reflexivity | simpl; lia].
Defined.

(** *** Detailed plans *)

Lemma detailedLoop_each activities : forall gen plan per k ch cmin remaining,
  1 <= per ->
  Z.of_nat (length activities) * per <= remaining ->
  let detailed := detailedLoop gen plan per activities k ch cmin remaining in
  map description detailed = activities
  /\ Forall (fun d => duration d = Z.min per 15 /\ location d = location plan) detailed
  /\ map id detailed = map gen (seq k (length activities)).
Proof.
  induction activities as [|a rest IH]; intros gen plan per k ch cmin remaining Hper Hrem.
  - simpl. repeat split. constructor.
  - cbn [detailedLoop length]. cbn [length] in Hrem.
    rewrite Nat2Z.inj_succ in Hrem.
    set (d := Z.min (Z.min per remaining) 15).
    pose proof (Nat2Z.is_nonneg (length rest)) as Hlen.
    assert (Hle : per <= remaining) by nia.
    assert (Hd : d = Z.min per 15) by (unfold d; lia).
    destruct (Z.gtb_spec d 0) as [Hpos|Hzero]; [|lia].
    assert (Hrest : Z.of_nat (length rest) * per <= remaining - d) by nia.
    destruct (Z.geb_spec (cmin + d) 60).
    + destruct (IH gen plan per (S k) (ch + 1) (cmin + d - 60) (remaining - d) Hper Hrest)
        as (Hdesc & Hall & Hids).
      cbv zeta. cbn [map seq]. rewrite Hdesc, Hids.
      split; [reflexivity|]. split; [|reflexivity].
      constructor; [simpl; auto | exact Hall].
    + destruct (IH gen plan per (S k) ch (cmin + d) (remaining - d) Hper Hrest)
        as (Hdesc & Hall & Hids).
      cbv zeta. cbn [map seq]. rewrite Hdesc, Hids.
      split; [reflexivity|]. split; [|reflexivity].
      constructor; [simpl; auto | exact Hall].
Qed.

(** X7. [decomposePlanToDetailed] makes one detailed plan per activity
    of the plan's description, in order and at the plan's location, each
    lasting the even share capped at 15 minutes, when the plan has at
    least one minute per activity; a shorter plan, or one of negative
    duration, gets no detailed plan at all. *)
Theorem decomposePlanToDetailed_one_per_activity gen plan :
  let activities := getDetailedActivities (description plan) in
  let n := Z.of_nat (length activities) in
  let detailed := decomposePlanToDetailed gen plan in
  (duration plan < n -> detailed = [])
  /\ (n <= duration plan ->
      map description detailed = activities
      /\ Forall (fun d => duration d = Z.min (duration plan / n) 15
                          /\ location d = location plan) detailed
      /\ map id detailed = map gen (seq 0 (length activities))).
Proof.
  intros activities n detailed. unfold detailed, decomposePlanToDetailed, JS.floorDiv.
  fold activities. fold n.
  assert (Hn : 3 <= n)
    by (pose proof (getDetailedActivities_length (description plan)); unfold n, activities; lia).
  split.
  - intros Hshort. apply detailedLoop_nothing.
    destruct (Z.le_gt_cases 0 (duration plan)) as [Hnn|Hneg].
    + rewrite Z.div_small by lia. lia.
    + assert (duration plan / n < 0) by (apply Z.div_lt_upper_bound; lia). lia.
  - intros Hlong. apply detailedLoop_each.
    + apply Z.div_le_lower_bound; lia.
    + fold n. pose proof (Z.mul_div_le (duration plan) n ltac:(lia)). lia.
Qed.

Definition briefWakeUp : Plan := createPlan "plan-0" "Wake up" 7 0 4 None.

Lemma decomposePlanToDetailed_one_per_activity_witness :
  decomposePlanToDetailed (fun _ => "plan-1") briefWakeUp = [].
Proof.
  apply (decomposePlanToDetailed_one_per_activity (fun _ => "plan-1") briefWakeUp).
  vm_compute. reflexivity.
Defined.

(** *** The current plan of a planner *)

Lemma contiguous_covers t plans : forall start,
  contiguousFrom start plans ->
  Forall (fun p => 0 <= duration p) plans ->
  start <= minuteOfDay t < start + totalDuration plans ->
  Exists (fun p => covers p t) plans.
Proof.
  induction plans as [|p plans IH]; intros start Hc Hd Ht; simpl in *; [lia|].
  destruct Hc as [Hs Hc]. inversion Hd as [|? ? Hp Hrest]; subst.
  destruct (Z.lt_ge_cases (minuteOfDay t) (planEnd p)) as [Hin|Hout].
  - apply Exists_cons_hd. unfold covers. lia.
  - apply Exists_cons_tl. apply (IH (planEnd p) Hc Hrest). unfold planEnd in *. lia.
Qed.

Lemma tiles_cover t broad : forall chunkss,
  Forall2 tiles broad chunkss ->
  Forall (fun c => 0 <= duration c) (concat chunkss) ->
  Exists (fun p => covers p t) broad ->
  Exists (fun p => covers p t) (concat chunkss).
Proof.
  induction broad as [|b broad IH]; intros chunkss Hf2 Hdur Hex;
    inversion Hf2 as [|? chunks ? rest Htiles Hrest]; subst; [inversion Hex|].
  simpl in *. apply Forall_app in Hdur as [Hd1 Hd2]. apply Exists_app.
  inversion Hex as [? ? Hb|? ? Hlater]; subst.
  - left. destruct Htiles as (Hc & _ & Hsum).
    apply (contiguous_covers t chunks (planStart b) Hc Hd1).
    unfold covers, planEnd in Hb. lia.
  - right. apply IH; assumption.
Qed.

(** X8. Once [initializeDailyPlan] has run on well-formed broad strokes,
    the planner's [getCurrentPlan] answers every time that a broad stroke
    covers with one of the hourly chunks, never with the broad stroke
    itself: a plan of at most 60 minutes whose interval holds the time. *)
Theorem initializeDailyPlan_then_getCurrentPlan genRoutine gen p occupation day time :
  Forall wellFormedPlan (routineGenerator p genRoutine occupation) ->
  Exists (fun b => covers b time) (routineGenerator p genRoutine occupation) ->
  let '(dailyPlan, planner) := initializeDailyPlan genRoutine gen p occupation day in
  getDailyPlan planner = Some dailyPlan
  /\ exists chunk,
       plannerGetCurrentPlan planner time = Some chunk
       /\ In chunk (hourlyPlans dailyPlan)
       /\ covers chunk time
       /\ 1 <= duration chunk <= 60.
Proof.
  intros Hwf Hex. unfold initializeDailyPlan, plannerGetCurrentPlan, getCurrentPlan.
  cbn [currentPlan getDailyPlan detailedPlans hourlyPlans broadStrokes scanTier].
  split; [reflexivity|].
  destruct (decomposeAll_spec _ gen 0%nat Hwf) as (chunkss & Heq & Hf2 & Hall & _).
  assert (Hcov : Exists (fun c => covers c time)
                   (decomposeAll gen 0 (routineGenerator p genRoutine occupation))).
  { rewrite Heq. apply tiles_cover with (broad := routineGenerator p genRoutine occupation);
      [exact Hf2 | | exact Hex].
    rewrite <- Heq. eapply Forall_impl; [exact Hall|]. simpl. intros; lia. }
  fold (minuteOfDay time).
  destruct (scanTier_covered _ _ Hcov) as [chunk Hchunk]. rewrite Hchunk.
  destruct (scanTier_sound _ _ _ Hchunk) as [Hin Hint].
  exists chunk. split; [reflexivity|]. split; [exact Hin|]. split; [exact Hint|].
  rewrite Forall_forall in Hall. apply Hall, list_elem_of_In, Hin.
Qed.

Lemma initializeDailyPlan_then_getCurrentPlan_witness :
  exists chunk,
    plannerGetCurrentPlan
      (snd (initializeDailyPlan (fun _ => "plan-0") (fun _ => "plan-6")
              (newPlanner (fun _ _ => [walkToWork; research])) "physicist" 1))
      {| clockHour := 10; clockMinute := 15 |} = Some chunk
    /\ 1 <= duration chunk <= 60.
Proof.
  pose proof (initializeDailyPlan_then_getCurrentPlan (fun _ => "plan-0") (fun _ => "plan-6")
                (newPlanner (fun _ _ => [walkToWork; research])) "physicist" 1
                {| clockHour := 10; clockMinute := 15 |}) as H.
  cbv zeta in H. cbn [initializeDailyPlan snd] in *.
  destruct H as (_ & chunk & Hchunk & _ & _ & Hdur).
  - repeat constructor; unfold wellFormedPlan; simpl; lia.
  - apply Exists_cons_tl, Exists_cons_hd.
    unfold covers, minuteOfDay, planEnd, planStart. simpl. lia.
  - exists chunk. split; [exact Hchunk | exact Hdur].
Defined.

Lemma scanTier_before t tier :
  Forall (fun p => t < planStart p) tier -> scanTier t tier = None.
Proof.
  induction 1 as [|p tier Hp _ IH]; simpl; [reflexivity|].
  destruct (Z.geb_spec t (planStart p)); [lia | exact IH].
Qed.

Lemma concat_Forall2_starts (broad : list Plan) : forall chunkss bound,
  Forall2 tiles broad chunkss ->
  Forall (fun c => 0 <= duration c) (concat chunkss) ->
  Forall (fun b => bound <= planStart b) broad ->
  Forall (fun c => bound <= planStart c) (concat chunkss).
Proof.
  induction broad as [|b broad IH]; intros chunkss bound Hf2 Hdur Hlow;
    inversion Hf2 as [|? chunks ? rest Htiles Hrest]; subst; [constructor|].
  simpl in *. apply Forall_app in Hdur as [Hd1 Hd2].
  inversion Hlow as [|? ? Hb Hlater]; subst.
  apply Forall_app. split; [|apply IH; assumption].
  destruct Htiles as (Hc & _ & _).
  pose proof (contiguousFrom_starts_after _ _ Hc Hd1) as Hafter.
  eapply Forall_impl; [exact Hafter|]. simpl. intros; lia.
Qed.

(** The planner of a character after its day has been planned from a
    routine of [getDefaultRoutine] has no plan for a time before 05:30. *)
Lemma planner_quiet_before_dawn genRoutine gen occupation day time broad :
  Routines.getDefaultRoutine genRoutine occupation = Routines.Routine broad ->
  clockHour time * 60 + clockMinute time < 330 ->
  plannerGetCurrentPlan
    (snd (initializeDailyPlan genRoutine gen
            (newPlanner Routines.generator) occupation day)) time
  = None.
Proof.
  intros Hcall Hearly. unfold initializeDailyPlan, plannerGetCurrentPlan, getCurrentPlan.
  cbn [snd currentPlan newPlanner routineGenerator detailedPlans hourlyPlans
       broadStrokes scanTier].
  unfold Routines.generator. rewrite Hcall.
  destruct (getDefaultRoutine_ok genRoutine occupation broad Hcall) as [Hok _].
  destruct (routineOk_spec _ Hok) as (Hwf & _ & Hfacts & _).
  destruct (decomposeAll_spec _ gen 0%nat Hwf) as (chunkss & Heq & Hf2 & Hall & _).
  assert (Hbroad : Forall (fun b => 330 <= planStart b) broad)
    by (eapply Forall_impl; [exact Hfacts|]; simpl; intros; lia).
  rewrite (scanTier_before _ (decomposeAll gen 0 _)).
  - apply scanTier_before. eapply Forall_impl; [exact Hbroad|]. simpl. intros; lia.
  - rewrite Heq.
    eapply Forall_impl;
      [apply (concat_Forall2_starts _ chunkss 330 Hf2); [|exact Hbroad]|simpl; intros; lia].
    rewrite <- Heq. eapply Forall_impl; [exact Hall|]. simpl. intros; lia.
Qed.

(** X9. A character, as its constructor makes it, plans its day with
    [getDefaultRoutine]. For an occupation whose key is ["constructor"] or
    ["__proto__"], [initializeDailyPlan] throws. For every other
    occupation the planner then has no current plan between 00:00 and
    05:29: every default routine starts at 05:30 or later, and the hours
    of the plans that run past midnight ("Sleep" from 22:30 on) count on
    from 24, which no clock time of the day reaches. *)
Theorem no_current_plan_before_dawn data day oracle cursor time :
  let key := Routines.routineKey (Character.occupation data) in
  match (Character.initializeDailyPlan (Character.newCharacter data) day oracle cursor).1 with
  | None => key = "constructor" \/ key = "__proto__"
  | Some (dailyPlan, planned) =>
      key <> "constructor" /\ key <> "__proto__"
      /\ getDailyPlan (Character.planner planned) = Some dailyPlan
      /\ (clockHour time * 60 + clockMinute time < 330 ->
          plannerGetCurrentPlan (Character.planner planned) time = None)
  end.
Proof.
  intros key. unfold Character.initializeDailyPlan, Host.bind, Host.ret, Host.idSupply.
  cbn [fst snd Character.data Character.newCharacter].
  set (genRoutine := fun i => Host.ids oracle (Host.idsDrawn cursor + i)%nat).
  destruct (Routines.getDefaultRoutine genRoutine (Character.occupation data))
    as [broad|name] eqn:Hcall.
  - assert (Hkey : ~ (key = "constructor" \/ key = "__proto__")).
    { intros Hkey. unfold genRoutine in Hcall.
      rewrite (getDefaultRoutine_inherited _ _ Hkey) in Hcall. discriminate. }
    cbn [Host.skipIds fst snd Character.planner].
    match goal with
    | |- context [initializeDailyPlan genRoutine ?gen ?p _ day] =>
        pose proof (planner_quiet_before_dawn genRoutine gen
                      (Character.occupation data) day time broad Hcall) as Hquiet;
        assert (Hp : snd (initializeDailyPlan genRoutine gen p
                            (Character.occupation data) day)
                     = snd (initializeDailyPlan genRoutine gen
                              (newPlanner Routines.generator)
                              (Character.occupation data) day))
          by (unfold initializeDailyPlan, Character.newCharacter; cbn [Character.planner];
              destruct (Character.currentPlan data); reflexivity);
        destruct (initializeDailyPlan genRoutine gen p (Character.occupation data) day)
          as [plan planner'] eqn:Hrun
    end.
    cbn [fst snd Character.planner] in *.
    split; [tauto|]. split; [tauto|]. split.
    + unfold initializeDailyPlan in Hrun. injection Hrun as <- <-. reflexivity.
    + intros Hearly. rewrite Hp. exact (Hquiet Hearly).
  - cbn [fst]. unfold genRoutine in Hcall.
    destruct (getDefaultRoutine_not_a_routine _ _ _ Hcall) as [_ Hkey].
    destruct (getDefaultRoutine_not_a_routine _ _ _ Hcall) as [Hname _].
    fold key in Hname. rewrite <- Hname. exact Hkey.
Qed.

End PlannerLaws.

(** ** GameMap: the search on any map *)

Module GameMapLaws.
Import Types GameMap GameMapSpec.

(** One step of a walk: onto an adjacent cell that is walkable and not
    occupied. *)
Definition Step (m : GameMap) (occupiedPositions : list Position) (p q : Position) : Prop :=
  adjacent p q /\ isWalkable m (x q) (y q) = true /\ ~ In q occupiedPositions.

(** A walk: every position after the first is one step from the one
    before it. *)
Fixpoint Walk (m : GameMap) (occupiedPositions : list Position) (path : list Position)
    : Prop :=
  match path with
  | a :: (b :: _) as rest => Step m occupiedPositions a b /\ Walk m occupiedPositions rest
  | _ => True
  end.

(** [Reach m occupied from j q]: some walk of [j] steps leads from [from]
    to [q]. *)
Inductive Reach (m : GameMap) (occupiedPositions : list Position) (from : Position)
    : nat -> Position -> Prop :=
| reach_start : Reach m occupiedPositions from 0 from
| reach_step j p q :
    Reach m occupiedPositions from j p ->
    Step m occupiedPositions p q ->
    Reach m occupiedPositions from (S j) q.

Lemma Reach_Connected m occupiedPositions from j q :
  Reach m occupiedPositions from j q -> Connected m occupiedPositions from q.
Proof.
  induction 1 as [|j p q _ IH (Hadj & Hwalk & Hfree)]; [apply connected_start|].
  eapply connected_step; eassumption.
Qed.

Lemma Connected_Reach m occupiedPositions from q :
  Connected m occupiedPositions from q -> exists j, Reach m occupiedPositions from j q.
Proof.
  induction 1 as [|p q _ [j IH] Hadj Hwalk Hfree]; [exists 0%nat; apply reach_start|].
  exists (S j). eapply reach_step; [exact IH|]. repeat split; assumption.
Qed.

(** A walk from a cell that [j] steps reach extends the reach. *)
Lemma Walk_Reach m occupiedPositions from rest : forall j p q,
  Reach m occupiedPositions from j p ->
  Walk m occupiedPositions (p :: rest) ->
  last (p :: rest) = Some q ->
  Reach m occupiedPositions from (j + length rest) q.
Proof.
  induction rest as [|b rest IH]; intros j p q Hreach Hwalk Hlast.
  - simpl in Hlast. injection Hlast as <-. rewrite Nat.add_0_r. exact Hreach.
  - destruct Hwalk as [Hstep Hwalk]. cbn [length].
    replace (j + S (length rest))%nat with (S j + length rest)%nat by lia.
    apply (IH (S j) b q); [eapply reach_step; eassumption | exact Hwalk |].
    rewrite last_cons_cons in Hlast. exact Hlast.
Qed.

Lemma adjacent_direction m p q :
  inGrid m p -> inGrid m q -> adjacent p q ->
  exists dir, getNewPosition m p dir = q.
Proof.
  unfold inGrid, adjacent. destruct p as [a b], q as [c e]. simpl. intros Hp Hq Hadj.
  destruct (Z.eq_dec c (a + 1)); [exists right; simpl; f_equal; lia|].
  destruct (Z.eq_dec c (a - 1)); [exists left; simpl; f_equal; lia|].
  destruct (Z.eq_dec e (b + 1)); [exists down; simpl; f_equal; lia|].
  exists up. simpl. f_equal; lia.
Qed.

Lemma heuristic_adjacent n p q :
  adjacent p q -> heuristic n q <= heuristic n p + 1.
Proof. unfold adjacent, heuristic. lia. Qed.

Lemma ClosedChain_unique from cameFrom closedSet c k :
  ClosedChain from cameFrom closedSet c k ->
  forall k', ClosedChain from cameFrom closedSet c k' -> k' = k.
Proof.
  induction 1 as [Hin Hnone | c p k Hin Hp _ IH]; intros k' Hchain'.
  - inversion Hchain' as [|? q ? _ Hq _]; subst; [reflexivity | congruence].
  - inversion Hchain' as [Hin' Hnone' | ? q k0 _ Hq Hrest]; subst; [congruence|].
    rewrite Hp in Hq. injection Hq as <-. f_equal. apply IH, Hrest.
Qed.

(** The path that the reconstruction returns follows [cameFrom] link by
    link: it is a walk as soon as every link is a step. *)
Lemma reconstructPath_walk m occupiedPositions cameFrom fuel : forall c acc path,
  (forall k p, cameFrom !! k = Some p -> Step m occupiedPositions p (cell k)) ->
  Walk m occupiedPositions (c :: acc) ->
  reconstructPath fuel cameFrom c acc = Some path ->
  Walk m occupiedPositions path.
Proof.
  induction fuel as [|fuel IH]; intros c acc path Hsteps Hwalk; simpl; [discriminate|].
  destruct (cameFrom !! key c) as [p|] eqn:Hp.
  - apply IH; [exact Hsteps|]. split; [|exact Hwalk].
    specialize (Hsteps _ _ Hp). rewrite cell_key in Hsteps. exact Hsteps.
  - intros [= <-]. exact Hwalk.
Qed.

Section Shortest.
Variables (m : GameMap) (occupiedPositions : list Position) (from to : Position).
Hypothesis from_valid : inGrid m from.

Let occupied : gset (Z * Z) := list_to_set (map key occupiedPositions).

Lemma occupied_free q : key q ∉ occupied -> ~ In q occupiedPositions.
Proof.
  intros Hq Hin. apply Hq. unfold occupied. apply elem_of_list_to_set.
  apply list_elem_of_In, in_map, Hin.
Qed.

Lemma free_occupied q : ~ In q occupiedPositions -> key q ∉ occupied.
Proof.
  intros Hq Hin. apply Hq. unfold occupied in Hin. apply elem_of_list_to_set in Hin.
  apply list_elem_of_In, in_map_iff in Hin as (q' & Hkey & Hin).
  apply key_inj in Hkey. subst q'. exact Hin.
Qed.

(** The neighbour [q] of a closed cell with a chain of [k] links is dealt
    with: closed, or no step at all, or open at no more than [k + 1]. *)
Definition Handled (k : nat) (openSet : list Node) (closedSet : gset (Z * Z))
    (q : Position) : Prop :=
  key q ∈ closedSet
  \/ isWalkable m (x q) (y q) = false
  \/ key q ∈ occupied
  \/ exists n, n ∈ openSet /\ position n = q /\ g n <= Z.of_nat k + 1.

(** The invariant of the search after [i] iterations, while the
    neighbours of the cell [cur] in the directions [visited] have been
    looked at. *)
Record Astar (i : nat) (cur : Z * Z) (visited : list Direction)
    (openSet : list Node) (closedSet : gset (Z * Z))
    (cameFrom : gmap (Z * Z) Position) : Prop := {
  as_nodup : NoDup ((key ∘ position) <$> openSet);
  as_steps : forall k p, cameFrom !! k = Some p -> Step m occupiedPositions p (cell k);
  as_from : key from ∈ closedSet;
  as_open : forall n, n ∈ openSet ->
      (key (position n) ∉ closedSet)
      /\ inGrid m (position n)
      /\ f n = g n + heuristic (position n) to
      /\ exists p k,
           cameFrom !! key (position n) = Some p
           /\ ClosedChain from cameFrom closedSet p k
           /\ (k < i)%nat
           /\ g n = Z.of_nat k + 1;
  as_closed : forall c, c ∈ closedSet ->
      inGrid m (cell c)
      /\ cell c <> to
      /\ exists k,
           ClosedChain from cameFrom closedSet (cell c) k
           /\ (k < i)%nat
           /\ (forall j, Reach m occupiedPositions from j (cell c) -> (k <= j)%nat)
           /\ (forall dir, c <> cur \/ dir ∈ visited ->
               Handled k openSet closedSet (getNewPosition m (cell c) dir))
}.

(** While the search runs, a cell that [j] steps reach and that is not
    closed has an open node on the way to it. *)
Lemma Astar_reach_open i cur visited openSet closedSet cameFrom :
  Astar i cur visited openSet closedSet cameFrom ->
  (forall dir, dir ∈ visited) ->
  forall j q, Reach m occupiedPositions from j q ->
  key q ∉ closedSet ->
  exists n, n ∈ openSet /\ g n + heuristic (position n) q <= Z.of_nat j.
Proof.
  intros Hinv Hall j q Hreach.
  induction Hreach as [|j p q Hreach IH Hstep]; intros Hq.
  - exfalso. exact (Hq (as_from _ _ _ _ _ _ Hinv)).
  - pose proof Hstep as (Hadj & Hwalk & Hfree).
    destruct (decide (key p ∈ closedSet)) as [Hp|Hp].
    + destruct (as_closed _ _ _ _ _ _ Hinv _ Hp) as (Hgrid & _ & k & _ & _ & Hbest & Hset).
      rewrite cell_key in *.
      destruct (adjacent_direction m p q Hgrid (isWalkable_inGrid _ _ Hwalk) Hadj)
        as [dir Hdir].
      specialize (Hset dir (or_intror (Hall dir))). rewrite Hdir in Hset.
      destruct Hset as [Hc|[Hw|[Ho|(n & Hn & Hpos & Hg)]]].
      * contradiction.
      * congruence.
      * exfalso. exact (free_occupied q Hfree Ho).
      * exists n. split; [exact Hn|]. rewrite Hpos.
        specialize (Hbest j Hreach). unfold heuristic. lia.
    + destruct (IH Hp) as (n & Hn & Hle). exists n. split; [exact Hn|].
      pose proof (heuristic_adjacent (position n) p q Hadj). lia.
Qed.

(** The node that is popped reached its cell by a shortest walk. *)
Lemma Astar_pop_best i cur visited openSet closedSet cameFrom current rest :
  Astar i cur visited openSet closedSet cameFrom ->
  (forall dir, dir ∈ visited) ->
  JS.sort (fun a b => f a - f b <=? 0) openSet = current :: rest ->
  forall j, Reach m occupiedPositions from j (position current) -> g current <= Z.of_nat j.
Proof.
  intros Hinv Hall Hsort j Hreach.
  destruct (pop_split _ _ _ Hsort (as_nodup _ _ _ _ _ _ Hinv)) as (Hcur & _).
  destruct (as_open _ _ _ _ _ _ Hinv _ Hcur) as (Hfresh & _ & Hf & _).
  destruct (Astar_reach_open _ _ _ _ _ _ Hinv Hall j _ Hreach Hfresh) as (n & Hn & Hle).
  pose proof (sort_head_min f openSet current rest Hsort n Hn) as Hmin.
  destruct (as_open _ _ _ _ _ _ Hinv _ Hn) as (_ & _ & Hfn & _).
  pose proof (heuristic_triangle (position n) (position current) to). lia.
Qed.

Lemma Handled_mono k openSet openSet' closedSet closedSet' q :
  Handled k openSet closedSet q ->
  closedSet ⊆ closedSet' ->
  (forall n, n ∈ openSet ->
     key (position n) ∈ closedSet'
     \/ exists n', n' ∈ openSet' /\ position n' = position n /\ g n' <= g n) ->
  Handled k openSet' closedSet' q.
Proof.
  intros [Hc|[Hw|[Ho|(n & Hn & Hpos & Hg)]]] Hsub Hopen.
  - left. apply Hsub, Hc.
  - right. left. exact Hw.
  - right. right. left. exact Ho.
  - destruct (Hopen n Hn) as [Hc|(n' & Hn' & Hpos' & Hg')].
    + left. rewrite <- Hpos. exact Hc.
    + right. right. right. exists n'. split; [exact Hn'|]. split; [congruence | lia].
Qed.

(** Closing the popped node. *)
Lemma Astar_close i cur visited openSet closedSet cameFrom current rest :
  Astar i cur visited openSet closedSet cameFrom ->
  (forall dir, dir ∈ visited) ->
  JS.sort (fun a b => f a - f b <=? 0) openSet = current :: rest ->
  position current <> to ->
  exists k,
    Astar (S i) (key (position current)) [] rest
      ({[key (position current)]} ∪ closedSet) cameFrom
    /\ ClosedChain from cameFrom ({[key (position current)]} ∪ closedSet)
         (position current) k
    /\ (k < S i)%nat
    /\ g current = Z.of_nat k.
Proof.
  intros Hinv Hall Hsort Hshort.
  pose proof (Astar_pop_best _ _ _ _ _ _ _ _ Hinv Hall Hsort) as Hbest.
  pose proof Hinv as [Hnd Hsteps Hfrom Hopen Hclosed].
  destruct (pop_split _ _ _ Hsort Hnd) as (Hcur & Hrest & Hsplit & Hnd').
  destruct (Hopen _ Hcur) as (Hfresh & Hgrid & Hf & p & k & Hp & Hchain & Hk & Hg).
  set (closedSet' := {[key (position current)]} ∪ closedSet).
  assert (Hsub : closedSet ⊆ closedSet') by (unfold closedSet'; set_solver).
  assert (Hmono : forall c n, ClosedChain from cameFrom closedSet c n ->
            ClosedChain from cameFrom closedSet' c n).
  { intros c n Hc. eapply ClosedChain_mono; [exact Hc | exact Hsub | reflexivity]. }
  assert (Hcurrent : ClosedChain from cameFrom closedSet' (position current) (S k)).
  { apply (chain_link _ _ _ _ p); [unfold closedSet'; set_solver | exact Hp |].
    apply Hmono, Hchain. }
  exists (S k). split; [|split; [exact Hcurrent | split; lia]].
  split.
  - exact Hnd'.
  - exact Hsteps.
  - apply Hsub, Hfrom.
  - intros n Hn. destruct (Hrest n Hn) as [Hin Hne].
    destruct (Hopen n Hin) as (Hf' & Hg' & Hfn & q & j & Hq & Hc & Hj & Hgn).
    split; [unfold closedSet'; set_solver|]. split; [exact Hg'|]. split; [exact Hfn|].
    exists q, j. split; [exact Hq|]. split; [apply Hmono, Hc|]. split; [lia | exact Hgn].
  - intros c Hc. apply elem_of_union in Hc as [Hc|Hc].
    + apply elem_of_singleton in Hc as ->. rewrite cell_key.
      split; [exact Hgrid|]. split; [exact Hshort|].
      exists (S k). split; [exact Hcurrent|]. split; [lia|]. split.
      * intros j Hj. specialize (Hbest j Hj). lia.
      * intros dir [Hne|Hin]; [contradiction | inversion Hin].
    + destruct (Hclosed c Hc) as (Hg' & Hs' & j & Hcj & Hj & Hopt & Hset).
      split; [exact Hg'|]. split; [exact Hs'|].
      exists j. split; [apply Hmono, Hcj|]. split; [lia|]. split; [exact Hopt|].
      intros dir _. specialize (Hset dir (or_intror (Hall dir))).
      eapply Handled_mono; [exact Hset | exact Hsub |].
      intros n Hn. destruct (Hsplit n Hn) as [->|Hn'].
      * left. unfold closedSet'. set_solver.
      * right. exists n. split; [exact Hn'|]. split; [reflexivity | lia].
Qed.

(** One neighbour visit keeps the invariant and settles its direction. *)
Lemma Astar_visit i current kc visited openSet closedSet cameFrom dir state :
  Astar i (key (position current)) visited openSet closedSet cameFrom ->
  ClosedChain from cameFrom closedSet (position current) kc ->
  (kc < i)%nat ->
  g current = Z.of_nat kc ->
  visit_spec m occupied to closedSet current openSet cameFrom dir state ->
  Astar i (key (position current)) (dir :: visited) state.1 closedSet state.2
  /\ ClosedChain from state.2 closedSet (position current) kc.
Proof.
  intros Hinv Hchain Hkc Hgc Hvisit.
  pose proof Hinv as [Hnd Hsteps Hfrom Hopen Hclosed].
  pose proof (ClosedChain_closed _ _ _ _ _ Hchain) as Hcur.
  destruct (Hclosed _ Hcur) as (Hgrid & _). rewrite cell_key in Hgrid.
  set (neighbor := getNewPosition m (position current) dir) in *.
  (* the chains survive an entry written for a cell that is not closed *)
  assert (Hupd : forall k p c n, k ∉ closedSet ->
            ClosedChain from cameFrom closedSet c n ->
            ClosedChain from (<[k := p]> cameFrom) closedSet c n).
  { intros k p c n Hk Hc. eapply ClosedChain_mono; [exact Hc | reflexivity |].
    intros k' Hk'. apply lookup_insert_ne. intros ->. contradiction. }
  (* the invariant with the open set left alone and [dir] settled *)
  assert (Hsame : Handled kc openSet closedSet neighbor ->
            Astar i (key (position current)) (dir :: visited) openSet closedSet cameFrom).
  { intros Hset. split; try assumption.
    intros c Hc. destruct (Hclosed c Hc) as (Hg' & Hs' & j & Hcj & Hj & Hopt & Hsettled).
    split; [exact Hg'|]. split; [exact Hs'|].
    exists j. split; [exact Hcj|]. split; [exact Hj|]. split; [exact Hopt|].
    intros dir' [Hne|Hin]; [apply Hsettled; left; exact Hne|].
    apply elem_of_cons in Hin as [->|Hin]; [|apply Hsettled; right; exact Hin].
    destruct (decide (c = key (position current))) as [->|Hne];
      [|apply Hsettled; left; exact Hne].
    rewrite cell_key in *. rewrite (ClosedChain_unique _ _ _ _ _ Hchain _ Hcj). exact Hset. }
  (* the invariant after a node at the neighbour was written *)
  assert (Hwritten : forall openSet' v,
            key neighbor ∉ closedSet ->
            isWalkable m (x neighbor) (y neighbor) = true ->
            key neighbor ∉ occupied ->
            NoDup ((key ∘ position) <$> openSet') ->
            v ∈ openSet' -> position v = neighbor -> g v = g current + 1 ->
            f v = g current + 1 + heuristic neighbor to ->
            (forall n, n ∈ openSet' -> n = v \/ (n ∈ openSet /\ position n <> neighbor)) ->
            (forall n, n ∈ openSet ->
               exists n', n' ∈ openSet' /\ position n' = position n /\ g n' <= g n) ->
            Astar i (key (position current)) (dir :: visited) openSet' closedSet
              (<[key neighbor := position current]> cameFrom)).
  { intros openSet' v Hfresh Hwalk Hfree Hnd' Hv Hpos Hg Hf Hfrom' Hkeep.
    assert (Hstep : Step m occupiedPositions (position current) neighbor).
    { split; [|split; [exact Hwalk | apply occupied_free, Hfree]].
      destruct (getNewPosition_adjacent m (position current) dir Hgrid) as [Heq|Hadj];
        [|exact Hadj].
      exfalso. apply Hfresh. unfold neighbor. rewrite Heq. exact Hcur. }
    split.
    - exact Hnd'.
    - intros k p Hkp. destruct (decide (k = key neighbor)) as [->|Hne].
      + rewrite lookup_insert_eq in Hkp. injection Hkp as <-. rewrite cell_key. exact Hstep.
      + rewrite lookup_insert_ne in Hkp by congruence. apply Hsteps, Hkp.
    - exact Hfrom.
    - intros n Hn. destruct (Hfrom' n Hn) as [->|[Hold Hne]].
      + rewrite Hpos. split; [exact Hfresh|].
        split; [apply isWalkable_inGrid, Hwalk|]. split; [rewrite Hf, Hg; reflexivity|].
        exists (position current), kc. rewrite lookup_insert_eq.
        split; [reflexivity|]. split; [apply Hupd; assumption|]. split; [exact Hkc | lia].
      + destruct (Hopen n Hold) as (Hf' & Hg' & Hfn & q & j & Hq & Hc & Hj & Hgn).
        split; [exact Hf'|]. split; [exact Hg'|]. split; [exact Hfn|].
        exists q, j. split; [|split; [apply Hupd; assumption | split; assumption]].
        rewrite lookup_insert_ne; [exact Hq|]. intros Heq. apply key_inj in Heq. congruence.
    - intros c Hc. destruct (Hclosed c Hc) as (Hg' & Hs' & j & Hcj & Hj & Hopt & Hsettled).
      split; [exact Hg'|]. split; [exact Hs'|].
      exists j. split; [apply Hupd; assumption|]. split; [exact Hj|]. split; [exact Hopt|].
      assert (Hkeep' : forall q, Handled j openSet closedSet q -> Handled j openSet' closedSet q).
      { intros q Hq. eapply Handled_mono; [exact Hq | reflexivity |].
        intros n Hn. right. apply Hkeep, Hn. }
      intros dir' [Hne|Hin]; [apply Hkeep', Hsettled; left; exact Hne|].
      apply elem_of_cons in Hin as [->|Hin]; [|apply Hkeep', Hsettled; right; exact Hin].
      destruct (decide (c = key (position current))) as [->|Hne];
        [|apply Hkeep', Hsettled; left; exact Hne].
      rewrite cell_key in *. rewrite (ClosedChain_unique _ _ _ _ _ Hchain _ Hcj).
      right. right. right. exists v. split; [exact Hv|]. split; [exact Hpos | lia]. }
  destruct Hvisit as [Hc | Hblocked | Hocc | idx existing Hi Hpos Hle
                     | idx existing Himp | Hnew]; cbn [fst snd].
  - split; [|exact Hchain]. apply Hsame. left. exact Hc.
  - split; [|exact Hchain]. apply Hsame. right. left. exact Hblocked.
  - split; [|exact Hchain]. apply Hsame. right. right. left. exact Hocc.
  - split; [|exact Hchain]. apply Hsame. right. right. right.
    exists existing. split; [apply list_elem_of_lookup; eauto|]. split; [exact Hpos | lia].
  - cbv zeta in Himp. fold neighbor in Himp.
    destruct Himp as (Hfresh & Hwalk & Hfree & Hi & Hpos & Hlt).
    split; [|apply Hupd; assumption].
    apply (Hwritten _ (improved to current neighbor existing)); try assumption;
      try reflexivity.
    + erewrite keys_insert_same; [exact Hnd | exact Hi | reflexivity].
    + apply list_elem_of_insert. eapply lookup_lt_Some, Hi.
    + intros n Hn. apply elem_of_insert_inv in Hn as [->|(j & Hne & Hj)]; [left; reflexivity|].
      right. split; [apply list_elem_of_lookup; eauto|].
      rewrite <- Hpos. apply (keys_NoDup_lookup openSet idx j existing n Hnd Hi Hj Hne).
    + intros n Hn. apply list_elem_of_lookup in Hn as [j Hj].
      destruct (decide (j = idx)) as [->|Hne].
      * rewrite Hi in Hj. injection Hj as <-.
        exists (improved to current neighbor existing).
        split; [apply list_elem_of_insert; eapply lookup_lt_Some, Hi|].
        split; [reflexivity | simpl; lia].
      * exists n. split; [|split; [reflexivity | lia]].
        apply list_elem_of_lookup. exists j. rewrite list_lookup_insert_ne by auto. exact Hj.
  - cbv zeta in Hnew. fold neighbor in Hnew.
    destruct Hnew as (Hfresh & Hwalk & Hfree & Hnone).
    split; [|apply Hupd; assumption].
    apply (Hwritten _ (neighborNode to current neighbor)); try assumption; try reflexivity.
    + apply keys_snoc_NoDup; [exact Hnd | exact Hnone].
    + apply elem_of_app. right. apply list_elem_of_singleton. reflexivity.
    + intros n Hn. apply elem_of_app in Hn as [Hn|Hn].
      * right. split; [exact Hn | apply Hnone, Hn].
      * left. apply list_elem_of_singleton in Hn. exact Hn.
    + intros n Hn. exists n. split; [apply elem_of_app; left; exact Hn|].
      split; [reflexivity | lia].
Qed.

Lemma Astar_visits i current kc dirs : forall visited openSet closedSet cameFrom,
  Astar i (key (position current)) visited openSet closedSet cameFrom ->
  ClosedChain from cameFrom closedSet (position current) kc ->
  (kc < i)%nat ->
  g current = Z.of_nat kc ->
  let state :=
    fold_left (visitNeighbor m occupied to closedSet current) dirs (openSet, cameFrom) in
  Astar i (key (position current)) (rev dirs ++ visited) state.1 closedSet state.2.
Proof.
  induction dirs as [|dir dirs IH]; intros visited openSet closedSet cameFrom Hinv Hchain Hkc Hg;
    cbn [fold_left]; [exact Hinv|].
  pose proof (visitNeighbor_spec m occupied to closedSet current openSet cameFrom dir)
    as Hvisit.
  destruct (visitNeighbor m occupied to closedSet current (openSet, cameFrom) dir)
    as [openSet1 cameFrom1].
  destruct (Astar_visit _ _ _ _ _ _ _ _ _ Hinv Hchain Hkc Hg Hvisit) as [Hinv1 Hchain1].
  cbn [fst snd] in Hinv1, Hchain1.
  cbn [rev]. rewrite <- app_assoc. cbn [app].
  apply IH; assumption.
Qed.

(** What [findPath] may return: nothing when no walk leads to the goal, or
    a walk from the start to the goal that no walk beats. *)
Definition Outcome (path : list Position) : Prop :=
  (path = [] /\ forall j, ~ Reach m occupiedPositions from j to)
  \/ (head path = Some from
      /\ last path = Some to
      /\ Walk m occupiedPositions path
      /\ forall j, Reach m occupiedPositions from j to -> (length path <= S j)%nat).

Lemma all_directions (dir : Direction) : dir ∈ rev [up; down; left; right] ++ [].
Proof. destruct dir; simpl; set_solver. Qed.

Lemma searchLoop_shortest fuel : forall i cur visited bound openSet closedSet cameFrom,
  Astar i cur visited openSet closedSet cameFrom ->
  (forall dir, dir ∈ visited) ->
  (potential m from closedSet < fuel)%nat ->
  (i + potential m from closedSet < bound)%nat ->
  exists path,
    searchLoop fuel bound m occupied to openSet closedSet cameFrom = Some path
    /\ Outcome path.
Proof.
  induction fuel as [|fuel IH];
    intros i cur visited bound openSet closedSet cameFrom Hinv Hall Hfuel Hbound; [lia|].
  rewrite searchLoop_unfold.
  destruct (JS.sort _ openSet) as [|current rest] eqn:Hsort.
  { exists []. split; [reflexivity|]. left. split; [reflexivity|].
    intros j Hreach.
    assert (Hto : key to ∉ closedSet).
    { intros Hc. destruct (as_closed _ _ _ _ _ _ Hinv _ Hc) as (_ & Hne & _).
      rewrite cell_key in Hne. congruence. }
    destruct (Astar_reach_open _ _ _ _ _ _ Hinv Hall j to Hreach Hto) as (n & Hn & _).
    pose proof (sort_perm f openSet) as Hperm. cbv zeta in Hperm.
    rewrite Hsort in Hperm. rewrite <- Hperm in Hn. inversion Hn. }
  pose proof (Astar_pop_best _ _ _ _ _ _ _ _ Hinv Hall Hsort) as Hbest.
  destruct (pop_split _ _ _ Hsort (as_nodup _ _ _ _ _ _ Hinv)) as (Hcur & _).
  destruct (as_open _ _ _ _ _ _ Hinv _ Hcur)
    as (Hfresh & Hgrid & _ & p & k & Hp & Hchain & Hk & Hg).
  destruct ((x (position current) =? x to) && (y (position current) =? y to)) eqn:Hgoal.
  - apply at_goal in Hgoal.
    destruct bound as [|bound]; [lia|].
    pose proof (as_steps _ _ _ _ _ _ Hinv) as Hsteps.
    destruct (reconstructPath_chain _ _ _ _ _ Hchain bound [position current])
      as (path & Hpath & Hlen & Hhead & Hlast); [lia|].
    assert (Hrun : reconstructPath (S bound) cameFrom (position current) []
                   = Some (path ++ [position current])).
    { cbn [reconstructPath]. rewrite Hp. exact Hpath. }
    rewrite Hrun. eexists. split; [reflexivity|]. right.
    split; [destruct path; [discriminate | exact Hhead]|].
    split; [rewrite last_snoc, Hgoal; reflexivity|].
    split; [apply (reconstructPath_walk m occupiedPositions cameFrom (S bound)
                     (position current) [] _ Hsteps I Hrun)|].
    intros j Hj. rewrite <- Hgoal in Hj. specialize (Hbest j Hj).
    rewrite length_app, Hlen. simpl. lia.
  - assert (Hshort : position current <> to).
    { intros Heq. apply at_goal in Heq. congruence. }
    destruct (Astar_close _ _ _ _ _ _ _ _ Hinv Hall Hsort Hshort)
      as (kc & Hinv' & Hchain' & Hkc & Hgc).
    cbv zeta. set (closedSet' := {[key (position current)]} ∪ closedSet) in *.
    pose proof (Astar_visits (S i) current kc [up; down; left; right] [] rest closedSet'
                  cameFrom Hinv' Hchain' Hkc Hgc) as Hafter.
    cbv zeta in Hafter.
    destruct (fold_left _ _ (rest, cameFrom)) as [openSet' cameFrom'].
    cbn [fst snd] in Hafter.
    pose proof (potential_pop m from (key (position current)) closedSet Hfresh
                  ltac:(right; apply cells_inGrid, Hgrid)) as Hdown.
    fold closedSet' in Hdown.
    apply (IH (S i) (key (position current)) _ bound openSet' closedSet' cameFrom' Hafter
             all_directions); lia.
Qed.

Lemma findPath_outcome :
  exists path, findPath m from to occupiedPositions = Some path /\ Outcome path.
Proof.
  unfold findPath, searchFuel. fold occupied.
  set (start := {| position := from; g := 0; f := heuristic from to; parent := None |}).
  set (area := (Z.to_nat (width m) * Z.to_nat (height m))%nat).
  rewrite searchLoop_unfold. cbn [JS.sort fold_right JS.insertSorted].
  destruct ((x (position start) =? x to) && (y (position start) =? y to)) eqn:Hgoal.
  { apply at_goal in Hgoal. simpl in Hgoal.
    cbn [reconstructPath]. rewrite lookup_empty. exists [from].
    split; [reflexivity|]. right. rewrite <- Hgoal. repeat split. intros j _. simpl. lia. }
  assert (Hshort : from <> to).
  { intros Heq. assert (position start = to) by exact Heq.
    apply at_goal in H. congruence. }
  cbv zeta. set (closedSet := ({[key (position start)]} ∪ ∅ : gset (Z * Z))).
  assert (Hin : key from ∈ closedSet) by (unfold closedSet; set_solver).
  assert (Hchain : ClosedChain from ∅ closedSet (position start) 0).
  { apply chain_start; [exact Hin | apply lookup_empty]. }
  assert (Hinv : Astar 1 (key (position start)) [] [] closedSet ∅).
  { split.
    - constructor.
    - intros k p Hkp. rewrite lookup_empty in Hkp. discriminate.
    - exact Hin.
    - intros n Hn. inversion Hn.
    - intros c Hc. assert (c = key from) as -> by (unfold closedSet in Hc; set_solver).
      rewrite cell_key. split; [exact from_valid|]. split; [exact Hshort|].
      exists 0%nat. split; [exact Hchain|]. split; [lia|]. split; [intros; lia|].
      intros dir [Hne|Hdir]; [contradiction | inversion Hdir]. }
  pose proof (Astar_visits 1 start 0 [up; down; left; right] [] [] closedSet ∅
                Hinv Hchain ltac:(lia) eq_refl) as Hafter.
  cbv zeta in Hafter.
  destruct (fold_left _ _ ([], ∅)) as [openSet' cameFrom'].
  cbn [fst snd] in Hafter.
  assert (Hpot : (potential m from closedSet <= area)%nat).
  { unfold potential. rewrite decide_True by exact Hin.
    pose proof (unclosed_le m (key (position start)) ∅) as Hle.
    rewrite unclosed_empty, cells_length in Hle. fold closedSet area in Hle. lia. }
  apply (searchLoop_shortest (S area) 1 (key (position start)) _ _ openSet' closedSet cameFrom'
           Hafter all_directions); lia.
Qed.

End Shortest.


(** A 3 by 3 room with a pillar in the middle. *)
Definition pillarRoom : GameMap :=
  {| width := 3; height := 3;
     tiles := [[floor; floor; floor]; [floor; wall; floor]; [floor; door; floor]];
     locationBounds := [] |}.

Definition westDoor : Position := {| x := 0; y := 1 |}.
Definition eastDoor : Position := {| x := 2; y := 1 |}.

Definition southRoute : list Position :=
  [ westDoor; {| x := 0; y := 2 |}; {| x := 1; y := 2 |}; {| x := 2; y := 2 |}; eastDoor ].

Lemma southRoute_walk : Walk pillarRoom [] southRoute.
Proof.
  simpl. unfold Step, adjacent. simpl.
  repeat split; try lia; intros [].
Qed.

Lemma westDoor_inGrid : inGrid pillarRoom westDoor.
Proof. unfold inGrid. simpl. lia. Qed.

Lemma findPath_same_cell m p occupiedPositions :
  findPath m p p occupiedPositions = Some [p].
Proof.
  unfold findPath, searchFuel. rewrite searchLoop_unfold.
  cbn [JS.sort fold_right JS.insertSorted position].
  rewrite !Z.eqb_refl. cbn [andb reconstructPath]. rewrite lookup_empty. reflexivity.
Qed.

(** X10. On any map and with any occupied cells, a path that [findPath]
    returns from a cell of the grid is a walk: it begins at [from], ends at
    [to], and every position after the first is adjacent to the one before
    it, walkable and not occupied. The start itself is never looked at:
    from a position to itself the path is that one position, also when it
    is a wall, is occupied or lies outside the grid. *)
Theorem findPath_returns_walk m from to occupiedPositions :
  findPath m from from occupiedPositions = Some [from]
  /\ (inGrid m from ->
      forall path,
        findPath m from to occupiedPositions = Some path ->
        path <> [] ->
        head path = Some from
        /\ last path = Some to
        /\ Walk m occupiedPositions path).
Proof.
  split; [apply findPath_same_cell|].
  intros Hfrom path Hpath Hne.
  destruct (findPath_outcome m occupiedPositions from to Hfrom) as (path' & Hpath' & Hout).
  rewrite Hpath in Hpath'. injection Hpath' as <-.
  destruct Hout as [[-> _]|(Hhead & Hlast & Hwalk & _)]; [contradiction|].
  repeat split; assumption.
Qed.

Lemma findPath_returns_walk_witness :
  exists path,
    findPath pillarRoom westDoor eastDoor [ {| x := 1; y := 0 |} ] = Some path
    /\ Walk pillarRoom [ {| x := 1; y := 0 |} ] path.
Proof.
  eexists. split; [vm_compute; reflexivity|].
  apply (proj2 (findPath_returns_walk pillarRoom westDoor eastDoor [ {| x := 1; y := 0 |} ]));
    [exact westDoor_inGrid | vm_compute; reflexivity | discriminate].
Defined.

(** X11. [findPath] from a cell of the grid finds a path exactly when
    there is one: it returns a non-empty path if and only if some walk
    over walkable, unoccupied cells leads from [from] to [to]. *)
Theorem findPath_finds_a_path m from to occupiedPositions :
  inGrid m from ->
  Connected m occupiedPositions from to
  <-> exists path, findPath m from to occupiedPositions = Some path /\ path <> [].
Proof.
  intros Hfrom.
  destruct (findPath_outcome m occupiedPositions from to Hfrom) as (path & Hpath & Hout).
  split.
  - intros Hconn. exists path. split; [exact Hpath|].
    destruct Hout as [[_ Hno]|(Hhead & _)]; [|destruct path; [discriminate | discriminate]].
    exfalso. destruct (Connected_Reach _ _ _ _ Hconn) as [j Hj]. exact (Hno j Hj).
  - intros (path' & Hpath' & Hne). rewrite Hpath in Hpath'. injection Hpath' as <-.
    destruct Hout as [[-> _]|(Hhead & Hlast & Hwalk & _)]; [contradiction|].
    destruct path as [|p rest]; [contradiction|]. injection Hhead as ->.
    eapply Reach_Connected.
    apply (Walk_Reach m occupiedPositions from rest 0 from to (reach_start _ _ _) Hwalk Hlast).
Qed.

Lemma findPath_finds_a_path_witness :
  Connected pillarRoom [] westDoor eastDoor.
Proof.
  apply (findPath_finds_a_path pillarRoom westDoor eastDoor []); [exact westDoor_inGrid|].
  eexists. split; [vm_compute; reflexivity | discriminate].
Defined.

(** X12. The path that [findPath] returns from a cell of the grid is a
    shortest one: whenever some walk leads from [from] to [to], the path
    is not empty and has no more positions than that walk. *)
Theorem findPath_shortest m from to occupiedPositions path other :
  inGrid m from ->
  findPath m from to occupiedPositions = Some path ->
  head other = Some from -> last other = Some to ->
  Walk m occupiedPositions other ->
  path <> [] /\ (length path <= length other)%nat.
Proof.
  intros Hfrom Hpath Hhead Hlast Hwalk.
  destruct (findPath_outcome m occupiedPositions from to Hfrom) as (path' & Hpath' & Hout).
  rewrite Hpath in Hpath'. injection Hpath' as <-.
  destruct other as [|p rest]; [discriminate|]. injection Hhead as ->.
  pose proof (Walk_Reach m occupiedPositions from rest 0 from to (reach_start _ _ _)
                Hwalk Hlast) as Hreach.
  destruct Hout as [[_ Hno]|(Hh & _ & _ & Hbest)]; [exfalso; exact (Hno _ Hreach)|].
  split; [destruct path; discriminate|].
  specialize (Hbest _ Hreach). simpl in *. lia.
Qed.

Lemma findPath_shortest_witness :
  exists path,
    findPath pillarRoom westDoor eastDoor [] = Some path
    /\ (length path <= 5)%nat.
Proof.
  eexists. split; [vm_compute; reflexivity|].
  apply (findPath_shortest pillarRoom westDoor eastDoor [] _ southRoute);
    [exact westDoor_inGrid | vm_compute; reflexivity | reflexivity | reflexivity
    | exact southRoute_walk].
Defined.

(** *** Moves *)

(** The border that a direction faces. *)
Definition atBorder (m : GameMap) (p : Position) (dir : Direction) : Prop :=
  match dir with
  | up => y p = 0
  | down => y p = height m - 1
  | left => x p = 0
  | right => x p = width m - 1
  end.

Lemma getNewPosition_border m p dir :
  inGrid m p ->
  inGrid m (getNewPosition m p dir)
  /\ (getNewPosition m p dir = p <-> atBorder m p dir).
Proof.
  intros Hp. split; [apply getNewPosition_inGrid, Hp|].
  unfold atBorder, inGrid in *. destruct p as [a b]. destruct dir; simpl in *.
  all: split; [intros [= H]; lia | intros ->; f_equal; lia].
Qed.

(** X13. [getDirectionTowards] answers [None] exactly for two equal
    positions; on the grid, a move in the direction it gives brings the
    position one step nearer to the target. *)
Theorem getDirectionTowards_approaches m from to :
  (getDirectionTowards from to = None <-> from = to)
  /\ (inGrid m from -> inGrid m to ->
      forall dir, getDirectionTowards from to = Some dir ->
      getDistance (getNewPosition m from dir) to = getDistance from to - 1).
Proof.
  unfold getDirectionTowards, getDistance, inGrid.
  destruct from as [a b], to as [c e]. simpl.
  destruct (Z.gtb_spec (Z.abs (c - a)) (Z.abs (e - b))) as [Hx|Hy].
  - split; [split; [discriminate | intros [= -> ->]; lia]|].
    intros Hf Ht dir [= <-]. destruct (Z.gtb_spec (c - a) 0); simpl; lia.
  - destruct (Z.eqb_spec (e - b) 0) as [Hz|Hnz]; simpl.
    + split; [split; [intros _; f_equal; lia | reflexivity]|]. discriminate.
    + split; [split; [discriminate | intros [= -> ->]; lia]|].
      intros Hf Ht dir [= <-]. destruct (Z.gtb_spec (e - b) 0); simpl; lia.
Qed.

Lemma getDirectionTowards_approaches_witness :
  getDistance (getNewPosition pillarRoom westDoor right) eastDoor
  = getDistance westDoor eastDoor - 1.
Proof.
  apply (proj2 (getDirectionTowards_approaches pillarRoom westDoor eastDoor));
    [exact westDoor_inGrid | unfold inGrid; simpl; lia | reflexivity].
Defined.

Lemma key_occupied (occupiedPositions : list Position) q :
  key q ∈ (list_to_set (map key occupiedPositions) : gset (Z * Z))
  <-> In q occupiedPositions.
Proof.
  rewrite elem_of_list_to_set. split.
  - intros Hin. apply list_elem_of_In, in_map_iff in Hin as (q' & Hkey & Hin).
    apply key_inj in Hkey. subst q'. exact Hin.
  - intros Hin. apply list_elem_of_In, in_map, Hin.
Qed.

(** X14. From a cell of the grid, [getValidMoves] lists exactly the
    directions whose step is one: a direction is listed if and only if the
    cell it leads to is adjacent, walkable and not occupied; and every such
    neighbouring cell is reached by a listed direction. *)
Theorem getValidMoves_are_steps m p occupiedPositions :
  inGrid m p ->
  (forall dir,
     In dir (getValidMoves m p occupiedPositions)
     <-> Step m occupiedPositions p (getNewPosition m p dir))
  /\ (forall q, Step m occupiedPositions p q ->
      exists dir, In dir (getValidMoves m p occupiedPositions)
                  /\ getNewPosition m p dir = q).
Proof.
  intros Hp.
  assert (Hiff : forall dir,
            In dir (getValidMoves m p occupiedPositions)
            <-> Step m occupiedPositions p (getNewPosition m p dir)).
  { intros dir. unfold getValidMoves. rewrite filter_In.
    set (q := getNewPosition m p dir).
    assert (Hdir : In dir [up; down; left; right]) by (destruct dir; simpl; auto).
    assert (Hmoved : negb (x q =? x p) || negb (y q =? y p) = true <-> adjacent p q).
    { pose proof (getNewPosition_adjacent m p dir Hp) as Hor. fold q in Hor.
      destruct Hor as [Heq|Hadj].
      - rewrite Heq, !Z.eqb_refl. unfold adjacent. simpl. split; [discriminate | lia].
      - split; [intros _; exact Hadj | intros _].
        unfold adjacent in Hadj.
        destruct (Z.eqb_spec (x q) (x p)), (Z.eqb_spec (y q) (y p)); simpl; try reflexivity.
        lia. }
    unfold Step. rewrite !andb_true_iff, negb_true_iff, bool_decide_eq_false, Hmoved.
    rewrite key_occupied. tauto. }
  split; [exact Hiff|].
  intros q Hstep. pose proof Hstep as (Hadj & Hwalk & _).
  destruct (adjacent_direction m p q Hp (isWalkable_inGrid _ _ Hwalk) Hadj) as [dir Hdir].
  exists dir. split; [|exact Hdir]. apply Hiff. rewrite Hdir. exact Hstep.
Qed.

Lemma getValidMoves_are_steps_witness :
  In up (getValidMoves pillarRoom westDoor [])
  <-> Step pillarRoom [] westDoor (getNewPosition pillarRoom westDoor up).
Proof.
  apply (proj1 (getValidMoves_are_steps pillarRoom westDoor [] westDoor_inGrid)).
Defined.

(** *** Locations *)

Lemma within_spec bounds p :
  within bounds p = true
  <-> minX bounds <= x p <= maxX bounds /\ minY bounds <= y p <= maxY bounds.
Proof. unfold within. lia. Qed.

Lemma positions_of_bounds bounds p :
  In p (flat_map (fun y => List.map (fun x => {| x := x; y := y |})
                             (seqZ (minX bounds) (maxX bounds - minX bounds + 1)))
          (seqZ (minY bounds) (maxY bounds - minY bounds + 1)))
  <-> minX bounds <= x p <= maxX bounds /\ minY bounds <= y p <= maxY bounds.
Proof.
  destruct p as [a b]. rewrite in_flat_map. simpl. split.
  - intros (b' & Hb' & Hin). apply in_map_iff in Hin as (a' & [= <- <-] & Ha').
    apply list_elem_of_In, elem_of_seqZ in Ha'. apply list_elem_of_In, elem_of_seqZ in Hb'. lia.
  - intros [Ha Hb]. exists b. split; [apply list_elem_of_In, elem_of_seqZ; lia|].
    apply in_map_iff. exists a. split; [reflexivity|].
    apply list_elem_of_In, elem_of_seqZ. lia.
Qed.

(** X15. For a location of the map, [getPositionsInLocation] lists the
    cells of its rectangle, each once: a position is listed exactly when
    it lies within the bounds, both ends included. A name that the map
    does not know gives the empty list. *)
Theorem getPositionsInLocation_rectangle m locationName :
  match JS.mapGet locationName (locationBounds m) with
  | None => getPositionsInLocation m locationName = []
  | Some bounds =>
      (forall p, In p (getPositionsInLocation m locationName)
                 <-> minX bounds <= x p <= maxX bounds /\ minY bounds <= y p <= maxY bounds)
      /\ NoDup (getPositionsInLocation m locationName)
      /\ Z.of_nat (length (getPositionsInLocation m locationName))
         = Z.max 0 (maxX bounds - minX bounds + 1) * Z.max 0 (maxY bounds - minY bounds + 1)
  end.
Proof.
  unfold getPositionsInLocation.
  destruct (JS.mapGet locationName (locationBounds m)) as [bounds|]; [|reflexivity].
  split; [intros p; apply positions_of_bounds|].
  set (xs := seqZ (minX bounds) (maxX bounds - minX bounds + 1)).
  set (ys := seqZ (minY bounds) (maxY bounds - minY bounds + 1)).
  split.
  - assert (Hndx : NoDup xs) by apply NoDup_seqZ.
    assert (Hndy : NoDup ys) by apply NoDup_seqZ.
    induction Hndy as [|b ys' Hb _ IH]; simpl; [constructor|].
    apply NoDup_app. split; [|split; [|exact IH]].
    + clear -Hndx. induction Hndx as [|a xs' Ha _ IH]; simpl; constructor; [|exact IH].
      intros Hin. apply Ha. apply list_elem_of_In, in_map_iff in Hin as (a' & [= ->] & Hin).
      apply list_elem_of_In, Hin.
    + intros p Hp Hp'. apply list_elem_of_In, in_map_iff in Hp as (a & <- & _).
      apply list_elem_of_In, in_flat_map in Hp' as (b' & Hb' & Hin).
      apply in_map_iff in Hin as (a' & [= _ <-] & _).
      apply Hb, list_elem_of_In, Hb'.
  - assert (Hlen : forall l : list Z,
              length (flat_map (fun y => List.map (fun x => {| x := x; y := y |}) xs) l)
              = (length l * length xs)%nat).
    { induction l as [|b l IH]; simpl; [reflexivity|].
      rewrite length_app, length_map, IH. reflexivity. }
    rewrite Hlen. unfold xs, ys. rewrite !length_seqZ. lia.
Qed.

(** A map with two rooms side by side. *)
Definition twoRoomMap : GameMap :=
  {| width := 8; height := 4;
     tiles := replicate 4 (replicate 8 floor);
     locationBounds :=
       [ ("Apartment 4A", {| minX := 0; maxX := 3; minY := 0; maxY := 3 |});
         ("Apartment 4B", {| minX := 4; maxX := 7; minY := 0; maxY := 3 |}) ] |}.

(** X16. The centre of a location whose bounds are not empty lies within
    those bounds, so it is one of the positions of the location, and
    [getLocationFromPosition] maps it to a location of the map whose bounds
    hold it: to the location itself when no location listed before it
    holds the centre. *)
Theorem getLocationCenter_inside m locationName bounds :
  JS.mapGet locationName (locationBounds m) = Some bounds ->
  minX bounds <= maxX bounds -> minY bounds <= maxY bounds ->
  exists center,
    getLocationCenter m locationName = Some (centerAt center)
    /\ within bounds center = true
    /\ In center (getPositionsInLocation m locationName)
    /\ (exists bounds',
          In (getLocationFromPosition m center, bounds') (locationBounds m)
          /\ within bounds' center = true)
    /\ ((forall earlier bounds', 
           In (earlier, bounds') (locationBounds m) -> earlier <> locationName ->
           within bounds' center = false) ->
        getLocationFromPosition m center = locationName).
Proof.
  intros Hget Hx Hy. unfold getLocationCenter, JS.objectGet. rewrite Hget.
  eexists. split; [reflexivity|].
  set (center := {| x := JS.floorDiv (minX bounds + maxX bounds) 2;
                    y := JS.floorDiv (minY bounds + maxY bounds) 2 |}).
  assert (Hin : within bounds center = true).
  { apply within_spec. unfold center, JS.floorDiv. simpl.
    pose proof (Z.div_mod (minX bounds + maxX bounds) 2 ltac:(lia)).
    pose proof (Z.mod_pos_bound (minX bounds + maxX bounds) 2 ltac:(lia)).
    pose proof (Z.div_mod (minY bounds + maxY bounds) 2 ltac:(lia)).
    pose proof (Z.mod_pos_bound (minY bounds + maxY bounds) 2 ltac:(lia)).
    lia. }
  split; [exact Hin|]. split.
  { unfold getPositionsInLocation. rewrite Hget. apply positions_of_bounds.
    apply within_spec, Hin. }
  assert (Hentry : In (locationName, bounds) (locationBounds m)).
  { clear -Hget. induction (locationBounds m) as [|[k v] l IH];
      simpl in *; [discriminate|].
    destruct (String.eqb_spec k locationName) as [->|Hne].
    - injection Hget as ->. left. reflexivity.
    - right. apply IH, Hget. }
  unfold getLocationFromPosition.
  destruct (List.find (fun entry => within entry.2 center) (locationBounds m))
    as [[name' bounds']|] eqn:Hfind.
  - apply find_some in Hfind as [Hfound Hwithin]. simpl in Hwithin.
    split; [exists bounds'; split; assumption|].
    intros Hfirst. destruct (String.eqb_spec name' locationName) as [Heq|Hne]; [exact Heq|].
    rewrite (Hfirst name' bounds' Hfound Hne) in Hwithin. discriminate.
  - exfalso. pose proof (find_none _ _ Hfind _ Hentry) as Hnone. simpl in Hnone. congruence.
Qed.

Lemma getLocationCenter_inside_witness :
  exists center,
    getLocationCenter twoRoomMap "Apartment 4B" = Some (centerAt center)
    /\ getLocationFromPosition twoRoomMap center = "Apartment 4B".
Proof.
  destruct (getLocationCenter_inside twoRoomMap "Apartment 4B"
              {| minX := 4; maxX := 7; minY := 0; maxY := 3 |})
    as (center & Hcenter & _ & _ & _ & Hname); [reflexivity | simpl; lia | simpl; lia|].
  exists center. split; [exact Hcenter|]. apply Hname.
  vm_compute in Hcenter. injection Hcenter as <-.
  intros earlier bounds' [[= <- <-]|[[= <- <-]|[]]] Hne; [reflexivity | contradiction].
Defined.

(** Names that are no location of the map: an unknown name gives [null],
    a name that the bounds object inherits gives the NaN position. *)
Example getLocationCenter_other_names :
  getLocationCenter twoRoomMap "Caltech" = None
  /\ getLocationCenter twoRoomMap "constructor" = Some centerNaN
  /\ getPositionsInLocation twoRoomMap "constructor" = [].
Proof. repeat split; reflexivity. Qed.

End GameMapLaws.

(** ** MemoryStream: the stream and its queries *)

Module MemoryStreamLaws.
Import MemoryStream.

(** *** Sorting with any comparator *)

Section SortAny.
Context {A : Type} (before : A -> A -> bool).

Lemma insertSorted_Permutation (x : A) l : JS.insertSorted before x l ≡ₚ x :: l.
Proof.
  induction l as [|y l IH]; simpl; [reflexivity|].
  destruct (before x y); [reflexivity|].
  rewrite IH. apply Permutation_swap.
Qed.

Lemma sort_Permutation (l : list A) : JS.sort before l ≡ₚ l.
Proof.
  induction l as [|x l IH]; simpl; [reflexivity|].
  rewrite insertSorted_Permutation, IH. reflexivity.
Qed.

Variable R : A -> A -> Prop.
Hypothesis R_trans : forall a b c, R a b -> R b c -> R a c.
Hypothesis before_true : forall a b, before a b = true -> R a b.
Hypothesis before_false : forall a b, before a b = false -> R b a.

Lemma insertSorted_ordered (x : A) l :
  ForallOrdPairs R l -> ForallOrdPairs R (JS.insertSorted before x l).
Proof.
  induction 1 as [|y l Hy Hl IH]; simpl; [repeat constructor|].
  destruct (before x y) eqn:E.
  - constructor; [|constructor; assumption].
    constructor; [apply before_true, E|].
    eapply List.Forall_impl; [|exact Hy]. intros r. apply R_trans, before_true, E.
  - constructor; [|exact IH].
    apply Forall_forall. intros r Hr.
    rewrite insertSorted_Permutation in Hr. apply elem_of_cons in Hr as [->|Hr].
    + apply before_false, E.
    + rewrite List.Forall_forall in Hy. apply Hy, list_elem_of_In, Hr.
Qed.

Lemma sort_ordered (l : list A) : ForallOrdPairs R (JS.sort before l).
Proof.
  induction l as [|x l IH]; simpl; [constructor | apply insertSorted_ordered, IH].
Qed.

End SortAny.

Lemma In_firstn {A} n (l : list A) x : In x (firstn n l) -> In x l.
Proof.
  intros Hin. apply list_elem_of_In, elem_of_take in Hin as (i & Hi & _).
  apply list_elem_of_In, list_elem_of_lookup. eauto.
Qed.

Lemma firstn_ordered {A} (R : A -> A -> Prop) n : forall l,
  ForallOrdPairs R l -> ForallOrdPairs R (firstn n l).
Proof.
  induction n as [|n IH]; intros l Hl.
  - rewrite firstn_O. constructor.
  - destruct Hl as [|a l Ha Hl]; [constructor|]. rewrite firstn_cons.
    constructor; [|apply IH, Hl].
    apply Forall_forall. intros r Hr.
    rewrite List.Forall_forall in Ha. apply Ha.
    apply list_elem_of_In in Hr. eapply In_firstn, Hr.
Qed.

(** *** Recent memories *)

(** X17. [getRecent (count)] returns the last [count] memories, all of
    them when the stream has fewer; but [getRecent (0)] returns the whole
    stream, not an empty list, and a negative count drops that many of the
    oldest memories. *)
Theorem getRecent_takes_the_last stream count :
  let all := memories stream in
  (0 < count ->
   getRecent stream count = skipn (length all - Z.to_nat count) all
   /\ length (getRecent stream count) = Nat.min (Z.to_nat count) (length all))
  /\ (count = 0 -> getRecent stream count = all)
  /\ (count < 0 -> getRecent stream count = skipn (Z.to_nat (- count)) all).
Proof.
  intros all. unfold getRecent, JS.sliceFrom. fold all. split; [|split].
  - intros Hpos. destruct (Z.ltb_spec (- count) 0) as [_|Hge]; [|lia].
    replace (Z.to_nat (Z.max (Z.of_nat (length all) + - count) 0))
      with (length all - Z.to_nat count)%nat by lia.
    split; [reflexivity|]. rewrite length_skipn. lia.
  - intros ->. reflexivity.
  - intros Hneg. destruct (Z.ltb_spec (- count) 0) as [Hlt|_]; [lia | reflexivity].
Qed.

Definition partyNews : Memory :=
  createMemory 1700000000000 "mem-1" "Penny told me about the party" observation None.

Definition walkNews : Memory :=
  createMemory 1700000000100 "mem-2" "I walked to the comic store" observation None.

Definition twoMemories : MemoryStream := add (add (newMemoryStream []) walkNews) partyNews.

Lemma getRecent_takes_the_last_witness :
  getRecent twoMemories 1 = skipn (2 - Z.to_nat 1) [walkNews; partyNews].
Proof. apply (proj1 (getRecent_takes_the_last twoMemories 1)). lia. Defined.

(** *** Gossip *)

Lemma shareable_spec target m :
  shareable target m = true ->
  (5 <= importance m)%Q
  /\ (forall targets, diffusedTo m = Some targets -> ~ In target targets)
  /\ (JS.includesAny (JS.toLowerCase (content m)) socialKeywords = true
      \/ (7 <= importance m)%Q).
Proof.
  unfold shareable. destruct (Qle_bool 5 (importance m)) eqn:E5; simpl; [|discriminate].
  apply Qle_bool_iff in E5.
  destruct (match diffusedTo m with
            | Some targets => existsb (String.eqb target) targets
            | None => false
            end) eqn:Ed; [discriminate|].
  intros Hsocial. split; [exact E5|]. split.
  - intros targets Heq Hin. rewrite Heq in Ed.
    assert (existsb (String.eqb target) targets = true); [|congruence].
    apply existsb_exists. exists target. split; [exact Hin | apply String.eqb_refl].
  - apply orb_true_iff in Hsocial as [Hs|H7]; [left; exact Hs | right].
    apply Qle_bool_iff, H7.
Qed.

Lemma findShareable_members stream target topK m :
  In m (findShareable stream target topK) ->
  In m (memories stream) /\ shareable target m = true.
Proof.
  unfold findShareable, JS.slice0. intros Hin. apply In_firstn in Hin.
  apply list_elem_of_In in Hin. rewrite sort_Permutation in Hin.
  apply list_elem_of_In, filter_In in Hin. exact Hin.
Qed.

(** X18. [findShareable] offers only memories of the stream of
    importance 5 or more that have not been diffused to the target yet and
    that have social content or importance 7 or more; it lists them by
    descending importance and, for a [topK] that is not negative, at most
    [topK] of them. *)
Theorem findShareable_offers stream target topK :
  let offered := findShareable stream target topK in
  Forall (fun m =>
            In m (memories stream)
            /\ (5 <= importance m)%Q
            /\ (forall targets, diffusedTo m = Some targets -> ~ In target targets)
            /\ (JS.includesAny (JS.toLowerCase (content m)) socialKeywords = true
                \/ (7 <= importance m)%Q)) offered
  /\ ForallOrdPairs (fun a b => (importance b <= importance a)%Q) offered
  /\ (0 <= topK -> (length offered <= Z.to_nat topK)%nat).
Proof.
  intros offered. split; [|split].
  - apply Forall_forall. intros m Hm. apply list_elem_of_In in Hm.
    destruct (findShareable_members _ _ _ _ Hm) as [Hin Hok].
    split; [exact Hin | apply shareable_spec, Hok].
  - unfold offered, findShareable, JS.slice0. apply firstn_ordered.
    apply sort_ordered.
    + intros a b c Hab Hbc. eapply Qle_trans; eassumption.
    + intros a b Hle. apply Qle_bool_iff in Hle. lra.
    + intros a b Hgt. destruct (Qlt_le_dec 0 (importance b - importance a)) as [Hlt|Hle];
        [lra|]. apply Qle_bool_iff in Hle. congruence.
  - intros Hk. unfold offered, findShareable, JS.slice0.
    destruct (Z.ltb_spec topK 0); [lia|]. rewrite length_firstn. lia.
Qed.

Lemma findShareable_offers_witness :
  (length (findShareable twoMemories "leonard" 1) <= Z.to_nat 1)%nat.
Proof. apply (proj2 (proj2 (findShareable_offers twoMemories "leonard" 1))). lia. Defined.

(** X19. Recording the diffusion of a memory of the stream to a
    character appends one event that names the memory, the source and the
    target to the diffusion log and marks the memory; [findShareable] then
    never offers that memory to that character again. The other memories
    and the accumulator stay as they were. *)
Theorem recordDiffusion_then_findShareable now newId stream slot source target context
    original topK :
  memories stream !! slot = Some original ->
  exists event after,
    recordDiffusion now newId stream slot source target context = Some (event, after)
    /\ getDiffusionLog after = getDiffusionLog stream ++ [event]
    /\ eventOriginalMemoryId event = id original
    /\ originalContent event = content original
    /\ eventSourceCharacterId event = source
    /\ targetCharacterId event = target
    /\ memories after !! slot = Some (markDiffused target original)
    /\ (forall other, other <> slot -> memories after !! other = memories stream !! other)
    /\ importanceAccumulator after = importanceAccumulator stream
    /\ ~ In (markDiffused target original) (findShareable after target topK).
Proof.
  intros Hslot. unfold recordDiffusion. rewrite Hslot.
  eexists. eexists. split; [reflexivity|]. cbn [getDiffusionLog diffusionLog memories
    importanceAccumulator eventOriginalMemoryId originalContent eventSourceCharacterId
    targetCharacterId].
  repeat (split; [reflexivity|]).
  split; [rewrite list_lookup_alter, Hslot; destruct (decide (slot = slot));
          [reflexivity | contradiction]|].
  split; [intros other Hne; apply list_lookup_alter_ne; congruence|].
  split; [reflexivity|].
  intros Hin. apply findShareable_members in Hin as [_ Hok].
  destruct (shareable_spec _ _ Hok) as (_ & Hfresh & _).
  apply (Hfresh _ eq_refl). apply in_or_app. right. left. reflexivity.
Qed.

Lemma recordDiffusion_then_findShareable_witness :
  exists event after,
    recordDiffusion 1700000000500 "diff-1" (add (newMemoryStream []) partyNews) 0
      "sheldon" "leonard" "conversation" = Some (event, after)
    /\ findShareable (add (newMemoryStream []) partyNews) "leonard" 3 = [partyNews]
    /\ findShareable after "leonard" 3 = [].
Proof.
  destruct (recordDiffusion_then_findShareable 1700000000500 "diff-1"
              (add (newMemoryStream []) partyNews) 0 "sheldon" "leonard" "conversation"
              partyNews 3 eq_refl) as (event & after & Hrec & _).
  exists event, after. split; [exact Hrec|].
  vm_compute in Hrec. injection Hrec as <- <-. split; vm_compute; reflexivity.
Defined.

(** *** What a stream knows *)

Lemma prefix_stringPrefix n : forall s, String.prefix (JS.stringPrefix s n) s = true.
Proof.
  unfold JS.stringPrefix.
  induction n as [|n IH]; intros [|c s]; simpl; try reflexivity.
  rewrite IH. destruct (ascii_dec c c); [reflexivity | contradiction].
Qed.

Lemma includes_stringPrefix s n : JS.includes s (JS.stringPrefix s n) = true.
Proof.
  pose proof (prefix_stringPrefix n s) as Hprefix.
  destruct s; cbn [JS.includes]; rewrite Hprefix; reflexivity.
Qed.

(** X20. A stream knows the content of every memory it holds; an empty
    stream knows nothing; and a stream that holds a memory knows the empty
    information. *)
Theorem knowsInformation_own_memories stream m :
  (In m (memories stream) -> knowsInformation stream (content m) = true)
  /\ (forall information, knowsInformation (newMemoryStream []) information = false)
  /\ (memories stream <> [] -> knowsInformation stream "" = true).
Proof.
  split; [|split].
  - intros Hin. unfold knowsInformation. apply existsb_exists. exists m.
    split; [exact Hin|]. rewrite includes_stringPrefix. apply orb_true_r.
  - reflexivity.
  - intros Hne. unfold knowsInformation. destruct (memories stream) as [|first rest];
      [contradiction|].
    cbn [existsb]. apply orb_true_iff. left. apply orb_true_iff. right.
    destruct (JS.toLowerCase (content first)); reflexivity.
Qed.

Lemma knowsInformation_own_memories_witness :
  knowsInformation twoMemories (content walkNews) = true.
Proof.
  apply (proj1 (knowsInformation_own_memories twoMemories walkNews)).
  left. reflexivity.
Defined.

(** *** Retrieval leaves the stream in place *)

(** [after] is [before] with another time of last access. *)
Definition accessedLater (before after : Memory) : Prop :=
  after = touch (lastAccessedAt after) before.

Lemma accessedLater_refl m : accessedLater m m.
Proof. destruct m; reflexivity. Qed.

Lemma accessedLater_touch t m : accessedLater m (touch t m).
Proof. reflexivity. Qed.

Lemma accessedLater_trans a b t : accessedLater a b -> accessedLater a (touch t b).
Proof. intros ->. reflexivity. Qed.

Lemma touched_slots (original : list Memory) results : forall current,
  Forall2 accessedLater original current ->
  Forall (fun '(i, touched) =>
            exists m t, original !! i = Some m /\ touched = touch t m) results ->
  Forall2 accessedLater original
    (fold_left (fun ms '(i, touched) => <[i := touched]> ms) results current).
Proof.
  induction results as [|[i touched] results IH]; intros current Hcur Hres; simpl;
    [exact Hcur|].
  apply Forall_cons in Hres as [Hhead Hrest]. destruct Hhead as (m & t & Hm & ->).
  apply IH; [|exact Hrest].
  apply Forall2_same_length_lookup. split.
  - rewrite length_insert. eapply Forall2_length, Hcur.
  - intros j a b Ha Hb. destruct (decide (j = i)) as [->|Hne].
    + rewrite Hm in Ha. injection Ha as <-.
      rewrite list_lookup_insert_eq in Hb
        by (rewrite <- (Forall2_length _ _ _ Hcur); eapply lookup_lt_Some, Hm).
      injection Hb as <-. reflexivity.
    + rewrite list_lookup_insert_ne in Hb by congruence.
      eapply Forall2_lookup_lr; eassumption.
Qed.

Lemma imap_lookup_slots (l : list Memory) (score : nat -> float) :
  Forall (fun item => l !! slot item = Some (memory item))
    (imap (fun i m => {| memory := m; score := score i; slot := i |}) l).
Proof.
  apply Forall_forall. intros item Hitem.
  apply list_elem_of_lookup in Hitem as [i Hi].
  rewrite list_lookup_imap in Hi.
  destruct (l !! i) as [m|] eqn:Hm; [|discriminate]. injection Hi as <-. exact Hm.
Qed.

(** X21. [retrieve] leaves the stream in place: it holds the same
    memories in the same order, each unchanged but for its time of last
    access, with the same accumulator and diffusion log. The memories
    returned are memories of the stream with a new time of last access, at
    most [topK] of them: as many as the stream has when [topK] is more. *)
Theorem retrieve_keeps_the_stream Math_pow Math_sqrt clock stream query hours weights topK :
  let '(results, after) :=
    retrieve Math_pow Math_sqrt clock stream query hours weights topK in
  Forall2 accessedLater (memories stream) (memories after)
  /\ importanceAccumulator after = importanceAccumulator stream
  /\ diffusionLog after = diffusionLog stream
  /\ Forall (fun r => exists m t, In m (memories stream) /\ r = touch t m) results
  /\ (0 <= topK -> length results = Nat.min (Z.to_nat topK) (length (memories stream))).
Proof.
  unfold retrieve. destruct (memories stream) as [|first rest] eqn:Hmem.
  { rewrite Hmem. repeat split; try constructor. intros _. simpl. lia. }
  rewrite <- Hmem. cbv zeta.
  match goal with
  | |- context [JS.slice0 (JS.sort ?b (imap ?mk (memories stream))) topK] =>
      set (before := b); set (indexed := imap mk (memories stream))
  end.
  set (chosen := JS.slice0 (JS.sort before indexed) topK).
  assert (Hslots : Forall (fun item => memories stream !! slot item = Some (memory item))
                     chosen).
  { apply Forall_forall. intros item Hitem.
    assert (Hin : item ∈ indexed).
    { unfold chosen, JS.slice0 in Hitem. apply list_elem_of_In, In_firstn in Hitem.
      apply list_elem_of_In in Hitem. rewrite sort_Permutation in Hitem. exact Hitem. }
    assert (Hall : Forall (fun item => memories stream !! slot item = Some (memory item))
                     indexed) by (unfold indexed; apply imap_lookup_slots).
    rewrite Forall_forall in Hall. apply Hall, Hin. }
  assert (Hresults : Forall (fun '(i, touched) =>
                       exists m t, memories stream !! i = Some m /\ touched = touch t m)
                     (imap (fun k item => (slot item, touch (clock k) (memory item))) chosen)).
  { apply Forall_forall. intros [i touched] Hin.
    apply list_elem_of_lookup in Hin as [k Hk]. rewrite list_lookup_imap in Hk.
    destruct (chosen !! k) as [item|] eqn:Hitem; [|discriminate]. injection Hk as <- <-.
    rewrite Forall_forall in Hslots.
    exists (memory item), (clock k). split; [|reflexivity].
    apply Hslots, list_elem_of_lookup. eauto. }
  split; [|split; [reflexivity | split; [reflexivity | split]]].
  - cbn [memories]. apply touched_slots; [|exact Hresults].
    apply Forall2_same_length_lookup. split; [reflexivity|].
    intros j a b Ha Hb. rewrite Ha in Hb. injection Hb as <-. apply accessedLater_refl.
  - apply Forall_forall. intros r Hr. apply list_elem_of_fmap in Hr as ([i touched] & -> & Hin).
    rewrite Forall_forall in Hresults. destruct (Hresults _ Hin) as (m & t & Hm & ->).
    exists m, t. split; [|reflexivity].
    apply list_elem_of_In, list_elem_of_lookup. eauto.
  - intros Hk. rewrite length_map, length_imap. unfold chosen, JS.slice0.
    destruct (Z.ltb_spec topK 0); [lia|].
    rewrite length_firstn.
    assert (Hlen : length (JS.sort before indexed) = length (memories stream)).
    { rewrite sort_Permutation. unfold indexed. apply length_imap. }
    rewrite Hlen. reflexivity.
Qed.

Lemma retrieve_keeps_the_stream_witness :
  length (fst (retrieve MemoryStreamSpec.samplePow MemoryStreamSpec.sampleSqrt
                 (fun _ => 1700000000900) twoMemories "party" 24%float
                 {| Weights.recency := 1%float; Weights.importance := 1%float;
                    Weights.relevance := 1%float |} 1))
  = Nat.min (Z.to_nat 1) (length (memories twoMemories)).
Proof.
  pose proof (retrieve_keeps_the_stream MemoryStreamSpec.samplePow MemoryStreamSpec.sampleSqrt
                (fun _ => 1700000000900) twoMemories "party" 24%float
                {| Weights.recency := 1%float; Weights.importance := 1%float;
                   Weights.relevance := 1%float |} 1)
    as H.
  destruct (retrieve _ _ _ twoMemories "party" 24%float _ 1) as [results after].
  destruct H as (_ & _ & _ & _ & Hlen). apply Hlen. lia.
Defined.

End MemoryStreamLaws.

(** ** ConversationManager: the life of a conversation *)

Module ConversationLaws.
Import ConversationManager.

Lemma mapGet_mapSet {V} key (value : V) m :
  JS.mapGet key (JS.mapSet key value m) = Some value.
Proof.
  induction m as [|[k v] m IH]; simpl; [rewrite String.eqb_refl; reflexivity|].
  destruct (String.eqb_spec k key) as [->|Hne]; simpl.
  - rewrite String.eqb_refl. reflexivity.
  - destruct (String.eqb_spec k key); [contradiction | exact IH].
Qed.

(** The messages posted one after the other: the clock reading, the
    speaker and the text of each. *)
Definition postAll (cm : ConversationManager) (conversationId : string)
    (posts : list (Z * string * string)) : ConversationManager :=
  fold_left (fun cm '(now, speakerId, text) =>
               (addMessage now cm conversationId speakerId text).1.2) posts cm.

Definition posted (post : Z * string * string) : ConversationMessage :=
  let '(now, speakerId, text) := post in
  {| speakerId := speakerId; content := text; timestamp := now |}.

(** The conversation [c] with more messages and, maybe, an end time. *)
Definition later (c : Conversation) (more : list ConversationMessage) (ended : option Z)
    : Conversation :=
  {| id := id c;
     participants := participants c;
     messages := messages c ++ more;
     startTime := startTime c;
     endTime := ended;
     location := location c |}.

(** One conversation object is registered under [conversationId] and is
    the active one. *)
Definition Holds (cm : ConversationManager) (conversationId : string) (c : Conversation)
    : Prop :=
  exists address,
    JS.mapGet conversationId (conversations cm) = Some address
    /\ activeConversation cm = Some address
    /\ objects cm !! address = Some c.

Lemma Holds_get cm conversationId c :
  Holds cm conversationId c -> get cm conversationId = Some c /\ getActive cm = Some c.
Proof.
  intros (address & Hget & Hactive & Hobj). unfold get, getActive.
  rewrite Hget, Hactive. split; exact Hobj.
Qed.

Lemma postAll_Holds posts : forall cm conversationId c,
  Holds cm conversationId c ->
  Holds (postAll cm conversationId posts) conversationId
    (later c (map posted posts) (endTime c)).
Proof.
  induction posts as [|[[now speakerId] text] posts IH]; intros cm conversationId c Hc.
  - simpl. unfold later. rewrite app_nil_r. destruct c; exact Hc.
  - destruct Hc as (address & Hget & Hactive & Hobj).
    cbn [postAll fold_left]. unfold addMessage at 2. rewrite Hget. cbn [fst snd].
    fold (postAll {| objects := alter (pushMessage
                       {| speakerId := speakerId; content := text; timestamp := now |})
                       address (objects cm);
                     conversations := conversations cm;
                     activeConversation := activeConversation cm |} conversationId posts).
    match goal with |- Holds (postAll ?cm1 _ _) _ _ => specialize (IH cm1 conversationId
      (pushMessage {| speakerId := speakerId; content := text; timestamp := now |} c)) end.
    cbn [map]. replace (later c (posted (now, speakerId, text) :: map posted posts) (endTime c))
      with (later (pushMessage {| speakerId := speakerId; content := text; timestamp := now |} c)
              (map posted posts)
              (endTime (pushMessage {| speakerId := speakerId; content := text;
                                       timestamp := now |} c))).
    + apply IH. exists address. cbn [conversations activeConversation objects].
      split; [exact Hget|]. split; [exact Hactive|].
      rewrite list_lookup_alter, Hobj. destruct (decide (address = address));
        [reflexivity | contradiction].
    + unfold later, pushMessage. simpl. rewrite <- app_assoc. reflexivity.
Qed.

(** X22. The life of a conversation. [start] registers the new
    conversation under its id and makes it the active one; the messages
    posted to it afterwards are appended in order, and the registry and
    the active conversation show them, being the same object; once ten
    messages are posted [shouldEnd] says so; [end] stamps the end time,
    publishes the participants and the number of messages, and leaves no
    conversation active. *)
Theorem conversation_lifecycle now cm participantIds place posts endedAt :
  let '(conversation, cm1, started) := start now cm participantIds place in
  let talked := postAll cm1 (id conversation) posts in
  let '(closed, ended) := end_ endedAt talked (id conversation) in
  started = [ConversationStarted (id conversation) participantIds place]
  /\ get cm1 (id conversation) = Some conversation
  /\ getActive cm1 = Some conversation
  /\ get talked (id conversation) = Some (later conversation (map posted posts) None)
  /\ getActive talked = Some (later conversation (map posted posts) None)
  /\ ((10 <= length posts)%nat -> shouldEnd talked (id conversation) = true)
  /\ ended = [ConversationEnded (id conversation) participantIds (length posts)]
  /\ get closed (id conversation)
     = Some (later conversation (map posted posts) (Some endedAt))
  /\ getActive closed = None.
Proof.
  unfold start. cbv zeta.
  set (conversation := {| id := "conv-" +:+ JS.numberToString now;
                          participants := participantIds; messages := [];
                          startTime := now; endTime := None; location := place |}).
  set (cm1 := {| objects := objects cm ++ [conversation];
                 conversations := JS.mapSet (id conversation) (length (objects cm))
                                    (conversations cm);
                 activeConversation := Some (length (objects cm)) |}).
  assert (H1 : Holds cm1 (id conversation) conversation).
  { exists (length (objects cm)). unfold cm1. cbn [conversations activeConversation objects].
    split; [apply mapGet_mapSet|]. split; [reflexivity|].
    rewrite lookup_app_r by lia. rewrite Nat.sub_diag. reflexivity. }
  pose proof (postAll_Holds posts _ _ _ H1) as H2.
  change (endTime conversation) with (@None Z) in H2.
  set (talked := postAll cm1 (id conversation) posts) in *.
  destruct (Holds_get _ _ _ H1) as [Hget1 Hactive1].
  destruct (Holds_get _ _ _ H2) as [Hget2 Hactive2].
  destruct H2 as (address & Hreg & Hact & Hobj).
  unfold end_. rewrite Hreg, Hobj.
  split; [reflexivity|]. split; [exact Hget1|]. split; [exact Hactive1|].
  split; [exact Hget2|]. split; [exact Hactive2|].
  split.
  { intros Hten. unfold shouldEnd. rewrite Hget2. cbn [messages later].
    rewrite app_nil_l, length_map.
    destruct (Nat.leb_spec 10 (length posts)); [reflexivity | lia]. }
  split; [cbn [participants messages later]; rewrite app_nil_l, length_map; reflexivity|].
  unfold get, getActive. cbn [conversations activeConversation objects].
  rewrite Hreg, Hact, Hobj. cbn [id later]. rewrite String.eqb_refl.
  split; [|reflexivity].
  rewrite list_lookup_alter, Hobj. destruct (decide (address = address));
    [reflexivity | contradiction].
Qed.

(** *** Who talks to whom *)

Definition together (characterId1 characterId2 : string) (c : Conversation) : bool :=
  includesId (participants c) characterId1 && includesId (participants c) characterId2.

(** X23. [areInConversation] does not depend on the order of the two
    characters. It holds exactly when [getConversationBetween] finds a
    conversation; the one found is registered, has no end time and has
    both characters among its participants. *)
Theorem areInConversation_symmetric cm characterId1 characterId2 :
  areInConversation cm characterId1 characterId2
  = areInConversation cm characterId2 characterId1
  /\ match getConversationBetween cm characterId1 characterId2 with
     | Some c =>
         areInConversation cm characterId1 characterId2 = true
         /\ In c (getAll cm)
         /\ notEnded c = true
         /\ In characterId1 (participants c)
         /\ In characterId2 (participants c)
     | None => areInConversation cm characterId1 characterId2 = false
     end.
Proof.
  unfold areInConversation, getConversationBetween. split.
  - induction (getActiveConversations cm) as [|c l IH]; simpl; [reflexivity|].
    rewrite IH, (andb_comm (includesId (participants c) characterId1)). reflexivity.
  - assert (Hin : forall ids i, includesId ids i = true -> In i ids).
    { intros ids i H. apply existsb_exists in H as (j & Hj & Heq).
      apply String.eqb_eq in Heq. subst j. exact Hj. }
    destruct (List.find _ (getActiveConversations cm)) as [c|] eqn:Hfind.
    + apply find_some in Hfind as [Hc Hboth].
      split; [apply existsb_exists; exists c; split; assumption|].
      unfold getActiveConversations in Hc. apply filter_In in Hc as [Hall Hopen].
      apply andb_prop in Hboth as [H1 H2]. auto.
    + apply not_true_is_false. intros Hex. apply existsb_exists in Hex as (c & Hc & Hboth).
      rewrite (find_none _ _ Hfind c Hc) in Hboth. discriminate.
Qed.

(** *** The snapshot of the conversations *)

Lemma registry_of_snapshot data : forall offset registry,
  NoDup (map fst registry ++ map id data) ->
  fold_left (fun m '(address, conv) => JS.mapSet (id conv) address m)
    (imap (fun address conv => (offset + address, conv)%nat) data) registry
  = registry ++ imap (fun address conv => (id conv, offset + address)%nat) data.
Proof.
  induction data as [|c data IH]; intros offset registry Hnd; simpl;
    [rewrite app_nil_r; reflexivity|].
  rewrite WorldSpec.mapSet_fresh.
  - rewrite (imap_ext _ (fun address conv => (S offset + address, conv)%nat) data)
      by (intros; simpl; f_equal; lia).
    rewrite IH.
    + rewrite <- app_assoc. simpl. rewrite Nat.add_0_r. do 2 f_equal.
      apply imap_ext. intros. simpl. f_equal. lia.
    + rewrite map_app. simpl. rewrite <- app_assoc. exact Hnd.
  - apply NoDup_app in Hnd as (_ & Hfresh & _). intros Hin.
    apply (Hfresh _ Hin). simpl. left.
Qed.

Lemma omap_lookup_all (data : list Conversation) : forall prefix,
  omap (fun address => (prefix ++ data) !! address)
    (map snd (imap (fun address conv => (id conv, length prefix + address)%nat) data))
  = data.
Proof.
  induction data as [|c data IH]; intros prefix; simpl; [reflexivity|].
  rewrite Nat.add_0_r, lookup_app_r, Nat.sub_diag by lia. simpl. f_equal.
  rewrite (imap_ext _ (fun address conv => (id conv, length (prefix ++ [c]) + address)%nat))
    by (intros; rewrite length_app; simpl; f_equal; lia).
  specialize (IH (prefix ++ [c])). rewrite <- app_assoc in IH. exact IH.
Qed.

Lemma active_of_snapshot data :
  let active :=
    fold_left (fun active '(address, conv) =>
                 if notEnded conv then Some address else active)
      (imap (fun address conv => (address, conv)) data) None in
  active ≫= (fun address => data !! address) = last (List.filter notEnded data)
  /\ forall address, active = Some address -> (address < length data)%nat.
Proof.
  induction data as [|c data IH] using rev_ind; [split; [reflexivity | discriminate]|].
  cbv zeta in *. rewrite imap_app, fold_left_app. cbn [imap fold_left].
  rewrite Nat.add_0_r, List.filter_app. cbn [List.filter].
  destruct IH as [IH Hbound]. destruct (notEnded c).
  - split.
    + cbn [mbind option_bind]. rewrite lookup_app_r, Nat.sub_diag by lia.
      rewrite last_snoc. reflexivity.
    + intros address [= <-]. rewrite length_app. simpl. lia.
  - rewrite app_nil_r, <- IH. split.
    + destruct (fold_left _ _ None) as [address|]; [|reflexivity].
      cbn [mbind option_bind]. apply lookup_app_l, Hbound. reflexivity.
    + intros address Haddr. specialize (Hbound address Haddr). rewrite length_app. lia.
Qed.

(** X24. Conversations round-trip through their snapshot: when the ids
    of the saved conversations are distinct, [deserialize] followed by
    [serialize] gives back the saved list, every saved conversation is
    found under its id, and the active conversation is the last saved one
    that has no end time. *)
Theorem deserialize_then_serialize data :
  NoDup (map id data) ->
  serialize (deserialize data) = data
  /\ getActive (deserialize data) = last (List.filter notEnded data)
  /\ (forall c, In c data -> get (deserialize data) (id c) = Some c).
Proof.
  intros Hnd.
  assert (Hreg : conversations (deserialize data)
                 = imap (fun address conv => (id conv, address)) data).
  { unfold deserialize. cbn [conversations].
    pose proof (registry_of_snapshot data 0 [] Hnd) as H. simpl in H. exact H. }
  split; [|split].
  - unfold serialize, getAll, JS.mapValues. rewrite Hreg.
    exact (omap_lookup_all data []).
  - unfold getActive, deserialize. cbn [activeConversation objects].
    pose proof (proj1 (active_of_snapshot data)) as H. cbv zeta in H.
    destruct (fold_left _ _ None); exact H.
  - intros c Hc. unfold get. rewrite Hreg. unfold deserialize. cbn [objects].
    apply list_elem_of_In, list_elem_of_lookup in Hc as [i Hi].
    assert (Hget : JS.mapGet (id c) (imap (fun address conv => (id conv, address)) data)
                   = Some i); [|rewrite Hget; exact Hi].
    clear Hreg. revert i Hi.
    assert (Hgen : forall offset i, data !! i = Some c ->
              JS.mapGet (id c) (imap (fun address conv => (id conv, offset + address)%nat) data)
              = Some (offset + i)%nat); [|intros i Hi; exact (Hgen 0%nat i Hi)].
    induction data as [|d data IH]; intros offset i Hi; [discriminate|].
    apply NoDup_cons in Hnd as [Hfresh Hnd]. destruct i as [|i]; simpl in *.
    + injection Hi as ->. rewrite String.eqb_refl. reflexivity.
    + destruct (String.eqb_spec (id d) (id c)) as [Heq|Hne].
      * exfalso. apply Hfresh. rewrite Heq.
        apply list_elem_of_In, in_map, list_elem_of_In, list_elem_of_lookup. eauto.
      * rewrite (imap_ext _ (fun address conv => (id conv, S offset + address)%nat))
          by (intros; simpl; f_equal; lia).
        rewrite (IH Hnd (S offset) i Hi). f_equal. lia.
Qed.

Definition lunchTalk : Conversation :=
  {| id := "conv-1"; participants := ["sheldon"; "leonard"]; messages := [];
     startTime := 1; endTime := Some 5; location := {| Types.x := 4; Types.y := 7 |} |}.

Definition hallwayTalk : Conversation :=
  {| id := "conv-6"; participants := ["penny"; "leonard"]; messages := [];
     startTime := 6; endTime := None; location := {| Types.x := 6; Types.y := 7 |} |}.

Lemma deserialize_then_serialize_witness :
  serialize (deserialize [lunchTalk; hallwayTalk]) = [lunchTalk; hallwayTalk]
  /\ getActive (deserialize [lunchTalk; hallwayTalk]) = Some hallwayTalk.
Proof.
  destruct (deserialize_then_serialize [lunchTalk; hallwayTalk]) as (Hser & Hact & _).
  - repeat constructor; simpl; set_solver.
  - split; [exact Hser | exact Hact].
Defined.

End ConversationLaws.

(** ** Characters and their registry *)

Module CharacterLaws.

Lemma mapGet_mapSet_eq {V} key (value : V) m :
  JS.mapGet key (JS.mapSet key value m) = Some value.
Proof.
  induction m as [|[k v] m IH]; simpl; [rewrite String.eqb_refl; reflexivity|].
  destruct (String.eqb_spec k key) as [->|Hne]; simpl.
  - rewrite String.eqb_refl. reflexivity.
  - destruct (String.eqb_spec k key); [contradiction | exact IH].
Qed.

Lemma mapGet_mapSet_ne {V} key other (value : V) m :
  other <> key -> JS.mapGet other (JS.mapSet key value m) = JS.mapGet other m.
Proof.
  intros Hne. induction m as [|[k v] m IH]; simpl.
  - destruct (String.eqb_spec key other); [congruence | reflexivity].
  - destruct (String.eqb_spec k key) as [->|Hk]; simpl.
    + destruct (String.eqb_spec key other); [congruence | reflexivity].
    + destruct (String.eqb_spec k other); [reflexivity | exact IH].
Qed.



Definition stranger : Character.Character :=
  Character.newCharacter
    {| Character.id := "penny"; Character.name := "Penny"; Character.age := 22;
       Character.position := {| Types.x := 6; Types.y := 7 |};
       Character.color := "#EC4899";
       Character.sprite := {| Character.idle := fun _ => []; Character.walk := fun _ => [] |};
       Character.direction := Types.down; Character.isMoving := false;
       Character.personality := "Outgoing"; Character.occupation := "Waitress";
       Character.lifestyle := "Sleeps late";
       Character.memoryStream := []; Character.currentPlan := None;
       Character.currentAction := "Starting the day";
       Character.currentActionEmoji := "-";
       Character.relationships := []; Character.lastReflectionTime := 0;
       Character.importanceAccumulator := 0%Q; Character.pendingCommands := [] |}.


(** X26. What a character's snapshot keeps and what it drops.
    [deserialize] after [serialize] gives a character with the same
    memories, the same daily plan and the same data, whose snapshot is the
    same again; but its importance accumulator starts from 0 and its
    diffusion log is empty, so that no reflection is due however much
    importance the character had gathered. *)
Theorem snapshot_restarts_the_accumulator c :
  let restored := Character.deserialize (Character.serialize c) in
  MemoryStream.getAll (Character.stream restored) = MemoryStream.getAll (Character.stream c)
  /\ Planner.getDailyPlan (Character.planner restored)
     = Planner.getDailyPlan (Character.planner c)
  /\ Character.serialize restored = Character.serialize c
  /\ Character.shouldReflect restored = false
  /\ MemoryStream.getImportanceAccumulator (Character.stream restored) = 0%Q
  /\ MemoryStream.getDiffusionLog (Character.stream restored) = [].
Proof.
  intros restored. unfold restored.
  split; [reflexivity|]. split.
  - unfold Character.deserialize, Character.newCharacter, Character.serialize.
    cbn [Character.planner Character.currentPlan Character.withPlan].
    destruct (Planner.getDailyPlan (Character.planner c)); reflexivity.
  - split; [apply WorldSpec.serialize_deserialize|]. repeat split.
Qed.

(** *** Moving *)

(** X27. [move] steps like [getNewPosition] on a map of the grid's size:
    the character ends on the cell that [getNewPosition] gives and faces
    the direction of the move in every case; the result is [true], with
    one moved event from the old to the new position, exactly when the
    position changed. From a cell of the grid the character stays on the
    grid, and the result is [false] exactly at the border that the
    direction faces. *)
Theorem move_steps_like_the_map c dir gridWidth gridHeight tiles bounds :
  let m := {| GameMap.width := gridWidth; GameMap.height := gridHeight;
              GameMap.tiles := tiles; GameMap.locationBounds := bounds |} in
  let old := Character.position (Character.data c) in
  let target := GameMap.getNewPosition m old dir in
  let '(moved, after, events) := Character.move c dir gridWidth gridHeight in
  Character.position (Character.data after) = target
  /\ Character.direction (Character.data after) = dir
  /\ (moved = true <-> target <> old)
  /\ events = (if moved
               then [Character.CharacterMoved (Character.id (Character.data c)) old target]
               else [])
  /\ Character.stream after = Character.stream c
  /\ Character.planner after = Character.planner c
  /\ (GameMapSpec.inGrid m old ->
      GameMapSpec.inGrid m target
      /\ (moved = false <-> GameMapLaws.atBorder m old dir)).
Proof.
  intros m old target. unfold Character.move. fold old.
  assert (Htarget : target
                    = match dir with
                      | Types.up =>
                          {| Types.x := Types.x old; Types.y := Z.max 0 (Types.y old - 1) |}
                      | Types.down =>
                          {| Types.x := Types.x old;
                             Types.y := Z.min (gridHeight - 1) (Types.y old + 1) |}
                      | Types.left =>
                          {| Types.x := Z.max 0 (Types.x old - 1); Types.y := Types.y old |}
                      | Types.right =>
                          {| Types.x := Z.min (gridWidth - 1) (Types.x old + 1);
                             Types.y := Types.y old |}
                      end) by (destruct dir; reflexivity).
  rewrite <- Htarget. clear Htarget.
  assert (Hborder : GameMapSpec.inGrid m old ->
            GameMapSpec.inGrid m target /\ (target = old <-> GameMapLaws.atBorder m old dir))
    by apply GameMapLaws.getNewPosition_border.
  destruct (negb (Types.x target =? Types.x old) || negb (Types.y target =? Types.y old))
    eqn:Hmoved; cbn [Character.setPosition Character.setDirection Character.withData
                     Character.data Character.withDirection Character.withPosition
                     Character.position Character.direction Character.stream
                     Character.planner].
  - assert (Hne : target <> old).
    { intros Heq. rewrite Heq, !Z.eqb_refl in Hmoved. discriminate. }
    split; [reflexivity|]. split; [reflexivity|].
    split; [split; [intros _; exact Hne | reflexivity]|].
    split; [reflexivity|]. split; [reflexivity|]. split; [reflexivity|].
    intros Hgrid. destruct (Hborder Hgrid) as [Hin Hiff]. split; [exact Hin|].
    split; [discriminate | intros Hat; exfalso; apply Hne, Hiff, Hat].
  - apply orb_false_iff in Hmoved as [Hx Hy].
    apply negb_false_iff, Z.eqb_eq in Hx, Hy.
    assert (Hsame : target = old) by (destruct target, old; simpl in *; congruence).
    split; [symmetry; exact Hsame|]. split; [reflexivity|].
    split; [split; [discriminate | intros Hne; contradiction]|].
    split; [reflexivity|]. split; [reflexivity|]. split; [reflexivity|].
    intros Hgrid. destruct (Hborder Hgrid) as [Hin Hiff]. split; [exact Hin|].
    split; [intros _; apply Hiff, Hsame | reflexivity].
Qed.

Lemma move_steps_like_the_map_witness :
  fst (fst (Character.move stranger Types.right 7 8)) = false.
Proof.
  pose proof (move_steps_like_the_map stranger Types.right 7 8 [] []) as H.
  cbv zeta in H.
  destruct (Character.move stranger Types.right 7 8) as [[moved after] events].
  destruct H as (_ & _ & _ & _ & _ & _ & Hgrid).
  destruct Hgrid as [_ Hborder]; [unfold GameMapSpec.inGrid; simpl; lia|].
  apply Hborder. reflexivity.
Defined.

(** *** The registry *)

Lemma mapGet_filter_ne {V} key other (m : list (string * V)) :
  other <> key ->
  JS.mapGet other (List.filter (fun entry => negb (String.eqb (fst entry) key)) m)
  = JS.mapGet other m.
Proof.
  intros Hne. induction m as [|[k v] m IH]; simpl; [reflexivity|].
  destruct (String.eqb_spec k key) as [->|Hk]; simpl.
  - destruct (String.eqb_spec key other); [congruence | exact IH].
  - rewrite IH. reflexivity.
Qed.

Lemma mapGet_filter_eq {V} key (m : list (string * V)) :
  JS.mapGet key (List.filter (fun entry => negb (String.eqb (fst entry) key)) m) = None.
Proof.
  induction m as [|[k v] m IH]; simpl; [reflexivity|].
  destruct (String.eqb_spec k key) as [->|Hk]; simpl; [exact IH|].
  destruct (String.eqb_spec k key); [contradiction | exact IH].
Qed.

(** X28. The registry of characters is a map from ids: [add] files a
    character under its own id, replacing the one that had it, and changes
    no other entry; [remove] deletes the entry of an id and no other, and
    answers [true] with one removed event exactly when there was one,
    [false] with nothing changed and nothing published otherwise. *)
Theorem registry_add_get_remove cm c id :
  CharacterManager.get (CharacterManager.add cm c) (Character.id (Character.data c)) = Some c
  /\ (id <> Character.id (Character.data c) ->
      CharacterManager.get (CharacterManager.add cm c) id = CharacterManager.get cm id)
  /\ (let '(removed, after, events) := CharacterManager.remove cm id in
      CharacterManager.get after id = None
      /\ (forall other, other <> id ->
          CharacterManager.get after other = CharacterManager.get cm other)
      /\ match CharacterManager.get cm id with
         | Some _ => removed = true /\ events = [CharacterManager.CharacterRemoved id]
         | None => removed = false /\ events = [] /\ after = cm
         end).
Proof.
  unfold CharacterManager.get, CharacterManager.add, CharacterManager.remove.
  cbn [CharacterManager.characters].
  split; [apply mapGet_mapSet_eq|]. split; [intros Hne; apply mapGet_mapSet_ne, Hne|].
  destruct (JS.mapGet id (CharacterManager.characters cm)) as [found|] eqn:Hget;
    cbn [CharacterManager.characters].
  - split; [apply mapGet_filter_eq|]. split; [|split; reflexivity].
    intros other Hne. apply mapGet_filter_ne, Hne.
  - split; [exact Hget|]. split; [reflexivity | repeat split].
Qed.

Lemma registry_add_get_remove_witness :
  CharacterManager.get
    (CharacterManager.add CharacterManager.newCharacterManager stranger) "leonard"
  = CharacterManager.get CharacterManager.newCharacterManager "leonard".
Proof.
  apply (proj1 (proj2 (registry_add_get_remove CharacterManager.newCharacterManager
                         stranger "leonard"))).
  discriminate.
Defined.

Lemma mapGet_In {V} key (value : V) m :
  JS.mapGet key m = Some value -> In value (JS.mapValues m).
Proof.
  induction m as [|[k v] m IH]; simpl; [discriminate|].
  destruct (String.eqb_spec k key); [intros [= ->]; left; reflexivity | right; auto].
Qed.

(** X29. [getNearby] never lists the character itself, lists only
    registered characters within [radius] cells of it on both axes, and is
    symmetric: of two characters registered under their ids, each is near
    the other or neither is. An id that is not registered has no one
    nearby. *)
Theorem getNearby_symmetric cm a b radius :
  let idOf c := Character.id (Character.data c) in
  let at_ c := Character.position (Character.data c) in
  (CharacterManager.get cm (idOf a) = None -> CharacterManager.getNearby cm (idOf a) radius = [])
  /\ (CharacterManager.get cm (idOf a) = Some a ->
      (forall other, In other (CharacterManager.getNearby cm (idOf a) radius) ->
         In other (CharacterManager.getAll cm)
         /\ idOf other <> idOf a
         /\ Z.abs (Types.x (at_ other) - Types.x (at_ a)) <= radius
         /\ Z.abs (Types.y (at_ other) - Types.y (at_ a)) <= radius)
      /\ (CharacterManager.get cm (idOf b) = Some b ->
          In b (CharacterManager.getNearby cm (idOf a) radius)
          <-> In a (CharacterManager.getNearby cm (idOf b) radius))).
Proof.
  intros idOf at_.
  assert (Hnear : forall p, CharacterManager.get cm (idOf p) = Some p ->
            forall other, In other (CharacterManager.getNearby cm (idOf p) radius)
            <-> In other (CharacterManager.getAll cm)
                /\ idOf other <> idOf p
                /\ Z.abs (Types.x (at_ other) - Types.x (at_ p)) <= radius
                /\ Z.abs (Types.y (at_ other) - Types.y (at_ p)) <= radius).
  { intros p Hp other. unfold CharacterManager.getNearby. rewrite Hp, filter_In.
    fold (idOf other) (at_ other) (at_ p).
    destruct (String.eqb_spec (idOf other) (idOf p)) as [Heq|Hne].
    - split; [intros [_ H]; discriminate | intros (_ & Hne & _); contradiction].
    - rewrite andb_true_iff, !Z.leb_le. tauto. }
  split; [intros Hnone; unfold CharacterManager.getNearby; rewrite Hnone; reflexivity|].
  intros Ha. split; [intros other Hin; apply (Hnear a Ha), Hin|].
  intros Hb. rewrite (Hnear a Ha), (Hnear b Hb).
  pose proof (mapGet_In _ _ _ Ha) as Hina. pose proof (mapGet_In _ _ _ Hb) as Hinb.
  fold (CharacterManager.getAll cm) in Hina, Hinb.
  split; intros (_ & Hne & Hx & Hy); (split; [assumption|]); (split; [congruence|]); lia.
Qed.

(** Three characters: Penny at (6, 7), Leonard three cells from her, and
    Howard at the far end of the map. *)
Definition resident (id name : string) (x y : Z) : Character.Character :=
  Character.newCharacter
    {| Character.id := id; Character.name := name; Character.age := 27;
       Character.position := {| Types.x := x; Types.y := y |};
       Character.color := "#10B981";
       Character.sprite := {| Character.idle := fun _ => []; Character.walk := fun _ => [] |};
       Character.direction := Types.down; Character.isMoving := false;
       Character.personality := "Curious"; Character.occupation := "Experimental Physicist";
       Character.lifestyle := "Works late";
       Character.memoryStream := []; Character.currentPlan := None;
       Character.currentAction := "Starting the day";
       Character.currentActionEmoji := "-";
       Character.relationships := []; Character.lastReflectionTime := 0;
       Character.importanceAccumulator := 0%Q; Character.pendingCommands := [] |}.

Definition leonard : Character.Character := resident "leonard" "Leonard" 9 5.
Definition howard : Character.Character := resident "howard" "Howard" 30 2.

Definition building : CharacterManager.CharacterManager :=
  CharacterManager.add
    (CharacterManager.add
       (CharacterManager.add CharacterManager.newCharacterManager stranger) leonard)
    howard.

Lemma getNearby_symmetric_witness :
  (forall other,
      In other (CharacterManager.getNearby building "penny" 5) ->
      In other (CharacterManager.getAll building)
      /\ Character.id (Character.data other) <> "penny"
      /\ Z.abs (Types.x (Character.position (Character.data other)) - 6) <= 5
      /\ Z.abs (Types.y (Character.position (Character.data other)) - 7) <= 5)
  /\ (In leonard (CharacterManager.getNearby building "penny" 5)
      <-> In stranger (CharacterManager.getNearby building "leonard" 5))
  /\ CharacterManager.getNearby building "penny" 5 = [leonard]
  /\ CharacterManager.getNearby building "leonard" 5 = [stranger]
  /\ CharacterManager.getNearby building "howard" 5 = [].
Proof.
  destruct (proj2 (getNearby_symmetric building stranger leonard 5) eq_refl)
    as [Hlisted Hsymmetric].
  split; [exact Hlisted|]. split; [exact (Hsymmetric eq_refl)|].
  repeat split; reflexivity.
Defined.

End CharacterLaws.

(** ** World: the simulation log *)

Module WorldLaws.

(** X30. The simulation log never holds more than 1000 entries:
    [addToLog] appends one line, stamped with the clock's day and time,
    and when that makes 1001 entries it keeps the last 500 of them, the new
    line included. Nothing else in the world changes. *)
Theorem addToLog_keeps_the_log_bounded w message :
  (length (World.log w) <= 1000)%nat ->
  let line := World.logLine (TimeSystem.getTime (World.clock w)) message in
  let after := World.addToLog w message in
  (length (World.log after) <= 1000)%nat
  /\ last (World.log after) = Some line
  /\ ((length (World.log w) < 1000)%nat -> World.log after = World.log w ++ [line])
  /\ (length (World.log w) = 1000%nat ->
      World.log after = skipn 501 (World.log w) ++ [line]
      /\ length (World.log after) = 500%nat)
  /\ World.withLog after (World.log w) = World.withLog w (World.log w).
Proof.
  intros Hbound line after. unfold after, World.addToLog. fold line.
  cbn [World.log World.withLog]. rewrite length_app. cbn [length].
  destruct (Nat.ltb_spec 1000 (length (World.log w) + 1)) as [Hfull|Hroom].
  - assert (Hlen : length (World.log w) = 1000%nat) by lia.
    assert (Hkept : World.lastEntries 500 (World.log w ++ [line])
                    = skipn 501 (World.log w) ++ [line]).
    { unfold World.lastEntries. rewrite length_app. cbn [length].
      replace (length (World.log w) + 1 - 500)%nat with 501%nat by lia.
      rewrite skipn_app. replace (501 - length (World.log w))%nat with 0%nat by lia.
      reflexivity. }
    rewrite Hkept. split; [rewrite length_app, length_skipn; simpl; lia|].
    split; [apply last_snoc|]. split; [lia|].
    split; [|reflexivity].
    intros _. split; [reflexivity|]. rewrite length_app, length_skipn. simpl. lia.
  - split; [rewrite length_app; simpl; lia|]. split; [apply last_snoc|].
    split; [reflexivity|]. split; [lia | reflexivity].
Qed.

Lemma addToLog_keeps_the_log_bounded_witness :
  match (World.fromTemplate WorldSpec.smallTemplate WorldSpec.sampleOracle Host.start).1 with
  | Some freshWorld =>
      (length (World.log (World.addToLog freshWorld "Day 2 begins")) <= 1000)%nat
  | None => False
  end.
Proof.
  assert (Hshort :
    match (World.fromTemplate WorldSpec.smallTemplate WorldSpec.sampleOracle Host.start).1 with
    | Some freshWorld => (length (World.log freshWorld) <=? 1000)%nat = true
    | None => False
    end) by (vm_compute; reflexivity).
  destruct (World.fromTemplate WorldSpec.smallTemplate WorldSpec.sampleOracle Host.start).1
    as [freshWorld|]; [|exact Hshort].
  apply (addToLog_keeps_the_log_bounded freshWorld "Day 2 begins").
  apply Nat.leb_le, Hshort.
Defined.

End WorldLaws.
